(** * Voice conversation pipeline

    A shallow embedding of the voice agent's request pipeline: the retry
    wrapper, the audio validator and transcoder, the three provider clients,
    the session and message store, the orchestrator and the HTTP route that
    owns the temporary audio files.

    The repository holds two generations of the code.  The first one
    (mongoose models, [src/lib], [src/modules], the [voice/conversation]
    route) is embedded in the modules whose names end in [V1]; the second one
    (native driver, [v2/src/lib]) in those ending in [V2].

    Asynchronous functions are run to completion one after the other inside a
    single invocation, so [await] is sequencing in a state-and-exception
    monad.  Calls to [logger] and [console] do not influence control flow and
    are left out. *)

From stdpp Require Import gmap strings list.
From Stdlib Require Import Ascii ZArith QArith Qround DecimalString Sorted Lia.

Local Open Scope Z_scope.

(** ** Values that JavaScript code throws *)

(** What the code inspects of a caught value: whether it is an [Error]
    instance, its [message], its rendering by [String(...)], and the status
    fields [error.status] and [error.response.status]. *)
Record JsError := mkError {
  is_Error : bool;
  message : string;
  text : string;
  status : option Z;
  response_status : option Z
}.

(** A thrown value is [undefined] or a value described by [JsError]. *)
Inductive thrown :=
| Undefined
| Exn (e : JsError).

(** [new Error(msg)]. *)
Definition new_Error (msg : string) : JsError :=
  mkError true msg ("Error: " +:+ msg) None None.

(** [String(v)]. *)
Definition String_of (v : thrown) : string :=
  match v with
  | Undefined => "undefined"
  | Exn e => text e
  end.

(** [error instanceof Error ? error.message : "Unknown error"]. *)
Definition message_or_unknown (v : thrown) : string :=
  match v with
  | Undefined => "Unknown error"
  | Exn e => if is_Error e then message e else "Unknown error"
  end.

(** ** State and exceptions *)

Inductive outcome (A : Type) :=
| Return (a : A)
| Throw (v : thrown).
Arguments Return {A} a.
Arguments Throw {A} v.

Definition IO (S A : Type) : Type := S -> outcome A * S.

Definition ret {S A} (a : A) : IO S A := fun s => (Return a, s).

Definition throw {S A} (v : thrown) : IO S A := fun s => (Throw v, s).

Definition raise {S A} (e : JsError) : IO S A := throw (Exn e).

Definition bind {S A B} (c : IO S A) (k : A -> IO S B) : IO S B :=
  fun s =>
    match c s with
    | (Return a, s') => k a s'
    | (Throw v, s') => (Throw v, s')
    end.

(** [try { c } catch (error) { h error }]. *)
Definition try_catch {S A} (c : IO S A) (h : thrown -> IO S A) : IO S A :=
  fun s =>
    match c s with
    | (Return a, s') => (Return a, s')
    | (Throw v, s') => h v s'
    end.

(** [try { c } finally { f }]: [f] runs on both exits, and an exception of
    [f] replaces the pending result. *)
Definition try_finally {S A} (c : IO S A) (f : IO S unit) : IO S A :=
  fun s =>
    match c s with
    | (r, s') =>
        match f s' with
        | (Return _, s'') => (r, s'')
        | (Throw v, s'') => (Throw v, s'')
        end
    end.

Definition get {S} : IO S S := fun s => (Return s, s).

Definition modify {S} (f : S -> S) : IO S unit := fun s => (Return tt, f s).

(** A computation on part of the state, run where more state is kept. *)
Definition lift {S L A} (c : IO S A) : IO (S * L) A :=
  fun '(s, l) =>
    match c s with
    | (r, s') => (r, (s', l))
    end.

Declare Scope io_scope.
Delimit Scope io_scope with io.
Notation "x <- c ;; k" := (bind c (fun x => k))
  (at level 100, c at next level, right associativity) : io_scope.
Notation "c ;;; k" := (bind c (fun _ => k))
  (at level 100, right associativity) : io_scope.
Local Open Scope io_scope.

(** ** What a run of the retry wrapper does besides calling the operation *)

Inductive event :=
| EvInvoke
| EvSleep (ms : Z).

Definition trace := list event.

Definition is_invoke (ev : event) : bool :=
  match ev with EvInvoke => true | EvSleep _ => false end.

Definition invocations (tr : trace) : nat := length (List.filter is_invoke tr).

Definition sleeps (tr : trace) : list Z :=
  omap (fun ev => match ev with EvSleep ms => Some ms | EvInvoke => None end) tr.

(** [await operation()], counted. *)
Definition invoke {W T} (operation : IO W T) : IO (W * trace) T :=
  fun '(w, tr) =>
    match operation w with
    | (r, w') => (r, (w', tr ++ [EvInvoke]))
    end.

(** [await new Promise((resolve) => setTimeout(resolve, ms))]. *)
Definition sleep {W} (ms : Z) : IO (W * trace) unit :=
  fun '(w, tr) => (Return tt, (w, tr ++ [EvSleep ms])).

(** Number of times the body of
    [for (let attempt = 0; attempt <= maxRetries; attempt++)] is entered when
    nothing leaves the loop early. *)
Definition trip_count (maxRetries : Z) : nat := Z.to_nat (maxRetries + 1).

(** ** [src/lib/errors.ts]: the retry wrapper, first generation *)

Module RetryV1.

Definition default_maxRetries : Z := 1.

(** [status && status >= 400 && status < 500]. *)
Definition client_error (e : JsError) : bool :=
  match status e with
  | Some s => negb (s =? 0) && (400 <=? s) && (s <? 500)
  | None => false
  end.

(** [error instanceof Error ? error : new Error(String(error))]. *)
Definition to_Error (error : thrown) : JsError :=
  match error with
  | Undefined => new_Error (String_of error)
  | Exn e => if is_Error e then e else new_Error (String_of error)
  end.

(** Reading [.status] off [undefined] is a [TypeError]. *)
Definition TypeError_status : JsError :=
  new_Error "Cannot read properties of undefined (reading 'status')".

(** The body of the [catch] clause up to the decision to go round again. *)
Definition on_error {W T} (maxRetries attempt : Z) (error : thrown)
    (again : thrown -> IO (W * trace) T) : IO (W * trace) T :=
  let lastError := Exn (to_Error error) in
  match error with
  | Undefined => raise TypeError_status
  | Exn e =>
      if client_error e then throw error
      else
        (if attempt <? maxRetries then sleep 500 else ret tt) ;;;
        again lastError
  end.

Fixpoint loop {W T} (operation : IO W T) (maxRetries : Z)
    (trips : nat) (attempt : Z) (lastError : thrown) : IO (W * trace) T :=
  match trips with
  | O => throw lastError
  | S trips' =>
      try_catch (invoke operation)
        (fun error =>
           on_error maxRetries attempt error
             (loop operation maxRetries trips' (attempt + 1)))
  end.

Definition retryWithBackoff {W T} (operation : IO W T)
    (maxRetries : option Z) : IO (W * trace) T :=
  let maxRetries := default default_maxRetries maxRetries in
  loop operation maxRetries (trip_count maxRetries) 0 Undefined.

End RetryV1.

(** ** [v2/src/lib/errors.ts]: the retry wrapper, second generation *)

Module RetryV2.

Definition default_maxRetries : Z := 2.

(** [status != null && status < 500] on
    [error?.response?.status]. *)
Definition below_500 (error : thrown) : bool :=
  match error with
  | Undefined => false
  | Exn e =>
      match response_status e with
      | Some s => s <? 500
      | None => false
      end
  end.

(** [Math.pow(2, attempt) * 1000]. *)
Definition delay (attempt : Z) : Z := 2 ^ attempt * 1000.

Definition on_error {W T} (maxRetries attempt : Z) (error : thrown)
    (again : thrown -> IO (W * trace) T) : IO (W * trace) T :=
  let lastError := error in
  if below_500 error then throw error
  else
    (if attempt <? maxRetries then sleep (delay attempt) else ret tt) ;;;
    again lastError.

Fixpoint loop {W T} (operation : IO W T) (maxRetries : Z)
    (trips : nat) (attempt : Z) (lastError : thrown) : IO (W * trace) T :=
  match trips with
  | O => throw lastError
  | S trips' =>
      try_catch (invoke operation)
        (fun error =>
           on_error maxRetries attempt error
             (loop operation maxRetries trips' (attempt + 1)))
  end.

Definition retryWithBackoff {W T} (operation : IO W T)
    (maxRetries : option Z) : IO (W * trace) T :=
  let maxRetries := default default_maxRetries maxRetries in
  loop operation maxRetries (trip_count maxRetries) 0 Undefined.

End RetryV2.

(** The two generations side by side. *)
Inductive generation := Gen1 | Gen2.

Definition retryWithBackoff_of (g : generation) {W T}
    (operation : IO W T) (maxRetries : option Z) : IO (W * trace) T :=
  match g with
  | Gen1 => RetryV1.retryWithBackoff operation maxRetries
  | Gen2 => RetryV2.retryWithBackoff operation maxRetries
  end.

(** The status field each generation reads. *)
Definition carried_status (g : generation) (e : JsError) : option Z :=
  match g with
  | Gen1 => status e
  | Gen2 => response_status e
  end.

(** Pause before the retry that follows attempt number [attempt]. *)
Definition delay_of (g : generation) (attempt : Z) : Z :=
  match g with
  | Gen1 => 500
  | Gen2 => RetryV2.delay attempt
  end.

Definition default_maxRetries_of (g : generation) : Z :=
  match g with
  | Gen1 => RetryV1.default_maxRetries
  | Gen2 => RetryV2.default_maxRetries
  end.

(** ** Strings and numbers as the code uses them *)

(** A string is its sequence of code units, one [ascii] each; [length] is
    [String.length].  Literals are kept byte for byte. *)

(** [hay.includes(needle)]. *)
Fixpoint includes (hay needle : string) : bool :=
  String.prefix needle hay ||
  match hay with
  | EmptyString => false
  | String _ rest => includes rest needle
  end.

(** [s.startsWith(p)]. *)
Definition startsWith (s p : string) : bool := String.prefix p s.

(** White space as [trim] and [parseInt] see it, among the code units below
    256: tab, line feed, vertical tab, form feed, carriage return, space and
    no-break space. *)
Definition is_white (c : Ascii.ascii) : bool :=
  let n := Ascii.N_of_ascii c in
  ((9 <=? n) && (n <=? 13) || (n =? 32) || (n =? 160))%N.

(** [s.trim().length === 0]. *)
Fixpoint blank (s : string) : bool :=
  match s with
  | EmptyString => true
  | String c rest => is_white c && blank rest
  end.

(** [!s || s.trim().length === 0] on a string. *)
Definition empty_or_blank (s : string) : bool :=
  (String.length s =? 0)%nat || blank s.

Fixpoint skip_white (s : string) : string :=
  match s with
  | String c rest => if is_white c then skip_white rest else s
  | EmptyString => s
  end.

Definition digit_value (c : Ascii.ascii) : option Z :=
  let n := Z.of_N (Ascii.N_of_ascii c) in
  if (48 <=? n) && (n <=? 57) then Some (n - 48)
  else if (97 <=? n) && (n <=? 102) then Some (n - 87)
  else if (65 <=? n) && (n <=? 70) then Some (n - 55)
  else None.

(** The longest prefix of digits in [radix], read as a number; [None] when
    there is no digit. *)
Fixpoint read_digits (radix : Z) (acc : option Z) (s : string) : option Z :=
  match s with
  | EmptyString => acc
  | String c rest =>
      match digit_value c with
      | Some d =>
          if d <? radix
          then read_digits radix (Some (default 0 acc * radix + d)) rest
          else acc
      | None => acc
      end
  end.

(** [parseInt(s)]; [None] is [NaN]. *)
Definition parseInt (s : string) : option Z :=
  let s := skip_white s in
  let '(sign, s) :=
    match s with
    | String "-"%char rest => (-1, rest)
    | String "+"%char rest => (1, rest)
    | _ => (1, s)
    end in
  let '(radix, s) :=
    match s with
    | String "0"%char (String "x"%char rest) => (16, rest)
    | String "0"%char (String "X"%char rest) => (16, rest)
    | _ => (10, s)
    end in
  (fun n => sign * n) <$> read_digits radix None s.

(** A number that may be [NaN]. *)
Inductive number :=
| NaN
| Num (q : Q).

(** [a || b] on a string read from the environment. *)
Definition or_string (a : option string) (b : string) : string :=
  match a with
  | Some s => if (String.length s =? 0)%nat then b else s
  | None => b
  end.

(** [n || d] on the result of [parseInt]. *)
Definition or_number (n : option Z) (d : Z) : Z :=
  match n with
  | Some v => if v =? 0 then d else v
  | None => d
  end.

(** [`${n}`] for an integer. *)
Definition show_Z (n : Z) : string := NilZero.string_of_int (Z.to_int n).

(** [`${n}`] for the result of [parseInt]. *)
Definition show_parsed (n : option Z) : string :=
  match n with
  | Some v => show_Z v
  | None => "NaN"
  end.

Definition two_digits (n : Z) : string :=
  if n <? 10 then "0" +:+ show_Z n else show_Z n.

(** [(bytes / 1024 / 1024).toFixed(2)] for a file size: the division by a
    power of two is exact, and [toFixed] takes the nearest hundredth, the
    larger one on a tie. *)
Definition show_megabytes (bytes : Z) : string :=
  let hundredths := (2 * 100 * bytes + 1048576) / (2 * 1048576) in
  show_Z (hundredths / 100) +:+ "." +:+ two_digits (hundredths mod 100).

(** [Math.round(d)]. *)
Definition Math_round (d : Q) : Z := Qfloor (d + (1 # 2))%Q.

(** The double quote character, for messages that quote a value. *)
Definition dquote : string := String (Ascii.ascii_of_nat 34) EmptyString.

(** [process.env], [process.cwd()] and [os.tmpdir()] as far as the code reads
    them. *)
Record Env := mkEnv {
  MAX_AUDIO_SIZE_MB : option string;
  MAX_AUDIO_DURATION_SECONDS : option string;
  NODE_ENV : option string;
  cwd : string;
  tmpdir : string
}.

(** ** The world outside the process *)

(** What [ffprobe] reports for a file: the command fails, or it prints
    something that [parseFloat] reads as a number or as [NaN]. *)
Inductive probe_result :=
| ProbeFails (e : JsError)
| ProbeStdout (duration : number).

(** What [ffmpeg] does with a file: it converts it, or it exits with an
    error, having left nothing at the output path or an incomplete output
    file. *)
Inductive ffmpeg_outcome (File : Type) :=
| Converted
| Failed (left_behind : option File).
Arguments Converted {File}.
Arguments Failed {File} left_behind.

(** A file on disk, by what the code can observe of it. *)
#[warnings="-register-all"] Inductive FileMeta := mkFile {
  f_size : Z;
  f_stat_error : option JsError;         (* [statSync] throws this *)
  f_probe : probe_result;
  f_ffmpeg : ffmpeg_outcome FileMeta;    (* what [ffmpeg] does with it *)
  f_unlink_error : option JsError        (* [unlink] throws this *)
}.

Inductive role := user | assistant | system.

Record ChatMessage := mkChat {
  chat_role : role;
  chat_content : string
}.

Definition Buffer := string.

(** An [ObjectId], by its 24 lower-case hexadecimal digits. *)
Definition ObjectId := string.

Record SessionDoc := mkSession {
  s_userId : string;
  s_createdAt : Z;
  s_lastActivityAt : Z
}.

Record MessageDoc := mkMessage {
  m_sessionId : ObjectId;
  m_role : role;
  m_content : string;
  m_createdAt : Z
}.

Record UserDoc := mkUser {
  u_id : ObjectId;
  u_email : string;
  u_apiKey : string
}.

(** Calls that reach a provider, in order. *)
Inductive provider_call :=
| CallWhisper (path : string)
| CallChat (prompt : list ChatMessage)
| CallSpeech (input : string).

Record World := mkWorld {
  files : gmap string FileMeta;          (* the file system, by path *)
  write_error : option JsError;          (* [writeFile] throws this *)
  sessions : gmap ObjectId SessionDoc;   (* collection [sessions], by [_id] *)
  messages : list MessageDoc;            (* collection [messages], oldest insert first *)
  users : list UserDoc;
  db_down : option JsError;              (* connecting throws this *)
  db_faults : list (option JsError);     (* one entry per store operation *)
  fresh_ids : list ObjectId;             (* ids the store hands out *)
  uuids : list string;                   (* results of [randomUUID()] *)
  clock : Z;                             (* [Date.now()] *)
  whisper : list (outcome string);       (* answers of the transcription provider *)
  chat : list (outcome (option string)); (* answers of the generation provider *)
  speech : list (outcome Buffer);        (* answers of the synthesis provider *)
  calls : list provider_call
}.

Definition set_files (f : gmap string FileMeta -> gmap string FileMeta) (w : World) : World :=
  mkWorld (f (files w)) (write_error w) (sessions w) (messages w) (users w)
    (db_down w) (db_faults w) (fresh_ids w) (uuids w) (clock w)
    (whisper w) (chat w) (speech w) (calls w).

Definition set_sessions (f : gmap ObjectId SessionDoc -> gmap ObjectId SessionDoc) (w : World) : World :=
  mkWorld (files w) (write_error w) (f (sessions w)) (messages w) (users w)
    (db_down w) (db_faults w) (fresh_ids w) (uuids w) (clock w)
    (whisper w) (chat w) (speech w) (calls w).

Definition set_messages (f : list MessageDoc -> list MessageDoc) (w : World) : World :=
  mkWorld (files w) (write_error w) (sessions w) (f (messages w)) (users w)
    (db_down w) (db_faults w) (fresh_ids w) (uuids w) (clock w)
    (whisper w) (chat w) (speech w) (calls w).

Definition set_db_faults (l : list (option JsError)) (w : World) : World :=
  mkWorld (files w) (write_error w) (sessions w) (messages w) (users w)
    (db_down w) l (fresh_ids w) (uuids w) (clock w)
    (whisper w) (chat w) (speech w) (calls w).

Definition set_fresh_ids (l : list ObjectId) (w : World) : World :=
  mkWorld (files w) (write_error w) (sessions w) (messages w) (users w)
    (db_down w) (db_faults w) l (uuids w) (clock w)
    (whisper w) (chat w) (speech w) (calls w).

Definition set_uuids (l : list string) (w : World) : World :=
  mkWorld (files w) (write_error w) (sessions w) (messages w) (users w)
    (db_down w) (db_faults w) (fresh_ids w) l (clock w)
    (whisper w) (chat w) (speech w) (calls w).

Definition set_whisper (l : list (outcome string)) (w : World) : World :=
  mkWorld (files w) (write_error w) (sessions w) (messages w) (users w)
    (db_down w) (db_faults w) (fresh_ids w) (uuids w) (clock w)
    l (chat w) (speech w) (calls w).

Definition set_chat (l : list (outcome (option string))) (w : World) : World :=
  mkWorld (files w) (write_error w) (sessions w) (messages w) (users w)
    (db_down w) (db_faults w) (fresh_ids w) (uuids w) (clock w)
    (whisper w) l (speech w) (calls w).

Definition set_speech (l : list (outcome Buffer)) (w : World) : World :=
  mkWorld (files w) (write_error w) (sessions w) (messages w) (users w)
    (db_down w) (db_faults w) (fresh_ids w) (uuids w) (clock w)
    (whisper w) (chat w) l (calls w).

Definition log_call (c : provider_call) (w : World) : World :=
  mkWorld (files w) (write_error w) (sessions w) (messages w) (users w)
    (db_down w) (db_faults w) (fresh_ids w) (uuids w) (clock w)
    (whisper w) (chat w) (speech w) (calls w ++ [c]).

(** *** File system *)

Definition ENOENT (path : string) : JsError :=
  new_Error ("ENOENT: no such file or directory, " +:+ path).

(** [fs.existsSync(path)]. *)
Definition existsSync (path : string) : IO World bool :=
  fun w =>
    (Return match files w !! path with Some _ => true | None => false end, w).

(** [fs.statSync(path).size]. *)
Definition statSync_size (path : string) : IO World Z :=
  fun w =>
    match files w !! path with
    | None => (Throw (Exn (ENOENT path)), w)
    | Some f =>
        match f_stat_error f with
        | Some e => (Throw (Exn e), w)
        | None => (Return (f_size f), w)
        end
    end.

(** [unlink(path)] and [fs.unlinkSync(path)]. *)
Definition unlink (path : string) : IO World unit :=
  fun w =>
    match files w !! path with
    | None => (Throw (Exn (ENOENT path)), w)
    | Some f =>
        match f_unlink_error f with
        | Some e => (Throw (Exn e), w)
        | None => (Return tt, set_files (delete path) w)
        end
    end.

(** [writeFile(path, bytes)]. *)
Definition writeFile (path : string) (content : FileMeta) : IO World unit :=
  fun w =>
    match write_error w with
    | Some e => (Throw (Exn e), w)
    | None => (Return tt, set_files (insert path content) w)
    end.

Fixpoint string_forall (p : ascii -> bool) (s : string) : bool :=
  match s with
  | EmptyString => true
  | String c rest => p c && string_forall p rest
  end.

(** The two programs are run through a shell, on a command line that holds
    the path between double quotes.  The definitions below say what the
    program does with the file at that path.  A path with a character that
    the shell interprets between double quotes makes the command line
    another command, which they do not describe: a statement on what the
    programs leave alone takes a path that is [shell_safe]. *)
Definition shell_active (c : ascii) : bool :=
  let n := Ascii.N_of_ascii c in
  ((n =? 34) || (n =? 36) || (n =? 92) || (n =? 96))%N.

(** No double quote, dollar sign, backslash or backquote. *)
Definition shell_safe (path : string) : bool :=
  string_forall (fun c => negb (shell_active c)) path.

(** [execPromise(`ffprobe ... "${filePath}"`)] followed by
    [parseFloat(stdout.trim())]. *)
Definition ffprobe_duration (path : string) : IO World number :=
  fun w =>
    match files w !! path with
    | None => (Throw (Exn (ENOENT path)), w)
    | Some f =>
        match f_probe f with
        | ProbeFails e => (Throw (Exn e), w)
        | ProbeStdout d => (Return d, w)
        end
    end.

Definition ffmpeg_failed : JsError := new_Error "Command failed: ffmpeg".

(** [execPromise(`ffmpeg -i "${inputPath}" ... "${outputPath}" -y`)]: on
    success the converted file exists at [outputPath]; a run that fails
    rejects, and may have written part of the output before it did. *)
Definition ffmpeg (inputPath outputPath : string) : IO World unit :=
  fun w =>
    match files w !! inputPath with
    | None => (Throw (Exn ffmpeg_failed), w)
    | Some f =>
        match f_ffmpeg f with
        | Converted => (Return tt, set_files (insert outputPath f) w)
        | Failed None => (Throw (Exn ffmpeg_failed), w)
        | Failed (Some partial) =>
            (Throw (Exn ffmpeg_failed), set_files (insert outputPath partial) w)
        end
    end.

(** [randomUUID()]. *)
Definition randomUUID : IO World string :=
  fun w =>
    match uuids w with
    | [] => (Return "00000000-0000-4000-8000-000000000000", w)
    | u :: rest => (Return u, set_uuids rest w)
    end.

(** *** Store *)

(** [connectDB()] and [getDb()]. *)
Definition connectDB : IO World unit :=
  fun w =>
    match db_down w with
    | Some e => (Throw (Exn e), w)
    | None => (Return tt, w)
    end.

(** One round trip to the store: it fails when the world says so. *)
Definition store_op : IO World unit :=
  fun w =>
    match db_faults w with
    | [] => (Return tt, w)
    | None :: rest => (Return tt, set_db_faults rest w)
    | Some e :: rest => (Throw (Exn e), set_db_faults rest w)
    end.

(** The [_id] the store gives to an inserted document. *)
Definition fresh_id : IO World ObjectId :=
  fun w =>
    match fresh_ids w with
    | [] => (Return "000000000000000000000000", w)
    | i :: rest => (Return i, set_fresh_ids rest w)
    end.

(** [new Date()].  The clock of the world stands still while a request is
    served, so two readings taken one after the other are equal here, which
    the stamps of a real run need not be. *)
Definition now : IO World Z := fun w => (Return (clock w), w).

Definition is_hex (c : ascii) : bool :=
  match digit_value c with Some _ => true | None => false end.

Definition lower (c : ascii) : ascii :=
  let n := Ascii.N_of_ascii c in
  if ((65 <=? n) && (n <=? 90))%N then Ascii.ascii_of_N (n + 32) else c.

Fixpoint string_map (f : ascii -> ascii) (s : string) : string :=
  match s with
  | EmptyString => EmptyString
  | String c rest => String (f c) (string_map f rest)
  end.

(** [new ObjectId(s)] for a string: 24 hexadecimal digits, or it throws
    ([None]). *)
Definition parseObjectId (s : string) : option ObjectId :=
  if (String.length s =? 24)%nat && string_forall is_hex s
  then Some (string_map lower s)
  else None.

(** The messages of a session in ascending [createdAt], ties in insertion
    order: [find({ sessionId }).sort({ createdAt: 1 })]. *)
Fixpoint insert_by_createdAt (m : MessageDoc) (l : list MessageDoc) : list MessageDoc :=
  match l with
  | [] => [m]
  | x :: rest =>
      if m_createdAt m <? m_createdAt x then m :: l
      else x :: insert_by_createdAt m rest
  end.

Definition sort_by_createdAt (l : list MessageDoc) : list MessageDoc :=
  foldl (fun acc m => insert_by_createdAt m acc) [] l.

Definition find_messages (sid : ObjectId) (w : World) : list MessageDoc :=
  List.filter (fun m => String.eqb (m_sessionId m) sid) (messages w).

(** [cursor.limit(n)]: the first [n] documents; [0] is no limit, and a
    negative [n] counts as [-n]. *)
Definition cursor_limit {A} (n : Z) (l : list A) : list A :=
  if n =? 0 then l else take (Z.to_nat (Z.abs n)) l.

Definition to_ChatMessage (m : MessageDoc) : ChatMessage :=
  mkChat (m_role m) (m_content m).

(** ** [src/modules/session.ts]: sessions, first generation *)

Module SessionV1.

(** Mongoose casts the [ObjectId] fields of a filter or of a new document
    from strings, and rejects with a [CastError] (inside a
    [ValidationError] for a document) when the string is not one. *)
Definition CastError (value path model : string) : JsError :=
  new_Error ("Cast to ObjectId failed for value " +:+ dquote +:+ value +:+ dquote
             +:+ " (type string) at path " +:+ dquote +:+ path +:+ dquote
             +:+ " for model " +:+ dquote +:+ model +:+ dquote).

(** The cast of a field of a filter. *)
Definition cast (value path model : string) : IO World ObjectId :=
  match parseObjectId value with
  | Some oid => ret oid
  | None => raise (CastError value path model)
  end.

Definition ValidationError (value path model : string) : JsError :=
  new_Error (model +:+ " validation failed: " +:+ path +:+ ": "
             +:+ message (CastError value path model)).

(** The cast of a field of a new document. *)
Definition cast_field (value path model : string) : IO World ObjectId :=
  match parseObjectId value with
  | Some oid => ret oid
  | None => raise (ValidationError value path model)
  end.

(** [Session.create({ userId })]: the schema sets [lastActivityAt] by its
    default, [Date.now], and [createdAt] by [timestamps: true]. *)
Definition Session_create (userId : string) : IO World ObjectId :=
  uid <- cast_field userId "userId" "Session" ;;
  store_op ;;;
  id <- fresh_id ;;
  lastActivityAt <- now ;;
  createdAt <- now ;;
  modify (set_sessions (insert id (mkSession uid createdAt lastActivityAt))) ;;;
  ret id.

(** [Session.findOne({ _id: sessionId, userId }).lean()].  A filter with a
    field that cannot be cast is rejected before the store is asked.  The
    casts are taken in the order of the filter; when neither string is an
    [ObjectId], mongoose may name the other field in its [CastError]. *)
Definition Session_findOne (sessionId userId : string)
    : IO World (option (ObjectId * SessionDoc)) :=
  oid <- cast sessionId "_id" "Session" ;;
  uid <- cast userId "userId" "Session" ;;
  store_op ;;;
  w <- get ;;
  match sessions w !! oid with
  | Some s =>
      if String.eqb (s_userId s) uid then ret (Some (oid, s)) else ret None
  | None => ret None
  end.

(** [Session.findByIdAndUpdate(sessionId, { lastActivityAt: new Date() })]. *)
Definition Session_touch (sessionId : string) : IO World unit :=
  oid <- cast sessionId "_id" "Session" ;;
  t <- now ;;
  store_op ;;;
  modify (set_sessions (alter (fun s => mkSession (s_userId s) (s_createdAt s) t) oid)).

Definition createSession (userId : string) : IO World string :=
  connectDB ;;;
  try_catch (Session_create userId) (fun error => throw error).

Definition getSession (sessionId userId : string)
    : IO World (option (ObjectId * SessionDoc)) :=
  connectDB ;;;
  try_catch (Session_findOne sessionId userId) (fun error => throw error).

(** A string or [null] that passes [if (sessionId)]. *)
Definition truthy (s : option string) : option string :=
  match s with
  | Some v => if (String.length v =? 0)%nat then None else Some v
  | None => None
  end.

Definition getOrCreateSession (userId : string) (sessionId : option string)
    : IO World string :=
  connectDB ;;;
  try_catch
    (returned <-
       match truthy sessionId with
       | Some sid =>
           session <- getSession sid userId ;;
           match session with
           | Some _ => Session_touch sid ;;; ret (Some sid)
           | None => ret None
           end
       | None => ret None
       end ;;
     match returned with
     | Some sid => ret sid
     | None => createSession userId
     end)
    (fun error => throw error).

End SessionV1.

(** ** [src/modules/conversation.ts]: messages, first generation *)

Module ConversationV1.

(** [Message.find({ sessionId }).sort({ createdAt: 1 }).limit(limit).lean()]. *)
Definition Message_find (sessionId : string) (limit : Z) : IO World (list MessageDoc) :=
  sid <- SessionV1.cast sessionId "sessionId" "Message" ;;
  store_op ;;;
  w <- get ;;
  ret (cursor_limit limit (sort_by_createdAt (find_messages sid w))).

Definition content_required : JsError :=
  new_Error "Message validation failed: content: Path `content` is required.".

(** [Message.create({ sessionId, role, content })]: the schema requires a
    non-empty [content]; [createdAt] is the time of the insert. *)
Definition Message_create (sessionId : string) (r : role) (content : string)
    : IO World unit :=
  sid <- SessionV1.cast_field sessionId "sessionId" "Message" ;;
  (if (String.length content =? 0)%nat then raise content_required else ret tt) ;;;
  store_op ;;;
  t <- now ;;
  modify (set_messages (fun l => l ++ [mkMessage sid r content t])).

Definition getConversationHistory (sessionId : string) (limit : option Z)
    : IO World (list ChatMessage) :=
  let limit := default 20 limit in
  connectDB ;;;
  try_catch
    (found <- Message_find sessionId limit ;;
     ret (map to_ChatMessage found))
    (fun error => throw error).

Definition saveMessage (sessionId : string) (r : role) (content : string)
    : IO World unit :=
  connectDB ;;;
  try_catch (Message_create sessionId r content) (fun error => throw error).

End ConversationV1.

(** ** [src/modules/audio.ts]: validation and conversion, first generation *)

Record AudioValidationResult := mkValidation {
  valid : bool;
  duration : option number;
  size : option Z;
  error : option string
}.

Definition invalid (reason : string) : AudioValidationResult :=
  mkValidation false None None (Some reason).

(** [!isNaN(duration) && duration > max], where [max] may be [NaN]. *)
Definition longer_than (d : number) (max : option Z) : bool :=
  match d, max with
  | Num q, Some m => negb (Qle_bool q (inject_Z m))
  | _, _ => false
  end.

Module AudioV1.

Definition maxSize (env : Env) : Z :=
  or_number (parseInt (or_string (MAX_AUDIO_SIZE_MB env) "25")) 25 * 1024 * 1024.

Definition maxDuration (env : Env) : option Z :=
  parseInt (or_string (MAX_AUDIO_DURATION_SECONDS env) "300").

Definition too_large (env : Env) (bytes : Z) : string :=
  "Audio file too large (" +:+ show_megabytes bytes +:+ "MB). Maximum: "
  +:+ or_string (MAX_AUDIO_SIZE_MB env) "25" +:+ "MB".

Definition too_long (d : number) (max : option Z) : string :=
  "Audio duration too long ("
  +:+ match d with Num q => show_Z (Math_round q) | NaN => "NaN" end
  +:+ "s). Maximum: " +:+ show_parsed max +:+ "s".

Definition validateAudio (env : Env) (filePath : string)
    : IO World AudioValidationResult :=
  try_catch
    (found <- existsSync filePath ;;
     if negb found then ret (invalid "Audio file not found")
     else
       bytes <- statSync_size filePath ;;
       if bytes >? maxSize env then ret (invalid (too_large env bytes))
       else
         (* Try to get duration using ffprobe *)
         try_catch
           (d <- ffprobe_duration filePath ;;
            if longer_than d (maxDuration env)
            then ret (invalid (too_long d (maxDuration env)))
            else ret (mkValidation true (Some d) (Some bytes) None))
           (fun _ =>
              (* ffprobe not available - skip duration check, still valid *)
              ret (mkValidation true None (Some bytes) None)))
    (fun error => ret (invalid (message_or_unknown error))).

Definition prepareAudioForWhisper (inputPath : string) : IO World string :=
  let outputPath := inputPath +:+ ".wav" in
  try_catch
    (ffmpeg inputPath outputPath ;;;
     (* Clean up original *)
     found <- existsSync inputPath ;;
     (if negb (String.eqb inputPath outputPath) && found
      then unlink inputPath else ret tt) ;;;
     ret outputPath)
    (fun _ =>
       (* ffmpeg not available - use original file directly *)
       ret inputPath).

End AudioV1.

(** ** [v2/src/lib/audio.ts]: validation, second generation *)

Module AudioV2.

Definition maxSize : Z := 25 * 1024 * 1024.

(** [Number.isNaN(duration) || duration > 300]. *)
Definition rejected_duration (d : number) : bool :=
  match d with
  | NaN => true
  | Num q => negb (Qle_bool q (inject_Z 300))
  end.

Definition validateAudio (filePath : string) : IO World AudioValidationResult :=
  found <- existsSync filePath ;;
  if negb found then ret (invalid "Audio file not found")
  else
    bytes <- statSync_size filePath ;;
    if bytes >? maxSize then ret (invalid "Audio file too large (max 25MB)")
    else
      try_catch
        (d <- ffprobe_duration filePath ;;
         if rejected_duration d
         then ret (invalid "Audio duration too long (max 5 minutes)")
         else ret (mkValidation true (Some d) (Some bytes) None))
        (fun _ => ret (invalid "Invalid audio file or format not supported")).

End AudioV2.

(** ** Provider clients, first generation *)

Definition connection_error : JsError := new_Error "Connection error.".

(** [openai.audio.transcriptions.create({ file, ... })] on a read stream of
    [path]; the answer carries [text]. *)
Definition whisper_create (path : string) : IO World string :=
  fun w =>
    match files w !! path with
    | None => (Throw (Exn (ENOENT path)), w)
    | Some _ =>
        let w := log_call (CallWhisper path) w in
        match whisper w with
        | [] => (Throw (Exn connection_error), w)
        | answer :: rest => (answer, set_whisper rest w)
        end
    end.

(** [openai.chat.completions.create({ messages, ... })]; the answer is
    [choices[0].message.content]. *)
Definition chat_create (prompt : list ChatMessage) : IO World (option string) :=
  fun w =>
    let w := log_call (CallChat prompt) w in
    match chat w with
    | [] => (Throw (Exn connection_error), w)
    | answer :: rest => (answer, set_chat rest w)
    end.

(** [openai.audio.speech.create({ input, ... })] and the bytes of the
    answer. *)
Definition speech_create (input : string) : IO World Buffer :=
  fun w =>
    let w := log_call (CallSpeech input) w in
    match speech w with
    | [] => (Throw (Exn connection_error), w)
    | answer :: rest => (answer, set_speech rest w)
    end.

(** A client made by [new OpenAI({ apiKey })] sends a request again by
    itself, twice at most, when there was no answer (a connection error or
    a timeout) or the answer was 408, 409, 429 or of the server class; a
    client made with [maxRetries: 0], as the first generation's is, sends it
    once.  [request] is one HTTP request; each one is a call of its own. *)
Definition sdk_retryable (v : thrown) : bool :=
  match v with
  | Undefined => false
  | Exn e =>
      match status e with
      | None => true
      | Some s => (s =? 408) || (s =? 409) || (s =? 429) || (500 <=? s)
      end
  end.

Fixpoint sdk_request {A} (maxRetries : nat) (request : IO World A) : IO World A :=
  match maxRetries with
  | O => request
  | S retriesRemaining =>
      try_catch request
        (fun v =>
           if sdk_retryable v then sdk_request retriesRemaining request
           else throw v)
  end.

(** [l.slice(-n)]. *)
Definition slice_last {A} (n : nat) (l : list A) : list A :=
  drop (length l - n)%nat l.

Module SttV1.

Definition transcribeAudio (audioFilePath : string) : IO World string :=
  try_catch
    (whisper_create audioFilePath)
    (fun error =>
       let message := message_or_unknown error in
       let isTimeout :=
         includes message "timeout" || includes message "Connection error" in
       raise (new_Error
                (if isTimeout
                 then "STT timed out — please try speaking again"
                 else "STT failed: " +:+ message))).

End SttV1.

Module LlmV1.

Definition system_prompt : ChatMessage :=
  mkChat system
    "You are a helpful voice assistant. Keep responses concise and natural for voice conversation. Maximum 2-3 sentences.".

Definition generateResponse (userText : string)
    (conversationHistory : list ChatMessage) : IO World string :=
  try_catch
    (let messages :=
       [system_prompt]
         (* Add conversation history (last 10 messages) *)
         ++ slice_last 10 conversationHistory
         (* Add current user message *)
         ++ [mkChat user userText] in
     responseText <- chat_create messages ;;
     match responseText with
     | Some t =>
         if (String.length t =? 0)%nat
         then raise (new_Error "Empty response from LLM")
         else ret t
     | None => raise (new_Error "Empty response from LLM")
     end)
    (fun error =>
       raise (new_Error ("LLM failed: " +:+ message_or_unknown error))).

End LlmV1.

Module TtsV1.

Definition limit : Z := 4096.

Definition synthesizeSpeech (text : string) : IO World Buffer :=
  try_catch
    (if empty_or_blank text
     then raise (new_Error "Text is required for TTS")
     else if Z.of_nat (String.length text) >? limit
     then raise (new_Error
                   ("Text exceeds 4096 character limit ("
                    +:+ show_Z (Z.of_nat (String.length text)) +:+ " chars)"))
     else speech_create text)
    (fun error =>
       raise (new_Error ("TTS failed: " +:+ message_or_unknown error))).

End TtsV1.

(** ** [src/modules/voice.ts]: one turn, first generation *)

Record VoiceConversationResult := mkResult {
  audio : Buffer;
  transcript : string;
  response : string
}.

Module VoiceV1.

Definition handleVoiceConversation (sessionId audioFilePath : string)
    : IO (World * trace) VoiceConversationResult :=
  try_catch
    ((* 1. Transcribe audio (with retry) *)
     transcript <-
       RetryV1.retryWithBackoff (SttV1.transcribeAudio audioFilePath) (Some 2) ;;
     (if empty_or_blank transcript
      then raise (new_Error "No speech detected in audio") else ret tt) ;;;
     (* 2. Get conversation history *)
     history <- lift (ConversationV1.getConversationHistory sessionId (Some 20)) ;;
     (* 3. Generate response (with retry) *)
     responseText <-
       RetryV1.retryWithBackoff (LlmV1.generateResponse transcript history) (Some 2) ;;
     (* 4. Synthesize speech (with retry) *)
     audio <-
       RetryV1.retryWithBackoff (TtsV1.synthesizeSpeech responseText) (Some 2) ;;
     (* 5. Save messages to database *)
     lift (ConversationV1.saveMessage sessionId user transcript) ;;;
     lift (ConversationV1.saveMessage sessionId assistant responseText) ;;;
     ret (mkResult audio transcript responseText))
    (fun error => throw error).

(** Steps 1 to 4 of [handleVoiceConversation] on their own: all that
    happens before the first [saveMessage]. *)
Definition before_saving (sessionId audioFilePath : string)
    : IO (World * trace) (string * string * Buffer) :=
  transcript <-
    RetryV1.retryWithBackoff (SttV1.transcribeAudio audioFilePath) (Some 2) ;;
  (if empty_or_blank transcript
   then raise (new_Error "No speech detected in audio") else ret tt) ;;;
  history <- lift (ConversationV1.getConversationHistory sessionId (Some 20)) ;;
  responseText <-
    RetryV1.retryWithBackoff (LlmV1.generateResponse transcript history) (Some 2) ;;
  audio <-
    RetryV1.retryWithBackoff (TtsV1.synthesizeSpeech responseText) (Some 2) ;;
  ret (transcript, responseText, audio).

End VoiceV1.

(** ** HTTP requests and responses *)

Inductive Response :=
| JsonResponse (http_status : Z) (code message : string)
| AudioResponse (http_status : Z) (body : Buffer)
    (x_session_id x_transcript : string) (x_response_text : option string).

Record File := mkUpload {
  file_name : string;
  file_type : string;
  file_content : FileMeta    (* [file.size] is [f_size file_content] *)
}.

Record FormData := mkForm {
  form_audio : option File;
  form_sessionId : option string
}.

Record Request := mkRequest {
  authorization : option string;      (* the header of that name *)
  formData : outcome FormData         (* [await req.formData()] *)
}.

(** [{ id, email }]. *)
Record AuthUser := mkAuthUser {
  auth_id : string;
  auth_email : string
}.

(** ** [src/lib/errors.ts]: errors to responses *)

Module ErrorsV1.

Definition handleApiError (env : Env) (error : thrown) : outcome Response :=
  let err := RetryV1.to_Error error in
  match error with
  | Undefined => Throw (Exn RetryV1.TypeError_status)
  | Exn apiError =>
      (* OpenAI API errors *)
      if bool_decide (status apiError = Some 429) then
        Return (JsonResponse 429 "RATE_LIMIT_EXCEEDED"
                  "API rate limit exceeded. Please try again later.")
      else if bool_decide (status apiError = Some 401) then
        Return (JsonResponse 500 "INVALID_OPENAI_KEY"
                  "Invalid OpenAI API key configured on server")
      (* Connection/timeout errors *)
      else if includes (message err) "Connection error"
              || includes (message err) "timeout"
              || includes (message err) "ECONNREFUSED"
              || includes (message err) "ETIMEDOUT" then
        Return (JsonResponse 502 "CONNECTION_ERROR"
                  "Failed to connect to AI service. Please try again.")
      (* Validation errors *)
      else if includes (message err) "Invalid"
              || includes (message err) "required"
              || includes (message err) "exceeds" then
        Return (JsonResponse 400 "VALIDATION_ERROR" (message err))
      (* Default *)
      else
        Return (JsonResponse 500 "INTERNAL_SERVER_ERROR"
                  (if bool_decide (NODE_ENV env = Some "development")
                   then message err
                   else "An internal server error occurred"))
  end.

End ErrorsV1.

(** ** [src/lib/auth.ts]: the caller, first generation *)

Module AuthV1.

(** [User.findOne({ apiKey }).lean()]. *)
Definition User_findOne (apiKey : string) : IO World (option UserDoc) :=
  store_op ;;;
  w <- get ;;
  ret (List.find (fun u => String.eqb (u_apiKey u) apiKey) (users w)).

Definition validateApiKey (apiKey : string) : IO World (option AuthUser) :=
  connectDB ;;;
  found <- User_findOne apiKey ;;
  match found with
  | None => ret None
  | Some u => ret (Some (mkAuthUser (u_id u) (u_email u)))
  end.

Definition authenticate (req : Request) : IO World (Response + AuthUser) :=
  match authorization req with
  | None =>
      ret (inl (JsonResponse 401 "UNAUTHORIZED"
                  "Missing or invalid authorization header. Use: Authorization: Bearer <api-key>"))
  | Some authHeader =>
      if negb (startsWith authHeader "Bearer ") then
        ret (inl (JsonResponse 401 "UNAUTHORIZED"
                    "Missing or invalid authorization header. Use: Authorization: Bearer <api-key>"))
      else
        let apiKey := String.substring 7 (String.length authHeader - 7) authHeader in
        try_catch
          (found <- validateApiKey apiKey ;;
           match found with
           | None => ret (inl (JsonResponse 401 "INVALID_API_KEY" "Invalid API key"))
           | Some u => ret (inr u)
           end)
          (fun _ =>
             ret (inl (JsonResponse 500 "AUTHENTICATION_ERROR" "Authentication failed")))
  end.

End AuthV1.

(** ** The [voice/conversation] route, first generation
    (second file of [src/modules/stt.ts]) *)

Module RouteV1.

Definition ALLOWED_TYPES : list string :=
  [ "audio/wav"; "audio/mpeg"; "audio/mp3"; "audio/webm";
    "audio/ogg"; "audio/flac"; "audio/x-wav"; "audio/wave" ].

(** The two [let] variables that the [try] block assigns and the [catch]
    block reads. *)
Record Locals := mkLocals {
  audioFilePath : option string;
  preparedPath : option string
}.

Definition St : Type := (World * trace) * Locals.

Definition on_world {A} (c : IO World A) : IO St A := lift (lift c).

Definition assign_audioFilePath (p : string) : IO St unit :=
  modify (fun '(s, l) => (s, mkLocals (Some p) (preparedPath l))).

Definition assign_preparedPath (p : string) : IO St unit :=
  modify (fun '(s, l) => (s, mkLocals (audioFilePath l) (Some p))).

Definition locals : IO St Locals := fun '(s, l) => (Return l, (s, l)).

(** [path.join(a, b)] for segments without dots. *)
Definition path_join (a b : string) : string := a +:+ "/" +:+ b.

Definition cleanupFile (filePath : option string) : IO World unit :=
  match SessionV1.truthy filePath with
  | None => ret tt
  | Some p =>
      found <- existsSync p ;;
      if found
      then try_catch (unlink p) (fun _ => (* Ignore cleanup errors *) ret tt)
      else ret tt
  end.

Definition validation_error (message : string) : Response :=
  JsonResponse 400 "VALIDATION_ERROR" message.

(** The part of the [try] block that follows a successful parse of the
    form with an audio field of an accepted type and size. *)
Definition POST_upload (env : Env) (userId : string) (audioFile : File)
    (sessionId : option string) : IO St Response :=
  (* Save file to disk temporarily *)
  uuid <- on_world randomUUID ;;
  let uploadsDir := path_join (cwd env) "uploads" in
  let fileName := uuid +:+ "-" +:+ or_string (Some (file_name audioFile)) "audio" in
  let path := path_join uploadsDir fileName in
  assign_audioFilePath path ;;;
  on_world (writeFile path (file_content audioFile)) ;;;
  (* Validate audio *)
  validation <- on_world (AudioV1.validateAudio env path) ;;
  if negb (valid validation)
  then ret (validation_error (default "" (error validation)))
  else
    (* Get or create session *)
    activeSessionId <- on_world (SessionV1.getOrCreateSession userId sessionId) ;;
    (* Prepare audio for Whisper *)
    prepared <- on_world (AudioV1.prepareAudioForWhisper path) ;;
    assign_preparedPath prepared ;;;
    (* Process voice conversation *)
    result <- lift (VoiceV1.handleVoiceConversation activeSessionId prepared) ;;
    (* Cleanup temporary files *)
    on_world (cleanupFile (Some prepared)) ;;;
    (if negb (String.eqb prepared path)
     then on_world (cleanupFile (Some path)) else ret tt) ;;;
    (* Return audio response *)
    ret (AudioResponse 200 (audio result) activeSessionId
           (transcript result) (Some (response result))).

Definition POST (env : Env) (req : Request) : IO St Response :=
  try_catch
    ((* Authenticate *)
     authResult <- on_world (AuthV1.authenticate req) ;;
     match authResult with
     | inl denied => ret denied
     | inr caller =>
         (* Parse multipart form data *)
         form <- (fun s => (formData req, s)) ;;
         let sessionId := SessionV1.truthy (form_sessionId form) in
         match form_audio form with
         | None => ret (validation_error "Audio file is required")
         | Some audioFile =>
             (* Validate MIME type *)
             if negb (existsb (String.eqb (file_type audioFile)) ALLOWED_TYPES)
             then ret (validation_error
                         "Invalid audio format. Supported: WAV, MP3, WebM, OGG, FLAC")
             (* Validate file size (25MB) *)
             else if f_size (file_content audioFile) >? AudioV1.maxSize env
             then ret (validation_error
                         ("Audio file too large. Maximum: "
                          +:+ or_string (MAX_AUDIO_SIZE_MB env) "25" +:+ "MB"))
             else POST_upload env (auth_id caller) audioFile sessionId
         end
     end)
    (fun error =>
       (* Cleanup on error *)
       l <- locals ;;
       (match SessionV1.truthy (preparedPath l) with
        | Some p => on_world (cleanupFile (Some p))
        | None => ret tt
        end) ;;;
       (match SessionV1.truthy (audioFilePath l) with
        | Some p =>
            if negb (bool_decide (Some p = preparedPath l))
            then on_world (cleanupFile (Some p)) else ret tt
        | None => ret tt
        end) ;;;
       (fun s => (ErrorsV1.handleApiError env error, s))).

(** A request served from a world: the response and the world after it. *)
Definition serve (env : Env) (req : Request) (w : World) : outcome Response * World :=
  match POST env req ((w, []), mkLocals None None) with
  | (r, ((w', _), _)) => (r, w')
  end.

End RouteV1.

(** ** [v2/src/lib/conversation.ts]: sessions and messages, second generation *)

Module ConversationV2.

(** [new ObjectId(sessionId)] throws on a malformed string; where the code
    wraps it in [try ... catch], the [None] case is the [catch] branch. *)
Definition createSession (userId : string) : IO World string :=
  connectDB ;;;
  createdAt <- now ;;
  lastActivityAt <- now ;;
  store_op ;;;
  insertedId <- fresh_id ;;
  modify (set_sessions (insert insertedId (mkSession userId createdAt lastActivityAt))) ;;;
  ret insertedId.

Definition getSession (sessionId userId : string)
    : IO World (option (ObjectId * SessionDoc)) :=
  connectDB ;;;
  match parseObjectId sessionId with
  | None => ret None
  | Some oid =>
      store_op ;;;
      w <- get ;;
      match sessions w !! oid with
      | Some s =>
          if String.eqb (s_userId s) userId then ret (Some (oid, s)) else ret None
      | None => ret None
      end
  end.

Definition getOrCreateSession (userId : string) (sessionId : option string)
    : IO World string :=
  returned <-
    match SessionV1.truthy sessionId with
    | Some sid =>
        session <- getSession sid userId ;;
        match session with
        | Some (oid, _) =>
            connectDB ;;;
            t <- now ;;
            store_op ;;;
            modify (set_sessions
                      (alter (fun s => mkSession (s_userId s) (s_createdAt s) t) oid)) ;;;
            ret (Some sid)
        | None => ret None
        end
    | None => ret None
    end ;;
  match returned with
  | Some sid => ret sid
  | None => createSession userId
  end.

Definition getConversationHistory (sessionId : string) (limit : option Z)
    : IO World (list ChatMessage) :=
  let limit := default 20 limit in
  connectDB ;;;
  match parseObjectId sessionId with
  | None => ret []
  | Some oid =>
      store_op ;;;
      w <- get ;;
      let found := cursor_limit limit (sort_by_createdAt (find_messages oid w)) in
      ret (map to_ChatMessage found)
  end.

Definition ObjectId_error : JsError :=
  new_Error "input must be a 24 character hex string, 12 byte Uint8Array, or an integer".

Definition saveMessage (sessionId : string) (r : role) (content : string)
    : IO World unit :=
  connectDB ;;;
  match parseObjectId sessionId with
  | None => raise ObjectId_error
  | Some oid =>
      t <- now ;;
      store_op ;;;
      modify (set_messages (fun l => l ++ [mkMessage oid r content t]))
  end.

End ConversationV2.

(** ** Provider clients, second generation *)

Module SttV2.

(** The provider's answer as [axios] with [validateStatus: () => true] sees
    it: a response with an HTTP status resolves, whatever the status; a
    failure without a response rejects. *)
Definition transcribeAudio (audioFilePath : string) : IO World string :=
  try_catch
    (whisper_create audioFilePath)
    (fun error =>
       match error with
       | Exn e =>
           match response_status e with
           | Some code =>
               (* response.status !== 200 *)
               raise (new_Error
                        (or_string (Some (message e))
                           ("Whisper API error: " +:+ show_Z code)))
           | None => throw error
           end
       | Undefined => throw error
       end).

End SttV2.

Module LlmV2.

Definition system_prompt : ChatMessage :=
  mkChat system
    "You are a helpful voice assistant. Keep responses concise and natural for voice conversation.".

Definition generateResponse (userText : string)
    (conversationHistory : list ChatMessage) : IO World string :=
  let messages :=
    [system_prompt]
      ++ map (fun m => mkChat (chat_role m) (chat_content m))
           (slice_last 10 conversationHistory)
      ++ [mkChat user userText] in
  content <- sdk_request 2 (chat_create messages) ;;
  (* response.choices[0]?.message?.content ?? '' *)
  ret (default "" content).

End LlmV2.

Module TtsV2.

Definition synthesizeSpeech (text : string) : IO World Buffer :=
  if Z.of_nat (String.length text) >? 4096
  then raise (new_Error "Text exceeds 4096 character limit")
  else sdk_request 2 (speech_create text).

End TtsV2.

(** ** The [voice/conversation] route, second generation
    (second file of [v2/src/app/api/v1/auth/login/route.ts]) *)

Module RouteV2.

(** [prepareAudioForWhisper] of [v2/src/lib/audio.ts]: a failing [ffmpeg]
    is not caught here. *)
Definition prepareAudioForWhisper (inputPath : string) : IO World string :=
  let outputPath := inputPath +:+ ".wav" in
  ffmpeg inputPath outputPath ;;;
  found <- existsSync inputPath ;;
  (if negb (String.eqb inputPath outputPath) && found
   then unlink inputPath else ret tt) ;;;
  ret outputPath.

(** [\w], [.] and [-]. *)
Definition is_safe (c : ascii) : bool :=
  let n := Ascii.N_of_ascii c in
  ((48 <=? n) && (n <=? 57) || (65 <=? n) && (n <=? 90) || (97 <=? n) && (n <=? 122)
   || (n =? 95) || (n =? 46) || (n =? 45))%N.

(** [(name ?? 'audio').replace(/[^\w.-]/g, '_').slice(0, 50) || 'audio']. *)
Definition safeName (name : string) : string :=
  or_string
    (Some (String.substring 0 50
             (string_map (fun c => if is_safe c then c else "_"%char) name)))
    "audio".

(** [await unlink(path).catch(() => {})]. *)
Definition unlink_quietly (path : string) : IO World unit :=
  try_catch (unlink path) (fun _ => ret tt).

Definition validation_error (message : string) : Response :=
  JsonResponse 400 "VALIDATION_ERROR" message.

(** [new NextResponse(audio, { headers })] builds a [Headers] object, which
    takes a value once tabs, spaces and line breaks are cut off its two
    ends, and throws a [TypeError] when a NUL or a line break is left in
    it.  (A code unit above 255 is refused too; strings here have none.) *)
Definition is_http_space (c : ascii) : bool :=
  let n := Ascii.N_of_ascii c in
  ((n =? 9) || (n =? 10) || (n =? 13) || (n =? 32))%N.

Fixpoint skip_http_space (s : string) : string :=
  match s with
  | String c rest => if is_http_space c then skip_http_space rest else s
  | EmptyString => s
  end.

Fixpoint drop_http_space_at_end (s : string) : string :=
  match s with
  | EmptyString => EmptyString
  | String c rest =>
      match drop_http_space_at_end rest with
      | EmptyString => if is_http_space c then EmptyString else String c EmptyString
      | kept => String c kept
      end
  end.

Definition headerValueNormalize (value : string) : string :=
  drop_http_space_at_end (skip_http_space value).

Definition isValidHeaderValue (value : string) : bool :=
  string_forall
    (fun c => let n := Ascii.N_of_ascii c in
              negb ((n =? 0) || (n =? 10) || (n =? 13))%N)
    value.

Definition invalid_header_value (value : string) : JsError :=
  new_Error ("Headers.append: " +:+ dquote +:+ value +:+ dquote
             +:+ " is an invalid header value.").

(** The response that carries the audio, or the [TypeError]. *)
Definition audio_response {S} (audio : Buffer) (activeSessionId transcript : string)
    : IO S Response :=
  if isValidHeaderValue (headerValueNormalize activeSessionId)
  then
    if isValidHeaderValue (headerValueNormalize transcript)
    then ret (AudioResponse 200 audio activeSessionId transcript None)
    else raise (invalid_header_value (headerValueNormalize transcript))
  else raise (invalid_header_value (headerValueNormalize activeSessionId)).

(** The [try] block of [handleConversation]. *)
Definition attempt (userId tmpPath : string) (audioFile : File)
    (sessionId : option string) : IO (World * trace) Response :=
  lift (writeFile tmpPath (file_content audioFile)) ;;;
  validation <- lift (AudioV2.validateAudio tmpPath) ;;
  if negb (valid validation) then
    lift (unlink_quietly tmpPath) ;;;
    ret (validation_error (default "" (error validation)))
  else
    activeSessionId <- lift (ConversationV2.getOrCreateSession userId sessionId) ;;
    prepared <-
      try_catch
        (p <- lift (prepareAudioForWhisper tmpPath) ;; ret (inr p))
        (fun e =>
           lift (unlink_quietly tmpPath) ;;;
           ret (inl (validation_error
                       (match e with
                        | Exn err =>
                            if is_Error err then message err
                            else "Audio conversion failed"
                        | Undefined => "Audio conversion failed"
                        end)))) ;;
    match prepared with
    | inl refused => ret refused
    | inr preparedPath =>
        transcript <-
          try_finally
            (RetryV2.retryWithBackoff (SttV2.transcribeAudio preparedPath) (Some 2))
            (lift (unlink_quietly preparedPath)) ;;
        if blank transcript
        then ret (validation_error "No speech detected in audio")
        else
          history <- lift (ConversationV2.getConversationHistory activeSessionId (Some 20)) ;;
          responseText <-
            RetryV2.retryWithBackoff (LlmV2.generateResponse transcript history) (Some 2) ;;
          audio <-
            RetryV2.retryWithBackoff (TtsV2.synthesizeSpeech responseText) (Some 2) ;;
          lift (ConversationV2.saveMessage activeSessionId user transcript) ;;;
          lift (ConversationV2.saveMessage activeSessionId assistant responseText) ;;;
          audio_response audio activeSessionId transcript
    end.

(** The [catch] clause of [handleConversation]. *)
Definition failure (error : thrown) : Response :=
  let message :=
    match error with
    | Exn e => if is_Error e then message e else "Voice conversation failed"
    | Undefined => "Voice conversation failed"
    end in
  let rate_limited :=
    includes message "rate"
    || match error with
       | Exn e => bool_decide (status e = Some 429)
       | Undefined => false
       end in
  if rate_limited
  then JsonResponse 429 "RATE_LIMIT_EXCEEDED" message
  else JsonResponse 500 "INTERNAL_SERVER_ERROR" message.

Definition tmpPath_of (env : Env) (audioFile : File) (w : World) : string :=
  RouteV1.path_join (tmpdir env)
    ("voice-" +:+ show_Z (clock w) +:+ "-" +:+ safeName (file_name audioFile)).

(** What follows [await req.formData()]. *)
Definition handle_form (env : Env) (form : FormData) (userId : string)
    : IO (World * trace) Response :=
  let sessionId := SessionV1.truthy (form_sessionId form) in
  match form_audio form with
  | None => ret (validation_error "Audio file is required")
  | Some audioFile =>
      if f_size (file_content audioFile) =? 0
      then ret (validation_error "Audio file is required")
      else
        w <- get ;;
        let tmpPath := tmpPath_of env audioFile (fst w) in
        try_finally
          (try_catch
             (attempt userId tmpPath audioFile sessionId)
             (fun error => ret (failure error)))
          (lift (unlink_quietly tmpPath))
  end.

(** [handleConversation(req, user)]: the form is read before the [try]
    block is entered, so that a body that cannot be read is thrown to the
    caller. *)
Definition handleConversation (env : Env) (req : Request) (userId : string)
    : IO (World * trace) Response :=
  form <- (fun s => (formData req, s)) ;;
  handle_form env form userId.

End RouteV2.

(** ** Vocabulary of the properties *)

(** *** The retry wrapper *)

(** The trace of [k] invocations in a row, starting with attempt number
    [attempt], with the pause [pause a] after each failed attempt [a] but
    the last. *)
Fixpoint schedule (pause : Z -> Z) (attempt : Z) (k : nat) : trace :=
  match k with
  | O => []
  | S k' =>
      EvInvoke ::
      match k' with
      | O => []
      | S _ => EvSleep (pause attempt) :: schedule pause (attempt + 1) k'
      end
  end.

(** The world after [k] invocations of an operation. *)
Fixpoint world_after {W T} (operation : IO W T) (k : nat) (w : W) : W :=
  match k with
  | O => w
  | S k' => world_after operation k' (snd (operation w))
  end.

(** A status of the client class, 4xx. *)
Definition client_class (s : option Z) : Prop :=
  exists n, s = Some n /\ 400 <= n < 500.

(** A retryable failure: an [Error] that carries no status (network error,
    timeout) or one of the server class. *)
Definition retryable (g : generation) (e : JsError) : Prop :=
  is_Error e = true /\
  match carried_status g e with
  | None => True
  | Some n => 500 <= n
  end.

Definition always_throws {W T} (P : JsError -> Prop) (operation : IO W T) : Prop :=
  forall w, exists e w', operation w = (Throw (Exn e), w') /\ P e.

(** Two to the power of the attempt number, in seconds, as milliseconds. *)
Definition exponential_pause (attempt : Z) : Z := 2 ^ attempt * 1000.

(** "A default maximum retry count of 2, and before every retry a pause of
    [2^attempt] seconds", said of one generation of the wrapper. *)
Definition exponential_backoff (g : generation) : Prop :=
  (forall W T (operation : IO W T) (st : W * trace),
      retryWithBackoff_of g operation None st
      = retryWithBackoff_of g operation (Some 2) st) /\
  (forall W T (operation : IO W T) (n : nat) (w : W) (tr : trace),
      exists k, (1 <= k <= n + 1)%nat /\
        snd (snd (retryWithBackoff_of g operation (Some (Z.of_nat n)) (w, tr)))
        = tr ++ schedule exponential_pause 0 k).

(** *** The validator, the context loader, the turn *)

(** A file reaches the probe, and the probe fails on it. *)
Definition probe_fails_on (maxSize : Z) (w : World) (filePath : string) : Prop :=
  exists f e,
    files w !! filePath = Some f /\ f_stat_error f = None /\
    f_size f <= maxSize /\ f_probe f = ProbeFails e.

(** "A failing probe makes the file invalid, with a reason, and nothing is
    raised", said of one validator. *)
Definition probe_failure_rejected (maxSize : Z)
    (validate : string -> IO World AudioValidationResult) : Prop :=
  forall w filePath,
    probe_fails_on maxSize w filePath ->
    exists reason, validate filePath w = (Return (invalid reason), w).

(** The [limit] most recent messages of a session, oldest first: what the
    context of a reply is meant to be. *)
Definition most_recent (limit : nat) (sid : ObjectId) (w : World) : list ChatMessage :=
  map to_ChatMessage (slice_last limit (sort_by_createdAt (find_messages sid w))).

(** Messages in ascending creation time. *)
Definition ascending (l : list MessageDoc) : Prop :=
  Sorted (fun a b => m_createdAt a <= m_createdAt b) l.

(** "The two messages of a turn are persisted together or not at all", said
    of one invocation. *)
Definition turn_atomic (sessionId audioFilePath : string) (w : World) : Prop :=
  match VoiceV1.handleVoiceConversation sessionId audioFilePath (w, []) with
  | (Return r, (w', _)) =>
      exists sid t1 t2,
        messages w' = messages w ++ [ mkMessage sid user (transcript r) t1;
                                      mkMessage sid assistant (response r) t2 ]
  | (Throw _, (w', _)) => messages w' = messages w
  end.

(** *** Assertions on computations *)

(** A computation that leaves an observation [f] of the state as it was,
    however it ends. *)
Definition keeps {S A X} (f : S -> X) (c : IO S A) : Prop :=
  forall s, f (snd (c s)) = f s.

(** A triple with two postconditions, one for each way a computation ends. *)
Definition hoare {S A} (P : S -> Prop) (c : IO S A)
    (Q : A -> S -> Prop) (E : thrown -> S -> Prop) : Prop :=
  forall s, P s ->
    match c s with
    | (Return a, s') => Q a s'
    | (Throw v, s') => E v s'
    end.

(** A file that [unlink] removes. *)
Definition removable (f : FileMeta) : Prop := f_unlink_error f = None.

(** A file that [ffmpeg] converts, or fails on without leaving an output. *)
Definition leaves_nothing (f : FileMeta) : Prop :=
  match f_ffmpeg f with
  | Failed (Some _) => False
  | _ => True
  end.

(** Every file on disk was there before the request (as in [before]), or
    sits at one of the temporary paths and can be removed. *)
Definition only_temporaries (before : gmap string FileMeta) (temporary : list string)
    (now : gmap string FileMeta) : Prop :=
  forall p f, now !! p = Some f ->
    before !! p = Some f \/ (In p temporary /\ removable f).

(** The state after a successful write: the upload sits at [tmp], can be
    removed, and its conversion leaves no incomplete output; nothing else is
    new. *)
Definition written (before : gmap string FileMeta) (tmp : string) (w : World) : Prop :=
  only_temporaries before [tmp] (files w) /\
  forall f, files w !! tmp = Some f -> removable f /\ leaves_nothing f.

(** ** Test doubles and sample worlds *)

(** An operation that counts its invocations and always throws [e]. *)
Definition failing (e : JsError) : IO nat unit :=
  fun count => (Throw (Exn e), S count).

Definition http_error (code : Z) : JsError :=
  mkError true "Request failed" "Error: Request failed" (Some code) (Some code).

(** An error as the OpenAI client throws it: an [APIError] with the status
    of the answer in [status], and no [response] property. *)
Definition sdk_error (code : Z) : JsError :=
  mkError true "Request failed" "Error: Request failed" (Some code) None.

Definition timeout_error : JsError := new_Error "Request timed out.".

Definition env0 : Env := mkEnv None None None "/srv/app" "/tmp".

Definition empty_world : World :=
  mkWorld ∅ None ∅ [] [] None [] [] [] 0 [] [] [] [].

Definition probe_error : JsError := new_Error "Command failed: ffprobe".

(** A small file that [ffprobe] cannot read. *)
Definition corrupt_clip : FileMeta :=
  mkFile 1000 None (ProbeFails probe_error) (Failed None) None.

(** A readable clip of three seconds. *)
Definition clip : FileMeta := mkFile 1000 None (ProbeStdout (Num 3)) Converted None.

(** A readable clip that [ffmpeg] gives up on half way, leaving an output
    that nothing can read. *)
Definition torn_clip : FileMeta :=
  mkFile 1000 None (ProbeStdout (Num 3)) (Failed (Some corrupt_clip)) None.

(** A readable clip of 400 seconds, over the limit of 300. *)
Definition long_clip : FileMeta :=
  mkFile 1000 None (ProbeStdout (Num 400)) Converted None.

Definition world_with_corrupt_clip : World :=
  set_files (insert "/tmp/clip" corrupt_clip) empty_world.

Definition alice_id : string := "507f1f77bcf86cd799439011".

Definition alice : UserDoc := mkUser alice_id "alice@example.com" "key-1".

Definition session_id : string := "64b7f0c2a1d3e4f5a6b7c8d9".

Definition fresh_session_id : string := "64b7f0c2a1d3e4f5a6b7c8da".

(** A session of three messages, written one per tick of the clock. *)
Definition world_with_three_messages : World :=
  set_messages
    (fun _ => [ mkMessage session_id user "first" 1;
                mkMessage session_id assistant "second" 2;
                mkMessage session_id user "third" 3 ])
    (set_sessions (insert session_id (mkSession alice_id 0 3)) empty_world).

(** A store with one session of another day, and one id to hand out. *)
Definition world_with_session : World :=
  set_fresh_ids [fresh_session_id]
    (set_sessions (insert session_id (mkSession alice_id 0 3)) empty_world).

Fixpoint copies (n : nat) (c : ascii) : string :=
  match n with
  | O => EmptyString
  | S n' => String c (copies n' c)
  end.

(** A reply of 4097 characters. *)
Definition long_reply : string := copies (Z.to_nat 4097) "a".

Definition storage_error : JsError := new_Error "MongoNetworkError: connection closed".

(** A prepared clip on disk, providers that answer once each, and a store
    whose third operation fails. *)
Definition world_where_second_save_fails : World :=
  set_db_faults [None; None; Some storage_error]
    (set_whisper [Return "hello"]
       (set_chat [Return (Some "hi there")]
          (set_speech [Return "mp3-bytes"]
             (set_files (insert "/tmp/a.wav" clip) world_with_session)))).

(** The same, with a store that answers and a generator whose reply is too
    long to be spoken. *)
Definition world_with_long_reply : World :=
  set_whisper [Return "hello"]
    (set_chat [Return (Some long_reply)]
       (set_speech [Return "mp3-bytes"]
          (set_files (insert "/tmp/a.wav" clip) world_with_session))).

(** A request of [alice] with one audio field. *)
Definition upload (content : FileMeta) : Request :=
  mkRequest (Some "Bearer key-1")
    (Return (mkForm (Some (mkUpload "clip.wav" "audio/wav" content)) None)).

(** An empty disk, one registered caller, providers that answer once each. *)
Definition world_before_upload : World :=
  mkWorld ∅ None ∅ [] [alice] None [] [fresh_session_id] ["u1"] 0
    [Return "hello"] [Return (Some "hi there")] [Return "mp3-bytes"] [].

Definition uploaded_path : string := "/srv/app/uploads/u1-clip.wav".

(** *** More vocabulary and test doubles *)

(** The first [k] runs of an operation from [w] throw retryable errors, and
    the next one returns [v], leaving the world [w']. *)
Definition fails_then_returns {W T} (g : generation) (operation : IO W T)
    (k : nat) (w : W) (v : T) (w' : W) : Prop :=
  (forall i, (i < k)%nat ->
     exists e, fst (operation (world_after operation i w)) = Throw (Exn e) /\
               retryable g e) /\
  operation (world_after operation k w) = (Return v, w').

(** An operation that counts its invocations, times out on the first [k] of
    them and answers from then on. *)
Definition flaky (k : nat) : IO nat string :=
  fun count =>
    if (count <? k)%nat
    then (Throw (Exn timeout_error), S count)
    else (Return "ok", S count).

(** A clip on disk and a transcription provider that hears nothing. *)
Definition world_with_silence : World :=
  set_whisper [Return "   "]
    (set_files (insert "/tmp/a.wav" clip) world_with_session).

(** A clip on disk and a transcription provider that refuses the key. *)
Definition world_with_bad_key : World :=
  set_whisper [Throw (Exn (http_error 401))]
    (set_files (insert "/tmp/a.wav" clip) world_with_session).

(** *** The first generation's route and its two local variables *)

(** What the [catch] clause of the first generation's route can clean up:
    every file that was not on disk before the request sits at the path
    that the clause will unlink, given what the two variables hold. *)
Definition pending (before : gmap string FileMeta) (s : RouteV1.St) : Prop :=
  match RouteV1.audioFilePath (snd s), RouteV1.preparedPath (snd s) with
  | None, None => only_temporaries before [] (files (fst (fst s)))
  | Some p, None => p <> "" /\ only_temporaries before [p] (files (fst (fst s)))
  | Some p, Some out =>
      p <> "" /\ out <> "" /\ only_temporaries before [out] (files (fst (fst s)))
  | None, Some _ => False
  end.

(** The upload is on disk under [path], and nothing else is new. *)
Definition uploaded (before : gmap string FileMeta) (path : string)
    (content : FileMeta) (s : RouteV1.St) : Prop :=
  files (fst (fst s)) = <[path := content]> before /\
  snd s = RouteV1.mkLocals (Some path) None.

(** The request was answered with a rejection while the upload was still on
    disk. *)
Definition left_behind (before : gmap string FileMeta) (content : FileMeta)
    (r : Response) (now : gmap string FileMeta) : Prop :=
  exists path message,
    r = RouteV1.validation_error message /\ now = <[path := content]> before.

(** *** What a turn adds to the message store *)

(** The user message of a turn, without its reply. *)
Definition user_alone (before now : list MessageDoc) : Prop :=
  exists sid transcript t,
    now = before ++ [mkMessage sid user transcript t].

(** The two messages of a turn, the user's transcript first. *)
Definition whole_turn (before now : list MessageDoc) (transcript : string) : Prop :=
  exists sid reply t1 t2,
    now = before ++ [ mkMessage sid user transcript t1;
                      mkMessage sid assistant reply t2 ].

(** A transcript of two lines. *)
Definition two_lines : string :=
  "hello" +:+ String (Ascii.ascii_of_nat 10) "there".

(** The session that the store holds under an id for an owner, if any. *)
Definition owned_session (w : World) (sessionId owner : string)
    : option (ObjectId * SessionDoc) :=
  match parseObjectId sessionId with
  | None => None
  | Some oid =>
      match sessions w !! oid with
      | Some s => if String.eqb (s_userId s) owner then Some (oid, s) else None
      | None => None
      end
  end.

(** The failure with which the store answers its next operation, if it
    fails. *)
Definition next_fault (w : World) : option JsError :=
  match db_faults w with
  | Some e :: _ => Some e
  | _ => None
  end.

(** A header value that [Headers] refuses. *)
Definition refused_header (value : string) : Prop :=
  RouteV2.isValidHeaderValue (RouteV2.headerValueNormalize value) = false.

(** Both messages of a turn are stored, and its transcript cannot be sent
    as a header. *)
Definition unannounced_turn (before now : list MessageDoc) : Prop :=
  exists transcript, whole_turn before now transcript /\ refused_header transcript.

(** The session of three messages, at the tick of the last one. *)
Definition world_at_tick_three : World :=
  mkWorld ∅ None {[ session_id := mkSession alice_id 0 3 ]}
    [ mkMessage session_id user "first" 1;
      mkMessage session_id assistant "second" 2;
      mkMessage session_id user "third" 3 ]
    [] None [] [] [] 3 [] [] [] [].

(** *** How a failure is reported *)

(** A response of [handleApiError] that says nothing of rate limits or of the
    provider key. *)
Definition unclassified (r : outcome Response) : Prop :=
  exists http_status code message,
    r = Return (JsonResponse http_status code message) /\
    (code = "CONNECTION_ERROR" /\ http_status = 502 \/
     code = "VALIDATION_ERROR" /\ http_status = 400 \/
     code = "INTERNAL_SERVER_ERROR" /\ http_status = 500).

(** A clip on disk and a transcription provider that answers 401 each time
    it is asked. *)
Definition world_with_refusing_whisper : World :=
  set_whisper [Throw (Exn (http_error 401)); Throw (Exn (http_error 401));
               Throw (Exn (http_error 401))]
    (set_files (insert "/tmp/a.wav" clip) world_with_session).

(** ** [v2/src/lib/auth.ts]: keys and users, second generation *)

Definition set_users (f : list UserDoc -> list UserDoc) (w : World) : World :=
  mkWorld (files w) (write_error w) (sessions w) (messages w) (f (users w))
    (db_down w) (db_faults w) (fresh_ids w) (uuids w) (clock w)
    (whisper w) (chat w) (speech w) (calls w).

(** [err instanceof Error ? err.message : otherwise]. *)
Definition message_or (otherwise : string) (err : thrown) : string :=
  match err with
  | Exn e => if is_Error e then message e else otherwise
  | Undefined => otherwise
  end.

Module AuthV2.

(** What the unique index on [email] answers to a second insert. *)
Definition E11000 (email : string) : JsError :=
  new_Error ("E11000 duplicate key error collection: users index: email_1 dup key: { email: "
             +:+ dquote +:+ email +:+ dquote +:+ " }").

Section Hashing.

(** [crypto.createHash('sha256').update(s).digest('hex')]. *)
Context (sha256_hex : string -> string).

Definition hashApiKey (apiKey : string) : string := sha256_hex apiKey.

(** ['sk_' + crypto.randomBytes(32).toString('hex')], given the random bytes
    in hexadecimal. *)
Definition generateApiKey (random_hex : string) : string := "sk_" +:+ random_hex.

(** [users.findOne({ apiKeyHash: hashedKey })]; a user document of the
    second generation holds the hash of the key, in [u_apiKey]. *)
Definition validateApiKey (apiKey : string) : IO World (option AuthUser) :=
  let hashedKey := hashApiKey apiKey in
  connectDB ;;;
  store_op ;;;
  w <- get ;;
  match List.find (fun u => String.eqb (u_apiKey u) hashedKey) (users w) with
  | None => ret None
  | Some caller => ret (Some (mkAuthUser (u_id caller) (u_email caller)))
  end.

(** [users.insertOne({ email, apiKeyHash, ... })], with the unique index on
    [email] that [ensureIndexes] creates. *)
Definition createUser (random_hex email : string) : IO World (string * string) :=
  let apiKey := generateApiKey random_hex in
  let hashedKey := hashApiKey apiKey in
  connectDB ;;;
  store_op ;;;
  w <- get ;;
  (if existsb (fun u => String.eqb (u_email u) email) (users w)
   then raise (E11000 email) else ret tt) ;;;
  insertedId <- fresh_id ;;
  modify (set_users (fun l => l ++ [mkUser insertedId email hashedKey])) ;;;
  ret (insertedId, apiKey).

End Hashing.

End AuthV2.

(** ** The routes of the second generation *)

(** What a route answers: an error body or the audio, or one of the JSON
    bodies of the other routes. *)
Inductive Reply :=
| Plain (r : Response)
| Registered (userId apiKey : string)
| LoggedIn (token userId email : string)
| SessionCreated (sessionId : string) (createdAt : Z)
| SessionFound (id userId : string) (createdAt lastActivityAt : Z)
| Messages (messages : list ChatMessage).

Module RoutesV2.

(** [/connection|ECONNREFUSED|ENOTFOUND|MongoServerSelectionError|MongoNetworkError/i.test(msg)]
    with [msg = err instanceof Error ? err.message : String(err)]. *)
Definition isConnectionError (err : thrown) : bool :=
  let msg := message_or (String_of err) err in
  existsb (fun word => includes (string_map lower msg) (string_map lower word))
    [ "connection"; "ECONNREFUSED"; "ENOTFOUND";
      "MongoServerSelectionError"; "MongoNetworkError" ].

Definition service_unavailable : Reply :=
  Plain (JsonResponse 503 "SERVICE_UNAVAILABLE"
           "Database connection failed. Check that MongoDB is running and MONGODB_URI is set in .env.local.").

Definition unauthorized : Reply :=
  Plain (JsonResponse 401 "UNAUTHORIZED" "Missing or invalid authorization header").

Definition invalid_api_key : Reply :=
  Plain (JsonResponse 401 "INVALID_API_KEY" "Invalid API key").

Definition session_not_found : Reply :=
  Plain (JsonResponse 404 "SESSION_NOT_FOUND" "Session not found").

(** [parseInt(s, 10)]; [None] is [NaN]. *)
Definition parseInt10 (s : string) : option Z :=
  let s := skip_white s in
  let '(sign, s) :=
    match s with
    | String "-"%char rest => (-1, rest)
    | String "+"%char rest => (1, rest)
    | _ => (1, s)
    end in
  (fun n => sign * n) <$> read_digits 10 None s.

(** [Math.min(parseInt(limitParam ?? '20', 10) || 20, 100)]. *)
Definition limit_of (limitParam : option string) : Z :=
  Z.min (or_number (parseInt10 (default "20" limitParam)) 20) 100.

Section Hashing.

Context (sha256_hex : string -> string).

(** [withAuth] of [auth-middleware.ts]. *)
Definition withAuth (req : Request) (handler : AuthUser -> IO (World * trace) Reply)
    : IO (World * trace) Reply :=
  match authorization req with
  | None => ret unauthorized
  | Some authHeader =>
      if negb (startsWith authHeader "Bearer ") then ret unauthorized
      else
        let apiKey := String.substring 7 (String.length authHeader - 7) authHeader in
        try_catch
          (found <- lift (AuthV2.validateApiKey sha256_hex apiKey) ;;
           match found with
           | None => ret invalid_api_key
           | Some caller => handler caller
           end)
          (fun err =>
             if isConnectionError err then ret service_unavailable
             else ret (Plain (JsonResponse 500 "INTERNAL_SERVER_ERROR"
                                (message_or "Authentication failed" err))))
  end.

(** [POST /api/v1/voice/conversation]. *)
Definition POST_conversation (env : Env) (req : Request) : IO (World * trace) Reply :=
  withAuth req
    (fun caller =>
       r <- RouteV2.handleConversation env req (auth_id caller) ;;
       ret (Plain r)).

(** [POST /api/v1/sessions]. *)
Definition POST_sessions (req : Request) : IO (World * trace) Reply :=
  withAuth req
    (fun caller =>
       try_catch
         (sessionId <- lift (ConversationV2.createSession (auth_id caller)) ;;
          t <- lift now ;;
          ret (SessionCreated sessionId t))
         (fun err =>
            if isConnectionError err then ret service_unavailable
            else ret (Plain (JsonResponse 500 "INTERNAL_SERVER_ERROR"
                               (message_or "Failed to create session" err))))).

(** [GET /api/v1/sessions/:sessionId]. *)
Definition GET_session (req : Request) (sessionId : string) : IO (World * trace) Reply :=
  withAuth req
    (fun caller =>
       session <- lift (ConversationV2.getSession sessionId (auth_id caller)) ;;
       match session with
       | None => ret session_not_found
       | Some (oid, s) =>
           ret (SessionFound oid (s_userId s) (s_createdAt s) (s_lastActivityAt s))
       end).

(** [GET /api/v1/sessions/:sessionId/messages?limit=...]. *)
Definition GET_messages (req : Request) (sessionId : string)
    (limitParam : option string) : IO (World * trace) Reply :=
  withAuth req
    (fun caller =>
       session <- lift (ConversationV2.getSession sessionId (auth_id caller)) ;;
       match session with
       | None => ret session_not_found
       | Some _ =>
           let limit := limit_of limitParam in
           found <- lift (ConversationV2.getConversationHistory sessionId (Some limit)) ;;
           ret (Messages (map (fun m => mkChat (chat_role m) (chat_content m)) found))
       end).

(** [POST /api/v1/auth/login]; [body] is what [await req.json()] gives and
    [apiKey] its field of that name when it is a string. *)
Definition POST_login (body : outcome (option string)) : IO World Reply :=
  try_catch
    (apiKey <- (fun s => (body, s)) ;;
     match SessionV1.truthy apiKey with
     | None => ret (Plain (JsonResponse 400 "VALIDATION_ERROR" "API key is required"))
     | Some apiKey =>
         found <- AuthV2.validateApiKey sha256_hex apiKey ;;
         match found with
         | None => ret invalid_api_key
         | Some caller => ret (LoggedIn apiKey (auth_id caller) (auth_email caller))
         end
     end)
    (fun _ =>
       ret (Plain (JsonResponse 500 "INTERNAL_SERVER_ERROR" "Authentication failed"))).

(** [POST /api/v1/users/register]; [random_hex] is what [crypto.randomBytes]
    gives this request. *)
Definition POST_register (random_hex : string) (body : outcome (option string))
    : IO World Reply :=
  try_catch
    (email <- (fun s => (body, s)) ;;
     match SessionV1.truthy email with
     | None => ret (Plain (JsonResponse 400 "VALIDATION_ERROR" "Email is required"))
     | Some email =>
         created <- AuthV2.createUser sha256_hex random_hex email ;;
         ret (Registered (fst created) (snd created))
     end)
    (fun error =>
       let message := message_or "Registration failed" error in
       if includes message "duplicate" || includes message "E11000"
       then ret (Plain (JsonResponse 400 "VALIDATION_ERROR" "Email already registered"))
       else ret (Plain (JsonResponse 500 "INTERNAL_SERVER_ERROR" message))).

End Hashing.

End RoutesV2.

(** A hash function for the examples: it only has to be a function. *)
Definition toy_hash (s : string) : string := "#" +:+ s.

(** A store of the second generation with one user, registered with the key
    [sk_01], and one session of that user. *)
Definition world_with_hashed_user : World :=
  mkWorld ∅ None {[ session_id := mkSession alice_id 0 3 ]}
    [ mkMessage session_id user "first" 1;
      mkMessage session_id assistant "second" 2;
      mkMessage session_id user "third" 3 ]
    [mkUser alice_id "alice@example.com" (toy_hash "sk_01")]
    None [] [fresh_session_id] [] 3 [] [] [] [].

(** A request that carries a key and nothing else. *)
Definition request_with_key (apiKey : string) : Request :=
  mkRequest (Some ("Bearer " +:+ apiKey)) (Throw Undefined).

(** *** What the middleware lets through *)

(** The answers of [withAuth] itself. *)
Definition turned_away (r : Reply) : Prop :=
  exists http_status code message,
    r = Plain (JsonResponse http_status code message) /\
    (http_status = 401 \/ http_status = 500 \/ http_status = 503).

(** What [withAuth] answers when the look-up of the key, or the handler,
    throws [err]. *)
Definition refusal (err : thrown) : Reply :=
  if RoutesV2.isConnectionError err then RoutesV2.service_unavailable
  else Plain (JsonResponse 500 "INTERNAL_SERVER_ERROR"
                (message_or "Authentication failed" err)).

(** [apiKey] is the key of the stored user [u], who is [caller]. *)
Definition key_of (sha256_hex : string -> string) (w : World) (apiKey : string)
    (caller : AuthUser) : Prop :=
  exists u,
    In u (users w) /\ u_apiKey u = sha256_hex apiKey /\
    caller = mkAuthUser (u_id u) (u_email u).

(** * Properties *)

(** ** Reading and printing numbers, searching strings *)

Example parseInt_decimal : parseInt "25" = Some 25.
Proof. reflexivity. Qed.

Example parseInt_not_a_number : parseInt "abc" = None.
Proof. reflexivity. Qed.

Example parseInt_prefix : parseInt "  -12px" = Some (-12).
Proof. reflexivity. Qed.

Example parseInt_hexadecimal : parseInt "0x1f" = Some 31.
Proof. reflexivity. Qed.

Example show_megabytes_thirty : show_megabytes 31457280 = "30.00".
Proof. reflexivity. Qed.

Example show_megabytes_half : show_megabytes 1572864 = "1.50".
Proof. reflexivity. Qed.

Example includes_inside : includes "Text exceeds 4096" "exceeds" = true.
Proof. reflexivity. Qed.

Example includes_absent : includes "Text" "exceeds" = false.
Proof. reflexivity. Qed.

Example default_limits :
  AudioV1.maxSize env0 = 26214400 /\ AudioV1.maxDuration env0 = Some 300.
Proof. split; reflexivity. Qed.

Example parseObjectId_accepts : parseObjectId "64B7F0C2A1D3E4F5A6B7C8D9" = Some session_id.
Proof. reflexivity. Qed.

Example parseObjectId_rejects : parseObjectId "stale-session" = None.
Proof. reflexivity. Qed.

(** ** The retry wrapper *)

Lemma invocations_app (tr1 tr2 : trace) :
  invocations (tr1 ++ tr2) = (invocations tr1 + invocations tr2)%nat.
Proof.
  unfold invocations. rewrite List.filter_app, length_app. reflexivity.
Qed.

Lemma invocations_schedule (pause : Z -> Z) (k : nat) :
  forall attempt, invocations (schedule pause attempt k) = k.
Proof.
  induction k as [|k IH]; intros attempt; [reflexivity|].
  destruct k as [|k]; [reflexivity|].
  change (schedule pause attempt (S (S k)))
    with (EvInvoke :: EvSleep (pause attempt) :: schedule pause (attempt + 1) (S k)).
  change (invocations (EvInvoke :: EvSleep (pause attempt) :: schedule pause (attempt + 1) (S k)))
    with (S (invocations (schedule pause (attempt + 1) (S k)))).
  rewrite IH. reflexivity.
Qed.

Lemma schedule_step (pause : Z -> Z) (attempt : Z) (k : nat) (tr : trace) :
  (tr ++ [EvInvoke] ++ [EvSleep (pause attempt)]) ++ schedule pause (attempt + 1) (S k)
  = tr ++ schedule pause attempt (S (S k)).
Proof.
  rewrite <- !app_assoc. reflexivity.
Qed.

Section RetryLoops.

Context {W T : Type} (operation : IO W T).

Lemma loop1_S maxRetries trips attempt lastError :
  RetryV1.loop operation maxRetries (S trips) attempt lastError
  = try_catch (invoke operation)
      (fun error =>
         RetryV1.on_error maxRetries attempt error
           (RetryV1.loop operation maxRetries trips (attempt + 1))).
Proof. reflexivity. Qed.

Lemma loop2_S maxRetries trips attempt lastError :
  RetryV2.loop operation maxRetries (S trips) attempt lastError
  = try_catch (invoke operation)
      (fun error =>
         RetryV2.on_error maxRetries attempt error
           (RetryV2.loop operation maxRetries trips (attempt + 1))).
Proof. reflexivity. Qed.

(** Every run of the first generation's loop is a schedule of constant
    pauses. *)
Lemma loop1_schedule (maxRetries : Z) (trips : nat) :
  forall attempt lastError w tr,
    maxRetries + 1 = attempt + Z.of_nat (S trips) ->
    exists k, (1 <= k <= S trips)%nat /\
      snd (snd (RetryV1.loop operation maxRetries (S trips) attempt lastError (w, tr)))
      = tr ++ schedule (delay_of Gen1) attempt k.
Proof.
  induction trips as [|trips IH]; intros attempt lastError w tr Hm.
  - exists 1%nat. split; [lia|].
    rewrite loop1_S. unfold try_catch, invoke.
    destruct (operation w) as [[v|error] w']; [reflexivity|].
    unfold RetryV1.on_error. destruct error as [|e]; [reflexivity|].
    destruct (RetryV1.client_error e); [reflexivity|].
    replace (attempt <? maxRetries) with false by (symmetry; apply Z.ltb_ge; lia).
    reflexivity.
  - rewrite loop1_S. unfold try_catch at 1, invoke.
    destruct (operation w) as [[v|error] w'].
    + exists 1%nat. split; [lia|reflexivity].
    + unfold RetryV1.on_error. destruct error as [|e].
      * exists 1%nat. split; [lia|reflexivity].
      * destruct (RetryV1.client_error e).
        { exists 1%nat. split; [lia|reflexivity]. }
        replace (attempt <? maxRetries) with true by (symmetry; apply Z.ltb_lt; lia).
        unfold bind at 1, sleep.
        destruct (IH (attempt + 1) (Exn (RetryV1.to_Error (Exn e))) w'
                    ((tr ++ [EvInvoke]) ++ [EvSleep 500])) as (k & Hk & Htr); [lia|].
        exists (S k). split; [lia|].
        refine (eq_trans Htr _). destruct k as [|k]; [lia|].
        rewrite <- (app_assoc tr). apply (schedule_step (delay_of Gen1)).
Qed.

Lemma loop2_schedule (maxRetries : Z) (trips : nat) :
  forall attempt lastError w tr,
    maxRetries + 1 = attempt + Z.of_nat (S trips) ->
    exists k, (1 <= k <= S trips)%nat /\
      snd (snd (RetryV2.loop operation maxRetries (S trips) attempt lastError (w, tr)))
      = tr ++ schedule (delay_of Gen2) attempt k.
Proof.
  induction trips as [|trips IH]; intros attempt lastError w tr Hm.
  - exists 1%nat. split; [lia|].
    rewrite loop2_S. unfold try_catch, invoke.
    destruct (operation w) as [[v|error] w']; [reflexivity|].
    unfold RetryV2.on_error.
    destruct (RetryV2.below_500 error); [reflexivity|].
    replace (attempt <? maxRetries) with false by (symmetry; apply Z.ltb_ge; lia).
    reflexivity.
  - rewrite loop2_S. unfold try_catch at 1, invoke.
    destruct (operation w) as [[v|error] w'].
    + exists 1%nat. split; [lia|reflexivity].
    + unfold RetryV2.on_error.
      destruct (RetryV2.below_500 error).
      { exists 1%nat. split; [lia|reflexivity]. }
      replace (attempt <? maxRetries) with true by (symmetry; apply Z.ltb_lt; lia).
      unfold bind at 1, sleep.
      destruct (IH (attempt + 1) error w'
                  ((tr ++ [EvInvoke]) ++ [EvSleep (RetryV2.delay attempt)]))
        as (k & Hk & Htr); [lia|].
      exists (S k). split; [lia|].
      refine (eq_trans Htr _). destruct k as [|k]; [lia|].
      rewrite <- (app_assoc tr). apply (schedule_step (delay_of Gen2)).
Qed.

End RetryLoops.

Lemma retryable_not_client (e : JsError) :
  retryable Gen1 e -> RetryV1.client_error e = false.
Proof.
  intros [_ Hs]. unfold RetryV1.client_error. cbn in Hs.
  destruct (status e) as [n|]; [|reflexivity].
  replace (n <? 500) with false by (symmetry; apply Z.ltb_ge; lia).
  apply andb_false_r.
Qed.

Lemma retryable_not_below_500 (e : JsError) :
  retryable Gen2 e -> RetryV2.below_500 (Exn e) = false.
Proof.
  intros [_ Hs]. unfold RetryV2.below_500. cbn in Hs.
  destruct (response_status e) as [n|]; [|reflexivity].
  apply Z.ltb_ge. lia.
Qed.

Lemma client_class_client_error (e : JsError) :
  client_class (status e) -> RetryV1.client_error e = true.
Proof.
  intros (n & Hn & Hr). unfold RetryV1.client_error. rewrite Hn.
  replace (n =? 0) with false by (symmetry; apply Z.eqb_neq; lia).
  replace (400 <=? n) with true by (symmetry; apply Z.leb_le; lia).
  replace (n <? 500) with true by (symmetry; apply Z.ltb_lt; lia).
  reflexivity.
Qed.

Lemma client_class_below_500 (e : JsError) :
  client_class (response_status e) -> RetryV2.below_500 (Exn e) = true.
Proof.
  intros (n & Hn & Hr). unfold RetryV2.below_500. rewrite Hn.
  apply Z.ltb_lt. lia.
Qed.

Lemma trip_count_of_nat (n : nat) : trip_count (Z.of_nat n) = S n.
Proof. unfold trip_count. lia. Qed.

(** The loop is entered exactly while [attempt <= maxRetries]. *)
Lemma trip_count_guard (maxRetries attempt : Z) :
  0 <= attempt ->
  (0 < Z.to_nat (maxRetries + 1 - attempt))%nat <-> attempt <= maxRetries.
Proof. lia. Qed.

Section RetryExhaustion.

Context {W T : Type} (operation : IO W T).

Lemma loop1_exhausts (maxRetries : Z) (t : nat) :
  always_throws (retryable Gen1) operation ->
  forall attempt lastError w tr,
    maxRetries = attempt + Z.of_nat t ->
    RetryV1.loop operation maxRetries (S t) attempt lastError (w, tr)
    = (fst (operation (world_after operation t w)),
       (snd (operation (world_after operation t w)),
        tr ++ schedule (delay_of Gen1) attempt (S t))).
Proof.
  intros Hthrows.
  induction t as [|t IH]; intros attempt lastError w tr Hm;
    rewrite loop1_S; unfold try_catch, invoke;
    destruct (Hthrows w) as (e & w' & Hop & He);
    cbn [world_after]; rewrite Hop; unfold RetryV1.on_error;
    rewrite (retryable_not_client e He).
  - replace (attempt <? maxRetries) with false by (symmetry; apply Z.ltb_ge; lia).
    unfold RetryV1.to_Error. destruct He as [-> _]. reflexivity.
  - replace (attempt <? maxRetries) with true by (symmetry; apply Z.ltb_lt; lia).
    unfold bind, sleep. cbn [snd].
    rewrite (IH (attempt + 1)) by lia.
    do 2 f_equal. rewrite <- !app_assoc. reflexivity.
Qed.

Lemma loop2_exhausts (maxRetries : Z) (t : nat) :
  always_throws (retryable Gen2) operation ->
  forall attempt lastError w tr,
    maxRetries = attempt + Z.of_nat t ->
    RetryV2.loop operation maxRetries (S t) attempt lastError (w, tr)
    = (fst (operation (world_after operation t w)),
       (snd (operation (world_after operation t w)),
        tr ++ schedule (delay_of Gen2) attempt (S t))).
Proof.
  intros Hthrows.
  induction t as [|t IH]; intros attempt lastError w tr Hm;
    rewrite loop2_S; unfold try_catch, invoke;
    destruct (Hthrows w) as (e & w' & Hop & He);
    cbn [world_after]; rewrite Hop; unfold RetryV2.on_error;
    rewrite (retryable_not_below_500 e He).
  - replace (attempt <? maxRetries) with false by (symmetry; apply Z.ltb_ge; lia).
    reflexivity.
  - replace (attempt <? maxRetries) with true by (symmetry; apply Z.ltb_lt; lia).
    unfold bind, sleep. cbn [snd].
    rewrite (IH (attempt + 1)) by lia.
    do 2 f_equal. rewrite <- !app_assoc. reflexivity.
Qed.

(** With the retries used up on failures of the retryable kind, either
    generation has run the operation once per trip and ends on the outcome
    of the last run. *)
Lemma retry_exhausts (g : generation) (n : nat) (w : W) (tr : trace) :
  always_throws (retryable g) operation ->
  retryWithBackoff_of g operation (Some (Z.of_nat n)) (w, tr)
  = (fst (operation (world_after operation n w)),
     (snd (operation (world_after operation n w)),
      tr ++ schedule (delay_of g) 0 (S n))).
Proof.
  intros Hthrows.
  destruct g; cbn [retryWithBackoff_of];
    [unfold RetryV1.retryWithBackoff | unfold RetryV2.retryWithBackoff];
    cbv beta zeta iota delta [from_option id]; rewrite trip_count_of_nat.
  - apply loop1_exhausts; [assumption | lia].
  - apply loop2_exhausts; [assumption | lia].
Qed.

(** A failure of the client class ends either generation on the spot. *)
Lemma retry_terminal (g : generation) (n : nat) (w w' : W) (tr : trace) (e : JsError) :
  operation w = (Throw (Exn e), w') ->
  client_class (carried_status g e) ->
  retryWithBackoff_of g operation (Some (Z.of_nat n)) (w, tr)
  = (Throw (Exn e), (w', tr ++ [EvInvoke])).
Proof.
  intros Hop Hc.
  destruct g; cbn [retryWithBackoff_of];
    [unfold RetryV1.retryWithBackoff | unfold RetryV2.retryWithBackoff];
    cbv beta zeta iota delta [from_option id]; rewrite trip_count_of_nat.
  - rewrite loop1_S. unfold try_catch, invoke. rewrite Hop.
    unfold RetryV1.on_error. rewrite (client_class_client_error e Hc). reflexivity.
  - rewrite loop2_S. unfold try_catch, invoke. rewrite Hop.
    unfold RetryV2.on_error. rewrite (client_class_below_500 e Hc). reflexivity.
Qed.

End RetryExhaustion.

(** X2. A negative retry count: the loop of either generation is not
    entered, the operation is never run, nothing is slept, and what is thrown
    is the [undefined] that [lastError] started as. *)
Remark retry_without_trips (g : generation) {W T : Type} (operation : IO W T)
    (maxRetries : Z) (st : W * trace) :
  maxRetries < 0 ->
  retryWithBackoff_of g operation (Some maxRetries) st = (Throw Undefined, st).
Proof.
  intros Hneg.
  destruct g; cbn [retryWithBackoff_of];
    [unfold RetryV1.retryWithBackoff | unfold RetryV2.retryWithBackoff];
    cbv beta zeta iota delta [from_option id];
    replace (trip_count maxRetries) with 0%nat by (unfold trip_count; lia);
    reflexivity.
Qed.

(** C3. Retry cap: an operation that always throws a retryable error is
    invoked exactly [maxRetries + 1] times by either generation of
    [retryWithBackoff], which then raises the error of the last
    invocation. *)
Theorem retry_cap (g : generation) {W T : Type} (operation : IO W T)
    (maxRetries : nat) (w : W) (tr : trace) :
  always_throws (retryable g) operation ->
  exists e w' tr',
    operation (world_after operation maxRetries w) = (Throw (Exn e), w') /\
    retryWithBackoff_of g operation (Some (Z.of_nat maxRetries)) (w, tr)
    = (Throw (Exn e), (w', tr')) /\
    invocations tr' = (invocations tr + (maxRetries + 1))%nat.
Proof.
  intros Hthrows.
  destruct (Hthrows (world_after operation maxRetries w)) as (e & w' & Hlast & _).
  exists e, w', (tr ++ schedule (delay_of g) 0 (S maxRetries)).
  split; [exact Hlast|]. split.
  - rewrite (retry_exhausts operation g maxRetries w tr Hthrows), Hlast. reflexivity.
  - rewrite invocations_app, invocations_schedule. lia.
Qed.

Lemma retry_cap_witness :
  always_throws (retryable Gen1) (failing (http_error 503)) /\
  exists e w' tr',
    failing (http_error 503) (world_after (failing (http_error 503)) 2 0%nat)
    = (Throw (Exn e), w') /\
    retryWithBackoff_of Gen1 (failing (http_error 503)) (Some (Z.of_nat 2)) (0%nat, [])
    = (Throw (Exn e), (w', tr')) /\
    invocations tr' = (invocations [] + (2 + 1))%nat.
Proof.
  assert (H : always_throws (retryable Gen1) (failing (http_error 503))).
  { intros w. exists (http_error 503), (S w).
    split; [reflexivity|]. split; [reflexivity|]. simpl. lia. }
  split; [exact H|].
  exact (retry_cap Gen1 (failing (http_error 503)) 2 0%nat [] H).
Defined.

(** The test of either generation, on the field it reads: when the
    operation throws an error whose status there is of the client class
    (4xx), [retryWithBackoff] has invoked it once and raises that error,
    whatever the retry count, given or defaulted. *)
Lemma no_retry_on_client_error (g : generation) {W T : Type}
    (operation : IO W T) (maxRetries : option nat)
    (w w' : W) (tr : trace) (e : JsError) :
  operation w = (Throw (Exn e), w') ->
  client_class (carried_status g e) ->
  retryWithBackoff_of g operation (Z.of_nat <$> maxRetries) (w, tr)
  = (Throw (Exn e), (w', tr ++ [EvInvoke])).
Proof.
  intros Hop Hc. destruct maxRetries as [n|].
  - exact (retry_terminal operation g n w w' tr e Hop Hc).
  - destruct g.
    + exact (retry_terminal operation Gen1 1 w w' tr e Hop Hc).
    + exact (retry_terminal operation Gen2 2 w w' tr e Hop Hc).
Qed.

Lemma no_retry_on_client_error_witness :
  failing (http_error 404) 0%nat = (Throw (Exn (http_error 404)), 1%nat) /\
  client_class (carried_status Gen2 (http_error 404)) /\
  retryWithBackoff_of Gen2 (failing (http_error 404)) (Z.of_nat <$> Some 5%nat) (0%nat, [])
  = (Throw (Exn (http_error 404)), (1%nat, [] ++ [EvInvoke])).
Proof.
  assert (Hc : client_class (carried_status Gen2 (http_error 404))).
  { exists 404. split; [reflexivity | lia]. }
  split; [reflexivity|]. split; [exact Hc|].
  exact (no_retry_on_client_error Gen2 (failing (http_error 404)) (Some 5%nat)
           0%nat 1%nat [] (http_error 404) eq_refl Hc).
Defined.

(** C4. No retry on terminal errors holds in the first generation and fails
    in the second, which looks for the status in [error.response.status]
    only.  An operation that always throws an [Error] with a status of the
    client class (4xx) in [error.status] and no [response], as the OpenAI
    client of [generateResponse] and [synthesizeSpeech] does, is invoked
    [maxRetries + 1] times by the second generation of [retryWithBackoff]
    before the error is raised; the first generation invokes it once. *)
Theorem client_error_is_retried_in_second_generation {W T : Type}
    (operation : IO W T) (maxRetries : nat) (w : W) (tr : trace) :
  always_throws
    (fun e => is_Error e = true /\ client_class (status e) /\ response_status e = None)
    operation ->
  (exists e w' tr',
      operation (world_after operation maxRetries w) = (Throw (Exn e), w') /\
      RetryV2.retryWithBackoff operation (Some (Z.of_nat maxRetries)) (w, tr)
      = (Throw (Exn e), (w', tr')) /\
      invocations tr' = (invocations tr + (maxRetries + 1))%nat) /\
  (exists e w',
      operation w = (Throw (Exn e), w') /\
      RetryV1.retryWithBackoff operation (Some (Z.of_nat maxRetries)) (w, tr)
      = (Throw (Exn e), (w', tr ++ [EvInvoke]))).
Proof.
  intros Hthrows. split.
  - assert (Hretried : always_throws (retryable Gen2) operation).
    { intros w0. destruct (Hthrows w0) as (e & w' & Hop & Herror & _ & Hresponse).
      exists e, w'. split; [exact Hop|]. split; [exact Herror|].
      cbn [carried_status]. rewrite Hresponse. exact I. }
    destruct (Hthrows (world_after operation maxRetries w)) as (e & w' & Hlast & _).
    exists e, w', (tr ++ schedule (delay_of Gen2) 0 (S maxRetries)).
    split; [exact Hlast|]. split.
    + pose proof (retry_exhausts operation Gen2 maxRetries w tr Hretried) as Hrun.
      cbn [retryWithBackoff_of] in Hrun. rewrite Hrun, Hlast. reflexivity.
    + rewrite invocations_app, invocations_schedule. lia.
  - destruct (Hthrows w) as (e & w' & Hop & _ & Hclient & _).
    exists e, w'. split; [exact Hop|].
    exact (retry_terminal operation Gen1 maxRetries w w' tr e Hop Hclient).
Qed.

Lemma client_error_is_retried_in_second_generation_witness :
  always_throws
    (fun e => is_Error e = true /\ client_class (status e) /\ response_status e = None)
    (failing (sdk_error 401)) /\
  (exists e w' tr',
      failing (sdk_error 401) (world_after (failing (sdk_error 401)) 2 0%nat)
      = (Throw (Exn e), w') /\
      RetryV2.retryWithBackoff (failing (sdk_error 401)) (Some (Z.of_nat 2)) (0%nat, [])
      = (Throw (Exn e), (w', tr')) /\
      invocations tr' = (invocations [] + (2 + 1))%nat) /\
  (exists e w',
      failing (sdk_error 401) 0%nat = (Throw (Exn e), w') /\
      RetryV1.retryWithBackoff (failing (sdk_error 401)) (Some (Z.of_nat 2)) (0%nat, [])
      = (Throw (Exn e), (w', [] ++ [EvInvoke]))).
Proof.
  assert (H : always_throws
                (fun e => is_Error e = true /\ client_class (status e) /\
                          response_status e = None)
                (failing (sdk_error 401))).
  { intros w. exists (sdk_error 401), (S w).
    split; [reflexivity|]. split; [reflexivity|].
    split; [|reflexivity]. exists 401. split; [reflexivity | lia]. }
  split; [exact H|].
  exact (client_error_is_retried_in_second_generation (failing (sdk_error 401)) 2
           0%nat [] H).
Defined.

(** A key that the generation provider refuses, in the second generation's
    turn: [generateResponse] is run three times, with pauses of one and two
    seconds, and the provider is asked three times, before the 401 is
    raised. *)
Example refused_generation_key_is_retried :
  exists w',
    RetryV2.retryWithBackoff (LlmV2.generateResponse "hello" []) (Some 2)
      (set_chat [Throw (Exn (sdk_error 401)); Throw (Exn (sdk_error 401));
                 Throw (Exn (sdk_error 401))] world_before_upload, [])
    = (Throw (Exn (sdk_error 401)),
       (w', [EvInvoke; EvSleep 1000; EvInvoke; EvSleep 2000; EvInvoke])) /\
    length (calls w') = 3%nat.
Proof. eexists. split; vm_compute; reflexivity. Qed.

Lemma retry_schedule (g : generation) {W T : Type} (operation : IO W T)
    (n : nat) (w : W) (tr : trace) :
  exists k, (1 <= k <= n + 1)%nat /\
    snd (snd (retryWithBackoff_of g operation (Some (Z.of_nat n)) (w, tr)))
    = tr ++ schedule (delay_of g) 0 k.
Proof.
  destruct g; cbn [retryWithBackoff_of];
    [unfold RetryV1.retryWithBackoff | unfold RetryV2.retryWithBackoff];
    cbv beta zeta iota delta [from_option id]; rewrite trip_count_of_nat.
  - destruct (loop1_schedule operation (Z.of_nat n) n 0 Undefined w tr) as (k & Hk & Htr);
      [lia|]. exists k. split; [lia | exact Htr].
  - destruct (loop2_schedule operation (Z.of_nat n) n 0 Undefined w tr) as (k & Hk & Htr);
      [lia|]. exists k. split; [lia | exact Htr].
Qed.

(** C5 fails on the first generation, which does not back off
    exponentially: its default is one retry, and it pauses half a second
    before each retry. *)
Lemma constant_backoff_in_first_generation :
  RetryV1.default_maxRetries = 1 /\
  sleeps (snd (snd (RetryV1.retryWithBackoff (failing timeout_error) (Some 2) (0%nat, []))))
  = [500; 500] /\
  ~ exponential_backoff Gen1.
Proof.
  split; [reflexivity|]. split; [reflexivity|].
  intros [Hdefault _].
  specialize (Hdefault nat unit (failing timeout_error) (0%nat, [])).
  vm_compute in Hdefault. discriminate Hdefault.
Qed.

(** C5, amended. The second generation of [retryWithBackoff] retries twice by
    default and pauses [2^attempt] seconds before each retry; the first
    generation retries once by default and pauses 500 ms before each
    retry. *)
Theorem backoff_by_generation :
  exponential_backoff Gen2 /\
  (forall W T (operation : IO W T) (st : W * trace),
      RetryV1.retryWithBackoff operation None st
      = RetryV1.retryWithBackoff operation (Some 1) st) /\
  (forall W T (operation : IO W T) (n : nat) (w : W) (tr : trace),
      exists k, (1 <= k <= n + 1)%nat /\
        snd (snd (RetryV1.retryWithBackoff operation (Some (Z.of_nat n)) (w, tr)))
        = tr ++ schedule (fun _ => 500) 0 k).
Proof.
  split; [split|split].
  - reflexivity.
  - intros W T operation n w tr. exact (retry_schedule Gen2 operation n w tr).
  - reflexivity.
  - intros W T operation n w tr. exact (retry_schedule Gen1 operation n w tr).
Qed.

(** ** The audio validator *)

Ltac validate_steps :=
  cbv beta iota zeta delta
    [AudioV1.validateAudio AudioV2.validateAudio try_catch bind ret negb
     existsSync statSync_size ffprobe_duration].

(** C10. The first generation's [validateAudio] is total: on every path and
    every state of the disk it returns a result record, leaves the world as
    it was, raises nothing, and an invalid result carries a reason. *)
Theorem validateAudio_total (env : Env) (filePath : string) (w : World) :
  exists r,
    AudioV1.validateAudio env filePath w = (Return r, w) /\
    (valid r = false -> exists reason, error r = Some reason).
Proof.
  validate_steps.
  destruct (files w !! filePath) as [f|] eqn:Hf; validate_steps; rewrite ?Hf.
  - destruct (f_stat_error f) as [e|]; validate_steps.
    + eexists. split; [reflexivity|]. intros _. eexists. reflexivity.
    + destruct (f_size f >? AudioV1.maxSize env); validate_steps.
      * eexists. split; [reflexivity|]. intros _. eexists. reflexivity.
      * rewrite Hf. destruct (f_probe f) as [e|d]; validate_steps.
        -- eexists. split; [reflexivity|]. discriminate.
        -- destruct (longer_than d (AudioV1.maxDuration env)).
           ++ eexists. split; [reflexivity|]. intros _. eexists. reflexivity.
           ++ eexists. split; [reflexivity|]. discriminate.
  - eexists. split; [reflexivity|]. intros _. eexists. reflexivity.
Qed.

(** C7 fails on the first generation, where a failing probe leaves the file
    valid. *)
Lemma probe_failure_passes_in_first_generation :
  probe_fails_on (AudioV1.maxSize env0) world_with_corrupt_clip "/tmp/clip" /\
  AudioV1.validateAudio env0 "/tmp/clip" world_with_corrupt_clip
  = (Return (mkValidation true None (Some 1000) None), world_with_corrupt_clip) /\
  ~ probe_failure_rejected (AudioV1.maxSize env0) (AudioV1.validateAudio env0).
Proof.
  assert (Hfails : probe_fails_on (AudioV1.maxSize env0) world_with_corrupt_clip "/tmp/clip").
  { exists corrupt_clip, probe_error.
    split; [reflexivity|]. split; [reflexivity|]. split; [|reflexivity].
    vm_compute. discriminate. }
  split; [exact Hfails|]. split; [reflexivity|].
  intros Hclaim. destruct (Hclaim _ _ Hfails) as [reason Hr].
  vm_compute in Hr. discriminate Hr.
Qed.

(** C7, amended. When [ffprobe] fails on a file that exists, can be stat'ed
    and is within the size limit, the second generation's [validateAudio]
    returns [valid: false] with the reason "Invalid audio file or format not
    supported"; the first generation's returns [valid: true] with the size and
    no duration.  Neither raises. *)
Theorem probe_failure_by_generation (env : Env) (w : World) (filePath : string)
    (f : FileMeta) (e : JsError) :
  files w !! filePath = Some f ->
  f_stat_error f = None ->
  f_probe f = ProbeFails e ->
  (f_size f <= AudioV2.maxSize ->
   AudioV2.validateAudio filePath w
   = (Return (invalid "Invalid audio file or format not supported"), w)) /\
  (f_size f <= AudioV1.maxSize env ->
   AudioV1.validateAudio env filePath w
   = (Return (mkValidation true None (Some (f_size f)) None), w)).
Proof.
  intros Hf Hstat Hprobe. split; intros Hsize.
  - validate_steps. rewrite Hf. validate_steps. rewrite Hf, Hstat. validate_steps.
    replace (f_size f >? AudioV2.maxSize) with false
      by (symmetry; rewrite Z.gtb_ltb; apply Z.ltb_ge; exact Hsize).
    validate_steps. rewrite Hf, Hprobe. reflexivity.
  - validate_steps. rewrite Hf. validate_steps. rewrite Hf, Hstat. validate_steps.
    replace (f_size f >? AudioV1.maxSize env) with false
      by (symmetry; rewrite Z.gtb_ltb; apply Z.ltb_ge; exact Hsize).
    validate_steps. rewrite Hf, Hprobe. reflexivity.
Qed.

Lemma probe_failure_by_generation_witness :
  AudioV2.validateAudio "/tmp/clip" world_with_corrupt_clip
  = (Return (invalid "Invalid audio file or format not supported"),
     world_with_corrupt_clip) /\
  AudioV1.validateAudio env0 "/tmp/clip" world_with_corrupt_clip
  = (Return (mkValidation true None (Some (f_size corrupt_clip)) None),
     world_with_corrupt_clip).
Proof.
  destruct (probe_failure_by_generation env0 world_with_corrupt_clip "/tmp/clip"
              corrupt_clip probe_error eq_refl eq_refl eq_refl) as [H2 H1].
  split.
  - apply H2. vm_compute. discriminate.
  - apply H1. vm_compute. discriminate.
Defined.

(** ** The context loader *)

Lemma insert_by_createdAt_ascending (m : MessageDoc) (l : list MessageDoc) :
  ascending l -> ascending (insert_by_createdAt m l).
Proof.
  unfold ascending. induction l as [|x l IH]; intros Hl; cbn [insert_by_createdAt].
  - repeat constructor.
  - destruct (m_createdAt m <? m_createdAt x) eqn:Hlt.
    + constructor; [assumption|]. constructor. apply Z.ltb_lt in Hlt. lia.
    + apply Z.ltb_ge in Hlt. inversion Hl as [|? ? Hs Hh]; subst.
      constructor; [apply IH; assumption|].
      destruct l as [|y l]; cbn [insert_by_createdAt].
      * constructor. assumption.
      * destruct (m_createdAt m <? m_createdAt y); constructor;
          [assumption | inversion Hh; assumption].
Qed.

Lemma sort_by_createdAt_ascending (l : list MessageDoc) :
  ascending (sort_by_createdAt l).
Proof.
  unfold sort_by_createdAt.
  assert (H : forall acc, ascending acc ->
                ascending (foldl (fun acc m => insert_by_createdAt m acc) acc l)).
  { induction l as [|m l IH]; intros acc Hacc; cbn [foldl]; [assumption|].
    apply IH, insert_by_createdAt_ascending, Hacc. }
  apply H. constructor.
Qed.

Lemma cursor_limit_prefix {A} (n : Z) (l : list A) :
  exists rest, l = cursor_limit n l ++ rest.
Proof.
  unfold cursor_limit. destruct (n =? 0).
  - exists []. symmetry. apply app_nil_r.
  - exists (drop (Z.to_nat (Z.abs n)) l). symmetry. apply take_drop.
Qed.

Lemma cursor_limit_length {A} (n : Z) (l : list A) :
  0 < n -> (length (cursor_limit n l) <= Z.to_nat n)%nat.
Proof.
  intros Hn. unfold cursor_limit.
  replace (n =? 0) with false by (symmetry; apply Z.eqb_neq; lia).
  rewrite length_take, Z.abs_eq by lia. lia.
Qed.

Lemma ascending_prefix (l1 l2 : list MessageDoc) :
  ascending (l1 ++ l2) -> ascending l1.
Proof.
  unfold ascending. induction l1 as [|x l1 IH]; intros H; [constructor|].
  inversion H as [|? ? Hs Hh]; subst. constructor; [apply IH; assumption|].
  destruct l1; [constructor|]. inversion Hh; subst. constructor. assumption.
Qed.

(** X20. What both generations of the context loader return when the store
    answers: at most [limit] messages, in ascending creation time, taken from
    the old end of the session. *)
Lemma history_is_oldest_prefix (sessionId : string) (sid : ObjectId)
    (limit : Z) (w : World) :
  parseObjectId sessionId = Some sid ->
  db_down w = None -> db_faults w = [] ->
  let oldest := cursor_limit limit (sort_by_createdAt (find_messages sid w)) in
  ConversationV1.getConversationHistory sessionId (Some limit) w
  = (Return (map to_ChatMessage oldest), w) /\
  ConversationV2.getConversationHistory sessionId (Some limit) w
  = (Return (map to_ChatMessage oldest), w) /\
  ascending oldest /\
  (0 < limit -> (length oldest <= Z.to_nat limit)%nat) /\
  (find_messages sid w = [] -> oldest = []).
Proof.
  intros Hsid Hup Hok oldest. repeat split.
  - unfold ConversationV1.getConversationHistory, ConversationV1.Message_find,
      SessionV1.cast, connectDB, store_op, bind, try_catch, get, ret.
    rewrite Hup, Hsid, Hok. reflexivity.
  - unfold ConversationV2.getConversationHistory, connectDB, store_op, bind, get, ret.
    rewrite Hup, Hsid, Hok. reflexivity.
  - subst oldest.
    destruct (cursor_limit_prefix limit (sort_by_createdAt (find_messages sid w)))
      as [rest Hrest].
    apply (ascending_prefix _ rest). rewrite <- Hrest.
    apply sort_by_createdAt_ascending.
  - intros Hlimit. apply cursor_limit_length, Hlimit.
  - intros Hnone. subst oldest. rewrite Hnone.
    unfold cursor_limit. destruct (limit =? 0); [reflexivity|].
    apply take_nil.
Qed.

(** C6 at a session of three messages and a limit of two: both generations
    of [getConversationHistory] return the two oldest messages, where the two
    most recent ones are the second and the third. *)
Theorem history_keeps_oldest :
  ConversationV1.getConversationHistory session_id (Some 2) world_with_three_messages
  = (Return [mkChat user "first"; mkChat assistant "second"], world_with_three_messages) /\
  ConversationV2.getConversationHistory session_id (Some 2) world_with_three_messages
  = (Return [mkChat user "first"; mkChat assistant "second"], world_with_three_messages) /\
  most_recent 2 session_id world_with_three_messages
  = [mkChat assistant "second"; mkChat user "third"].
Proof.
  repeat split; vm_compute; reflexivity.
Qed.

(** ** The session resolver *)

Ltac session_steps :=
  cbv beta iota zeta delta
    [SessionV1.getOrCreateSession SessionV1.getSession SessionV1.createSession
     SessionV1.Session_findOne SessionV1.Session_create SessionV1.Session_touch
     SessionV1.cast SessionV1.cast_field
     ConversationV2.getOrCreateSession ConversationV2.getSession
     ConversationV2.createSession
     connectDB store_op fresh_id now bind try_catch ret raise throw get modify].

Lemma truthy_nonempty (sid : string) :
  (0 < String.length sid)%nat -> SessionV1.truthy (Some sid) = Some sid.
Proof.
  intros Hlen. unfold SessionV1.truthy.
  destruct (String.length sid); [lia|reflexivity].
Qed.

(** C9 on the first generation: a session id that is not the text of an
    [ObjectId] makes [getOrCreateSession] throw the cast error of the lookup;
    no session is created. *)
Theorem malformed_session_id_throws (userId sid : string) (w : World) :
  (0 < String.length sid)%nat ->
  parseObjectId sid = None ->
  db_down w = None ->
  SessionV1.getOrCreateSession userId (Some sid) w
  = (Throw (Exn (SessionV1.CastError sid "_id" "Session")), w).
Proof.
  intros Hlen Hbad Hup.
  unfold SessionV1.getOrCreateSession. rewrite (truthy_nonempty sid Hlen).
  session_steps. rewrite Hup. session_steps. rewrite Hup. session_steps.
  rewrite Hbad. reflexivity.
Qed.

Lemma malformed_session_id_throws_witness :
  SessionV1.getOrCreateSession alice_id (Some "stale-session") world_with_session
  = (Throw (Exn (SessionV1.CastError "stale-session" "_id" "Session")),
     world_with_session).
Proof.
  apply (malformed_session_id_throws alice_id "stale-session" world_with_session).
  - vm_compute. lia.
  - reflexivity.
  - reflexivity.
Defined.

(** X21. The second generation does what the resolver is specified to do: with the
    store answering, a session id that does not name a session of the caller,
    well-formed or not, leads to a new session of the caller, and one that
    does is returned after its [lastActivityAt] was set to the present. *)
Lemma getOrCreateSession_resolves (userId : string) (sessionId : option string)
    (w : World) :
  db_down w = None -> db_faults w = [] ->
  let owned :=
    sid ← SessionV1.truthy sessionId;
    oid ← parseObjectId sid;
    s ← sessions w !! oid;
    if String.eqb (s_userId s) userId then Some (sid, oid, s) else None in
  match owned with
  | Some (sid, oid, s) =>
      ConversationV2.getOrCreateSession userId sessionId w
      = (Return sid,
         set_sessions (alter (fun s => mkSession (s_userId s) (s_createdAt s) (clock w)) oid) w)
  | None =>
      exists newId w',
        fresh_id w = (Return newId, w') /\
        ConversationV2.getOrCreateSession userId sessionId w
        = (Return newId,
           set_sessions (insert newId (mkSession userId (clock w) (clock w))) w')
  end.
Proof.
  intros Hup Hok. cbv zeta.
  assert (Hcreate : exists newId w',
             fresh_id w = (Return newId, w') /\
             ConversationV2.createSession userId w
             = (Return newId,
                set_sessions (insert newId (mkSession userId (clock w) (clock w))) w')).
  { session_steps. rewrite Hup, Hok.
    destruct (fresh_ids w) as [|newId rest]; eexists; eexists; split; reflexivity. }
  unfold ConversationV2.getOrCreateSession.
  destruct (SessionV1.truthy sessionId) as [sid|]; cbn [mbind option_bind];
    [|exact Hcreate].
  unfold ConversationV2.getSession.
  destruct (parseObjectId sid) as [oid|]; cbn [mbind option_bind].
  - session_steps. rewrite Hup, Hok.
    destruct (sessions w !! oid) as [s|]; cbn [mbind option_bind].
    + destruct (String.eqb (s_userId s) userId).
      * rewrite Hup, Hok. reflexivity.
      * exact Hcreate.
    + exact Hcreate.
  - session_steps. rewrite Hup. exact Hcreate.
Qed.

(** X22. So does the first generation's [getOrCreateSession], as long as the
    session id, if there is one, is the text of an [ObjectId]: with the store
    answering, the caller's session is returned after its [lastActivityAt]
    was set to the present, and any other id leads to a new session of the
    caller. *)
Lemma getOrCreateSession_resolves_well_formed (userId : string) (uid : ObjectId)
    (sessionId : option string) (w : World) :
  db_down w = None -> db_faults w = [] ->
  parseObjectId userId = Some uid ->
  (forall sid, SessionV1.truthy sessionId = Some sid -> is_Some (parseObjectId sid)) ->
  let owned :=
    sid ← SessionV1.truthy sessionId;
    oid ← parseObjectId sid;
    s ← sessions w !! oid;
    if String.eqb (s_userId s) uid then Some (sid, oid, s) else None in
  match owned with
  | Some (sid, oid, s) =>
      SessionV1.getOrCreateSession userId sessionId w
      = (Return sid,
         set_sessions (alter (fun s => mkSession (s_userId s) (s_createdAt s) (clock w)) oid) w)
  | None =>
      exists newId w',
        fresh_id w = (Return newId, w') /\
        SessionV1.getOrCreateSession userId sessionId w
        = (Return newId,
           set_sessions (insert newId (mkSession uid (clock w) (clock w))) w')
  end.
Proof.
  intros Hup Hok Huid Hwell. cbv zeta.
  unfold SessionV1.getOrCreateSession.
  destruct (SessionV1.truthy sessionId) as [sid|] eqn:Hsid; cbn [mbind option_bind].
  - destruct (Hwell sid eq_refl) as [oid Hoid]. rewrite Hoid. cbn [mbind option_bind].
    destruct (sessions w !! oid) as [s|] eqn:Hs; cbn [mbind option_bind].
    + destruct (String.eqb (s_userId s) uid) eqn:Howner.
      * repeat first [ progress session_steps | rewrite Hup | rewrite Hoid | rewrite Huid
                     | rewrite Hok | rewrite Hs | rewrite Howner ].
        reflexivity.
      * repeat first [ progress session_steps | rewrite Hup | rewrite Hoid | rewrite Huid
                     | rewrite Hok | rewrite Hs | rewrite Howner ].
        destruct (fresh_ids w); eexists; eexists; split; reflexivity.
    + repeat first [ progress session_steps | rewrite Hup | rewrite Hoid | rewrite Huid
                   | rewrite Hok | rewrite Hs ].
      destruct (fresh_ids w); eexists; eexists; split; reflexivity.
  - repeat first [ progress session_steps | rewrite Hup | rewrite Huid | rewrite Hok ].
    destruct (fresh_ids w); eexists; eexists; split; reflexivity.
Qed.

(** ** The speech synthesizer under the retry wrapper *)

Lemma world_after_fixed {W T} (operation : IO W T) (n : nat) (w : W) :
  (forall w, snd (operation w) = w) -> world_after operation n w = w.
Proof.
  intros Hfix. induction n as [|n IH]; cbn [world_after]; [reflexivity|].
  rewrite Hfix. exact IH.
Qed.

(** A text over the limit is refused before the provider is called, with a
    plain [Error] that carries no status. *)
Lemma synthesizeSpeech_refuses_long_text (text : string) (w : World) :
  Z.of_nat (String.length text) > TtsV1.limit ->
  exists msg, TtsV1.synthesizeSpeech text w = (Throw (Exn (new_Error msg)), w).
Proof.
  intros Hlong. unfold TtsV1.synthesizeSpeech, try_catch.
  destruct (empty_or_blank text).
  - eexists. reflexivity.
  - replace (Z.of_nat (String.length text) >? TtsV1.limit) with true
      by (symmetry; apply Z.gtb_gt; exact Hlong).
    eexists. reflexivity.
Qed.

(** C8 on the first generation: for a text of more than 4096 characters
    [synthesizeSpeech] throws without reaching the provider, and the wrapper
    of [handleVoiceConversation] runs it three times, with two pauses, before
    the error is raised. *)
Theorem long_text_is_retried (text : string) (w : World) (tr : trace) :
  Z.of_nat (String.length text) > TtsV1.limit ->
  exists e,
    TtsV1.synthesizeSpeech text w = (Throw (Exn e), w) /\
    RetryV1.retryWithBackoff (TtsV1.synthesizeSpeech text) (Some 2) (w, tr)
    = (Throw (Exn e),
       (w, tr ++ [EvInvoke; EvSleep 500; EvInvoke; EvSleep 500; EvInvoke])).
Proof.
  intros Hlong.
  destruct (synthesizeSpeech_refuses_long_text text w Hlong) as [msg Hrun].
  exists (new_Error msg). split; [exact Hrun|].
  assert (Hthrows : always_throws (retryable Gen1) (TtsV1.synthesizeSpeech text)).
  { intros w0. destruct (synthesizeSpeech_refuses_long_text text w0 Hlong) as [m Hm].
    exists (new_Error m), w0. split; [exact Hm|]. split; reflexivity. }
  assert (Hfix : forall w0, snd (TtsV1.synthesizeSpeech text w0) = w0).
  { intros w0. destruct (synthesizeSpeech_refuses_long_text text w0 Hlong) as [m Hm].
    rewrite Hm. reflexivity. }
  pose proof (retry_exhausts (TtsV1.synthesizeSpeech text) Gen1 2 w tr Hthrows) as Hretry.
  rewrite (world_after_fixed _ 2 w Hfix), Hrun in Hretry.
  exact Hretry.
Qed.

Lemma long_text_is_retried_witness :
  exists e,
    TtsV1.synthesizeSpeech long_reply empty_world = (Throw (Exn e), empty_world) /\
    RetryV1.retryWithBackoff (TtsV1.synthesizeSpeech long_reply) (Some 2) (empty_world, [])
    = (Throw (Exn e),
       (empty_world, [] ++ [EvInvoke; EvSleep 500; EvInvoke; EvSleep 500; EvInvoke])).
Proof.
  apply (long_text_is_retried long_reply empty_world []).
  vm_compute. reflexivity.
Defined.

(** The same inside a turn: the generator's reply is too long, the
    synthesizer is run three times, the synthesis provider is never called,
    and the turn fails with the synthesizer's message. *)
Example long_reply_in_a_turn :
  let '(r, (w', tr)) :=
    VoiceV1.handleVoiceConversation session_id "/tmp/a.wav" (world_with_long_reply, []) in
  r = Throw (Exn (new_Error
        "TTS failed: Text exceeds 4096 character limit (4097 chars)")) /\
  tr = [EvInvoke; EvInvoke; EvInvoke; EvSleep 500; EvInvoke; EvSleep 500; EvInvoke] /\
  length (calls w') = 2%nat /\
  messages w' = [].
Proof.
  vm_compute. repeat split; reflexivity.
Qed.

(** ** What a computation leaves untouched *)

Section Keeps.

Context {S X : Type} (f : S -> X).

Lemma keeps_ret {A} (a : A) : keeps f (ret a).
Proof. intros s. reflexivity. Qed.

Lemma keeps_throw {A} (v : thrown) : keeps f (@throw S A v).
Proof. intros s. reflexivity. Qed.

Lemma keeps_raise {A} (e : JsError) : keeps f (@raise S A e).
Proof. intros s. reflexivity. Qed.

Lemma keeps_get : keeps f (@get S).
Proof. intros s. reflexivity. Qed.

Lemma keeps_bind {A B} (c : IO S A) (k : A -> IO S B) :
  keeps f c -> (forall a, keeps f (k a)) -> keeps f (bind c k).
Proof.
  intros Hc Hk s. unfold bind. specialize (Hc s).
  destruct (c s) as [[a|v] s']; cbn [snd] in *.
  - rewrite (Hk a s'). exact Hc.
  - exact Hc.
Qed.

Lemma keeps_try_catch {A} (c : IO S A) (h : thrown -> IO S A) :
  keeps f c -> (forall v, keeps f (h v)) -> keeps f (try_catch c h).
Proof.
  intros Hc Hh s. unfold try_catch. specialize (Hc s).
  destruct (c s) as [[a|v] s']; cbn [snd] in *.
  - exact Hc.
  - rewrite (Hh v s'). exact Hc.
Qed.

Lemma keeps_if {A} (b : bool) (c1 c2 : IO S A) :
  keeps f c1 -> keeps f c2 -> keeps f (if b then c1 else c2).
Proof. destruct b; intros; assumption. Qed.

Lemma keeps_lift {L A} (c : IO S A) :
  keeps f c -> keeps (fun st : S * L => f (fst st)) (lift c).
Proof.
  intros Hc [s l]. unfold lift. specialize (Hc s).
  destruct (c s) as [r s']. exact Hc.
Qed.

End Keeps.

Section KeepsRetry.

Context {W T X : Type} (f : W -> X) (operation : IO W T).
Hypothesis operation_keeps : keeps f operation.

Lemma keeps_invoke :
  keeps (fun st : W * trace => f (fst st)) (invoke operation).
Proof.
  intros [w tr]. unfold invoke. specialize (operation_keeps w).
  destruct (operation w) as [r w']. exact operation_keeps.
Qed.

Lemma keeps_sleep (ms : Z) :
  keeps (fun st : W * trace => f (fst st)) (@sleep W ms).
Proof. intros [w tr]. reflexivity. Qed.

Lemma keeps_loop1 (maxRetries : Z) (trips : nat) :
  forall attempt lastError,
    keeps (fun st : W * trace => f (fst st))
      (RetryV1.loop operation maxRetries trips attempt lastError).
Proof.
  induction trips as [|trips IH]; intros attempt lastError.
  - apply keeps_throw.
  - rewrite loop1_S. apply keeps_try_catch; [apply keeps_invoke|].
    intros error. unfold RetryV1.on_error. destruct error as [|e].
    + apply keeps_raise.
    + apply keeps_if; [apply keeps_throw|].
      apply keeps_bind; [|intros _; apply IH].
      apply keeps_if; [apply keeps_sleep | apply keeps_ret].
Qed.

(** The wrapper touches the world only through the operation. *)
Lemma keeps_retry (maxRetries : option Z) :
  keeps (fun st : W * trace => f (fst st))
    (RetryV1.retryWithBackoff operation maxRetries).
Proof. apply keeps_loop1. Qed.

End KeepsRetry.

(** The client's own retries touch the world only through the request. *)
Lemma keeps_sdk_request {A X} (f : World -> X) (maxRetries : nat) (request : IO World A) :
  keeps f request -> keeps f (sdk_request maxRetries request).
Proof.
  intros Hrequest. induction maxRetries as [|n IH]; [exact Hrequest|].
  cbn [sdk_request]. apply keeps_try_catch; [exact Hrequest|].
  intros v. apply keeps_if; [exact IH | apply keeps_throw].
Qed.

(** ** One turn and the message store *)

Ltac keeps_steps :=
  repeat match goal with
    | |- keeps _ (ret _) => apply keeps_ret
    | |- keeps _ (throw _) => apply keeps_throw
    | |- keeps _ (raise _) => apply keeps_raise
    | |- keeps _ get => apply keeps_get
    | |- keeps _ (if _ then _ else _) => apply keeps_if
    | |- keeps _ (bind _ _) => apply keeps_bind
    | |- keeps _ (try_catch _ _) => apply keeps_try_catch
    | |- forall _, _ => intro
    end.

Lemma connectDB_keeps {X} (f : World -> X) : keeps f connectDB.
Proof. intros w. unfold connectDB. destruct (db_down w); reflexivity. Qed.

Lemma cast_keeps {X} (f : World -> X) (value path model : string) :
  keeps f (SessionV1.cast value path model).
Proof.
  unfold SessionV1.cast. destruct (parseObjectId value); keeps_steps.
Qed.

Lemma store_op_keeps_messages : keeps messages store_op.
Proof. intros w. unfold store_op. destruct (db_faults w) as [|[e|] rest]; reflexivity. Qed.

Lemma whisper_create_keeps_messages (path : string) : keeps messages (whisper_create path).
Proof.
  intros w. unfold whisper_create. destruct (files w !! path); [|reflexivity].
  cbn [whisper log_call]. destruct (whisper w); reflexivity.
Qed.

Lemma chat_create_keeps_messages (prompt : list ChatMessage) :
  keeps messages (chat_create prompt).
Proof.
  intros w. unfold chat_create. cbn [chat log_call]. destruct (chat w); reflexivity.
Qed.

Lemma speech_create_keeps_messages (input : string) :
  keeps messages (speech_create input).
Proof.
  intros w. unfold speech_create. cbn [speech log_call]. destruct (speech w); reflexivity.
Qed.

Lemma transcribeAudio_keeps_messages (path : string) :
  keeps messages (SttV1.transcribeAudio path).
Proof.
  unfold SttV1.transcribeAudio. keeps_steps. apply whisper_create_keeps_messages.
Qed.

Lemma generateResponse_keeps_messages (userText : string) (history : list ChatMessage) :
  keeps messages (LlmV1.generateResponse userText history).
Proof.
  unfold LlmV1.generateResponse. keeps_steps; [apply chat_create_keeps_messages|].
  destruct a as [t|]; keeps_steps.
Qed.

Lemma synthesizeSpeech_keeps_messages (text : string) :
  keeps messages (TtsV1.synthesizeSpeech text).
Proof.
  unfold TtsV1.synthesizeSpeech. keeps_steps. apply speech_create_keeps_messages.
Qed.

Lemma getConversationHistory_keeps_messages (sessionId : string) (limit : option Z) :
  keeps messages (ConversationV1.getConversationHistory sessionId limit).
Proof.
  unfold ConversationV1.getConversationHistory, ConversationV1.Message_find.
  keeps_steps; first [apply connectDB_keeps | apply cast_keeps | apply store_op_keeps_messages].
Qed.

(** Nothing is written to the message store before the first save. *)
Lemma before_saving_keeps_messages (sessionId audioFilePath : string) :
  keeps (fun st : World * trace => messages (fst st))
    (VoiceV1.before_saving sessionId audioFilePath).
Proof.
  unfold VoiceV1.before_saving. keeps_steps.
  - apply (keeps_retry messages), transcribeAudio_keeps_messages.
  - apply (keeps_lift messages), getConversationHistory_keeps_messages.
  - apply (keeps_retry messages), generateResponse_keeps_messages.
  - apply (keeps_retry messages), synthesizeSpeech_keeps_messages.
Qed.

(** One [saveMessage]: it throws and writes nothing, or it returns and has
    appended the message, stamped with the time of the call. *)
Lemma saveMessage_appends_or_throws (sessionId : string) (r : role)
    (content : string) (w : World) :
  match ConversationV1.saveMessage sessionId r content w with
  | (Return _, w') =>
      exists sid,
        parseObjectId sessionId = Some sid /\
        messages w' = messages w ++ [mkMessage sid r content (clock w)] /\
        clock w' = clock w
  | (Throw _, w') => messages w' = messages w
  end.
Proof.
  unfold ConversationV1.saveMessage, ConversationV1.Message_create,
    SessionV1.cast_field, connectDB, store_op, now, bind, try_catch, ret, raise,
    throw, modify.
  destruct (db_down w); [reflexivity|].
  destruct (parseObjectId sessionId) as [sid|]; [|reflexivity].
  destruct (String.length content =? 0)%nat; [reflexivity|].
  destruct (db_faults w) as [|[e|] rest]; try reflexivity;
    exists sid; repeat split; reflexivity.
Qed.

(** How [handleVoiceConversation] continues after its first four steps. *)
Lemma handleVoiceConversation_after_steps (sessionId audioFilePath : string)
    (st : World * trace) :
  VoiceV1.handleVoiceConversation sessionId audioFilePath st
  = match VoiceV1.before_saving sessionId audioFilePath st with
    | (Throw v, st1) => (Throw v, st1)
    | (Return (transcript, responseText, audio), st1) =>
        match lift (ConversationV1.saveMessage sessionId user transcript) st1 with
        | (Throw v, st2) => (Throw v, st2)
        | (Return _, st2) =>
            match lift (ConversationV1.saveMessage sessionId assistant responseText) st2 with
            | (Throw v, st3) => (Throw v, st3)
            | (Return _, st3) => (Return (mkResult audio transcript responseText), st3)
            end
        end
    end.
Proof.
  unfold VoiceV1.handleVoiceConversation, VoiceV1.before_saving, bind, try_catch,
    throw, ret.
  destruct (RetryV1.retryWithBackoff (SttV1.transcribeAudio audioFilePath) (Some 2) st)
    as [[transcript|v] st1]; [|reflexivity].
  destruct (empty_or_blank transcript); [reflexivity|].
  destruct (lift (ConversationV1.getConversationHistory sessionId (Some 20)) st1)
    as [[history|v] st2]; [|reflexivity].
  destruct (RetryV1.retryWithBackoff (LlmV1.generateResponse transcript history) (Some 2) st2)
    as [[responseText|v] st3]; [|reflexivity].
  destruct (RetryV1.retryWithBackoff (TtsV1.synthesizeSpeech responseText) (Some 2) st3)
    as [[audio|v] st4]; [|reflexivity].
  destruct (lift (ConversationV1.saveMessage sessionId user transcript) st4)
    as [[[]|v] st5]; [|reflexivity].
  destruct (lift (ConversationV1.saveMessage sessionId assistant responseText) st5)
    as [[[]|v] st6]; reflexivity.
Qed.

(** C2 fails when the second save does: the first one stays, and the user
    message is in the store without its reply. *)
Lemma user_message_without_reply :
  fst (VoiceV1.handleVoiceConversation session_id "/tmp/a.wav"
         (world_where_second_save_fails, []))
  = Throw (Exn storage_error) /\
  messages (fst (snd (VoiceV1.handleVoiceConversation session_id "/tmp/a.wav"
                        (world_where_second_save_fails, []))))
  = messages world_where_second_save_fails ++ [mkMessage session_id user "hello" 0] /\
  ~ turn_atomic session_id "/tmp/a.wav" world_where_second_save_fails.
Proof.
  split; [vm_compute; reflexivity|]. split; [vm_compute; reflexivity|].
  unfold turn_atomic. intros Hclaim. vm_compute in Hclaim. discriminate Hclaim.
Qed.

(** C2, amended. A failure in any step before the first save (transcription,
    the check for speech, loading the history, generation, synthesis) leaves
    the message store as it was and is the failure of the turn.  When those
    steps succeed, the turn either returns, having appended the user message
    and then the assistant message, or it throws in one of the two saves,
    having appended nothing or the user message alone. *)
Theorem turn_persistence (sessionId audioFilePath : string) (st : World * trace) :
  match VoiceV1.before_saving sessionId audioFilePath st with
  | (Throw v, st1) =>
      VoiceV1.handleVoiceConversation sessionId audioFilePath st = (Throw v, st1) /\
      messages (fst st1) = messages (fst st)
  | (Return (transcript, responseText, audio), _) =>
      match VoiceV1.handleVoiceConversation sessionId audioFilePath st with
      | (Return r, st') =>
          r = mkResult audio transcript responseText /\
          exists sid t1 t2,
            messages (fst st')
            = messages (fst st) ++ [ mkMessage sid user transcript t1;
                                     mkMessage sid assistant responseText t2 ]
      | (Throw _, st') =>
          messages (fst st') = messages (fst st) \/
          exists sid t1,
            messages (fst st') = messages (fst st) ++ [mkMessage sid user transcript t1]
      end
  end.
Proof.
  rewrite handleVoiceConversation_after_steps.
  pose proof (before_saving_keeps_messages sessionId audioFilePath st) as Hkept.
  destruct (VoiceV1.before_saving sessionId audioFilePath st)
    as [[[[transcript responseText] audio]|v] [w1 tr1]]; cbn [fst snd] in Hkept.
  2: { split; [reflexivity | exact Hkept]. }
  unfold lift.
  pose proof (saveMessage_appends_or_throws sessionId user transcript w1) as Hfirst.
  destruct (ConversationV1.saveMessage sessionId user transcript w1) as [[[]|v] w2];
    cbn [fst].
  2: { left. rewrite Hfirst. exact Hkept. }
  destruct Hfirst as (sid & Hsid & Hm2 & Hclock).
  pose proof (saveMessage_appends_or_throws sessionId assistant responseText w2) as Hsecond.
  destruct (ConversationV1.saveMessage sessionId assistant responseText w2) as [[[]|v] w3];
    cbn [fst].
  - split; [reflexivity|].
    destruct Hsecond as (sid' & Hsid' & Hm3 & _).
    exists sid, (clock w1), (clock w2).
    rewrite Hm3, Hm2, Hkept, <- app_assoc.
    replace sid' with sid by congruence. reflexivity.
  - right. exists sid, (clock w1). rewrite Hsecond, Hm2, Hkept. reflexivity.
Qed.

(** ** The route and its temporary files *)

(** C1 at an upload that the validator rejects: the route answers 400 from
    inside its [try] block, past both clean-up sites, and the temporary file
    it wrote is still on disk when the response is returned. *)
Theorem rejected_upload_stays_on_disk :
  files world_before_upload !! uploaded_path = None /\
  fst (RouteV1.serve env0 (upload long_clip) world_before_upload)
  = Return (JsonResponse 400 "VALIDATION_ERROR"
              "Audio duration too long (400s). Maximum: 300s") /\
  files (snd (RouteV1.serve env0 (upload long_clip) world_before_upload)) !! uploaded_path
  = Some long_clip.
Proof.
  repeat split; vm_compute; reflexivity.
Qed.

(** The other exits of the same route do remove what they wrote: a turn that
    succeeds, and a turn whose transcription fails on every attempt. *)
Example successful_turn_leaves_no_file :
  fst (RouteV1.serve env0 (upload clip) world_before_upload)
  = Return (AudioResponse 200 "mp3-bytes" fresh_session_id "hello" (Some "hi there")) /\
  files (snd (RouteV1.serve env0 (upload clip) world_before_upload)) = ∅.
Proof.
  split; vm_compute; reflexivity.
Qed.

Example failed_turn_leaves_no_file :
  fst (RouteV1.serve env0 (upload clip) (set_whisper [] world_before_upload))
  = Return (JsonResponse 500 "INTERNAL_SERVER_ERROR" "An internal server error occurred") /\
  files (snd (RouteV1.serve env0 (upload clip) (set_whisper [] world_before_upload))) = ∅.
Proof.
  split; vm_compute; reflexivity.
Qed.

(** X24. The first generation's route and every upload: once the file is
    written, a rejection by the validator is answered at once, with the file
    in place. *)
Lemma rejected_upload_survives (env : Env) (userId : string) (audioFile : File)
    (sessionId : option string) (w : World) (tr : trace) (l : RouteV1.Locals) :
  write_error w = None ->
  exists path w2,
    files w2 !! path = Some (file_content audioFile) /\
    forall r,
      AudioV1.validateAudio env path w2 = (Return r, w2) ->
      valid r = false ->
      RouteV1.POST_upload env userId audioFile sessionId ((w, tr), l)
      = (Return (RouteV1.validation_error (default "" (error r))),
         ((w2, tr), RouteV1.mkLocals (Some path) (RouteV1.preparedPath l))).
Proof.
  intros Hwrite.
  destruct (randomUUID w) as [ru w1] eqn:Huuid.
  assert (Hu : exists uuid, ru = Return uuid /\ write_error w1 = None).
  { unfold randomUUID in Huuid. destruct (uuids w); inversion Huuid; subst;
      eexists; split; try reflexivity; exact Hwrite. }
  destruct Hu as (uuid & -> & Hwrite1).
  set (path := RouteV1.path_join (RouteV1.path_join (cwd env) "uploads")
                 (uuid +:+ "-" +:+ or_string (Some (file_name audioFile)) "audio")).
  exists path, (set_files (insert path (file_content audioFile)) w1).
  split; [apply lookup_insert_eq|].
  intros r Hr Hinvalid.
  unfold RouteV1.POST_upload, RouteV1.on_world, RouteV1.assign_audioFilePath,
    lift, bind, modify, writeFile.
  rewrite Huuid. fold path. rewrite Hwrite1, Hr, Hinvalid. reflexivity.
Qed.

(** ** Triples *)

Section Triples.

Context {S : Type}.

Lemma hoare_ret {A} (a : A) (Q : A -> S -> Prop) (E : thrown -> S -> Prop) :
  hoare (Q a) (ret a) Q E.
Proof. intros s Hs. exact Hs. Qed.

Lemma hoare_bind {A B} (P : S -> Prop) (c : IO S A) (k : A -> IO S B)
    (Q : A -> S -> Prop) (R : B -> S -> Prop) (E : thrown -> S -> Prop) :
  hoare P c Q E -> (forall a, hoare (Q a) (k a) R E) -> hoare P (bind c k) R E.
Proof.
  intros Hc Hk s Hs. unfold bind. specialize (Hc s Hs).
  destruct (c s) as [[a|v] s']; [exact (Hk a s' Hc) | exact Hc].
Qed.

Lemma hoare_try_catch {A} (P : S -> Prop) (c : IO S A) (h : thrown -> IO S A)
    (Q : A -> S -> Prop) (E E' : thrown -> S -> Prop) :
  hoare P c Q E -> (forall v, hoare (E v) (h v) Q E') -> hoare P (try_catch c h) Q E'.
Proof.
  intros Hc Hh s Hs. unfold try_catch. specialize (Hc s Hs).
  destruct (c s) as [[a|v] s']; [exact Hc | exact (Hh v s' Hc)].
Qed.

(** A [finally] block that does not throw takes each postcondition of the
    [try] block to the corresponding one of the whole. *)
Lemma hoare_try_finally {A} (P : S -> Prop) (c : IO S A) (f : IO S unit)
    (Q Q' : A -> S -> Prop) (E E' : thrown -> S -> Prop) :
  hoare P c Q E ->
  (forall a, hoare (Q a) f (fun _ => Q' a) (fun _ _ => False)) ->
  (forall v, hoare (E v) f (fun _ => E' v) (fun _ _ => False)) ->
  hoare P (try_finally c f) Q' E'.
Proof.
  intros Hc Hq He s Hs. unfold try_finally. specialize (Hc s Hs).
  destruct (c s) as [[a|v] s'].
  - specialize (Hq a s' Hc). destruct (f s') as [[[]|v'] s'']; [exact Hq | destruct Hq].
  - specialize (He v s' Hc). destruct (f s') as [[[]|v'] s'']; [exact He | destruct He].
Qed.

Lemma hoare_weaken {A} (P P' : S -> Prop) (c : IO S A)
    (Q Q' : A -> S -> Prop) (E E' : thrown -> S -> Prop) :
  hoare P' c Q' E' ->
  (forall s, P s -> P' s) ->
  (forall a s, Q' a s -> Q a s) ->
  (forall v s, E' v s -> E v s) ->
  hoare P c Q E.
Proof.
  intros Hc HP HQ HE s Hs. specialize (Hc s (HP s Hs)).
  destruct (c s) as [[a|v] s']; [exact (HQ a s' Hc) | exact (HE v s' Hc)].
Qed.

Lemma hoare_if {A} (b : bool) (P : S -> Prop) (c1 c2 : IO S A)
    (Q : A -> S -> Prop) (E : thrown -> S -> Prop) :
  (b = true -> hoare P c1 Q E) -> (b = false -> hoare P c2 Q E) ->
  hoare P (if b then c1 else c2) Q E.
Proof. destruct b; intros H1 H2; [apply H1 | apply H2]; reflexivity. Qed.

(** What a computation keeps, it keeps under any assertion on it. *)
Lemma hoare_keeps {A X} (f : S -> X) (I : X -> Prop) (c : IO S A) :
  keeps f c -> hoare (fun s => I (f s)) c (fun _ s => I (f s)) (fun _ s => I (f s)).
Proof.
  intros Hc s Hs. specialize (Hc s).
  destruct (c s) as [[a|v] s']; cbn [snd] in Hc; rewrite Hc; exact Hs.
Qed.

End Triples.

Lemma hoare_lift {S L A} (P : S -> Prop) (c : IO S A)
    (Q : A -> S -> Prop) (E : thrown -> S -> Prop) :
  hoare P c Q E ->
  hoare (fun st : S * L => P (fst st)) (lift c)
    (fun a st => Q a (fst st)) (fun v st => E v (fst st)).
Proof.
  intros Hc [s l] Hs. unfold lift. specialize (Hc s Hs).
  destruct (c s) as [[a|v] s']; exact Hc.
Qed.

(** ** What leaves the disk alone *)

Ltac by_cases_on_the_world :=
  let w := fresh "w" in
  intros w;
  repeat match goal with
    | |- context [match ?x with _ => _ end] => destruct x
    end;
  reflexivity.

Lemma store_op_keeps_files : keeps files store_op.
Proof. unfold store_op. by_cases_on_the_world. Qed.

Lemma fresh_id_keeps_files : keeps files fresh_id.
Proof. unfold fresh_id. by_cases_on_the_world. Qed.

Lemma now_keeps_files : keeps files now.
Proof. intros w. reflexivity. Qed.

Lemma existsSync_keeps_files (path : string) : keeps files (existsSync path).
Proof. intros w. reflexivity. Qed.

Lemma statSync_size_keeps_files (path : string) : keeps files (statSync_size path).
Proof. unfold statSync_size. by_cases_on_the_world. Qed.

Lemma ffprobe_duration_keeps_files (path : string) : keeps files (ffprobe_duration path).
Proof. unfold ffprobe_duration. by_cases_on_the_world. Qed.

Lemma whisper_create_keeps_files (path : string) : keeps files (whisper_create path).
Proof.
  intros w. unfold whisper_create. destruct (files w !! path); [|reflexivity].
  cbn [whisper log_call]. destruct (whisper w); reflexivity.
Qed.

Lemma chat_create_keeps_files (prompt : list ChatMessage) : keeps files (chat_create prompt).
Proof.
  intros w. unfold chat_create. cbn [chat log_call]. destruct (chat w); reflexivity.
Qed.

Lemma speech_create_keeps_files (input : string) : keeps files (speech_create input).
Proof.
  intros w. unfold speech_create. cbn [speech log_call]. destruct (speech w); reflexivity.
Qed.

Lemma set_sessions_keeps_files (g : gmap ObjectId SessionDoc -> gmap ObjectId SessionDoc) :
  keeps files (modify (set_sessions g)).
Proof. intros w. reflexivity. Qed.

Lemma set_messages_keeps_files (g : list MessageDoc -> list MessageDoc) :
  keeps files (modify (set_messages g)).
Proof. intros w. reflexivity. Qed.

Ltac keeps_files_steps :=
  repeat (keeps_steps;
          try first
            [ apply connectDB_keeps | apply cast_keeps
            | apply store_op_keeps_files | apply fresh_id_keeps_files
            | apply now_keeps_files | apply existsSync_keeps_files
            | apply statSync_size_keeps_files | apply ffprobe_duration_keeps_files
            | apply whisper_create_keeps_files | apply chat_create_keeps_files
            | apply speech_create_keeps_files
            | apply set_sessions_keeps_files | apply set_messages_keeps_files
            | match goal with
              | |- keeps _ (match ?x with _ => _ end) => destruct x
              end ]).

Lemma validateAudio2_keeps_files (filePath : string) :
  keeps files (AudioV2.validateAudio filePath).
Proof. unfold AudioV2.validateAudio. keeps_files_steps. Qed.

Lemma createSession2_keeps_files (userId : string) :
  keeps files (ConversationV2.createSession userId).
Proof. unfold ConversationV2.createSession. keeps_files_steps. Qed.

Lemma getSession2_keeps_files (sessionId userId : string) :
  keeps files (ConversationV2.getSession sessionId userId).
Proof. unfold ConversationV2.getSession. keeps_files_steps. Qed.

Lemma getOrCreateSession2_keeps_files (userId : string) (sessionId : option string) :
  keeps files (ConversationV2.getOrCreateSession userId sessionId).
Proof.
  unfold ConversationV2.getOrCreateSession. keeps_files_steps;
    first [apply getSession2_keeps_files | apply createSession2_keeps_files].
Qed.

Lemma getConversationHistory2_keeps_files (sessionId : string) (limit : option Z) :
  keeps files (ConversationV2.getConversationHistory sessionId limit).
Proof. unfold ConversationV2.getConversationHistory. keeps_files_steps. Qed.

Lemma saveMessage2_keeps_files (sessionId : string) (r : role) (content : string) :
  keeps files (ConversationV2.saveMessage sessionId r content).
Proof. unfold ConversationV2.saveMessage. keeps_files_steps. Qed.

Lemma transcribeAudio2_keeps_files (path : string) :
  keeps files (SttV2.transcribeAudio path).
Proof. unfold SttV2.transcribeAudio. keeps_files_steps. Qed.

Lemma generateResponse2_keeps_files (userText : string) (history : list ChatMessage) :
  keeps files (LlmV2.generateResponse userText history).
Proof.
  unfold LlmV2.generateResponse. keeps_files_steps.
  apply keeps_sdk_request, chat_create_keeps_files.
Qed.

Lemma synthesizeSpeech2_keeps_files (text : string) :
  keeps files (TtsV2.synthesizeSpeech text).
Proof.
  unfold TtsV2.synthesizeSpeech. keeps_files_steps.
  apply keeps_sdk_request, speech_create_keeps_files.
Qed.

Section KeepsRetry2.

Context {W T X : Type} (f : W -> X) (operation : IO W T).
Hypothesis operation_keeps : keeps f operation.

Lemma keeps_loop2 (maxRetries : Z) (trips : nat) :
  forall attempt lastError,
    keeps (fun st : W * trace => f (fst st))
      (RetryV2.loop operation maxRetries trips attempt lastError).
Proof.
  induction trips as [|trips IH]; intros attempt lastError.
  - apply keeps_throw.
  - rewrite loop2_S.
    apply keeps_try_catch; [apply keeps_invoke; exact operation_keeps|].
    intros error. unfold RetryV2.on_error.
    apply keeps_if; [apply keeps_throw|].
    apply keeps_bind; [|intros _; apply IH].
    apply keeps_if; [apply keeps_sleep | apply keeps_ret].
Qed.

Lemma keeps_retry2 (maxRetries : option Z) :
  keeps (fun st : W * trace => f (fst st))
    (RetryV2.retryWithBackoff operation maxRetries).
Proof. apply keeps_loop2. Qed.

End KeepsRetry2.

(** ** The second generation's route removes what it wrote *)

Lemma files_set_files (g : gmap string FileMeta -> gmap string FileMeta) (w : World) :
  files (set_files g w) = g (files w).
Proof. reflexivity. Qed.

Section TemporaryFiles.

Context (before : gmap string FileMeta).

Lemma only_temporaries_more (temporary temporary' : list string)
    (present : gmap string FileMeta) :
  (forall p, In p temporary -> In p temporary') ->
  only_temporaries before temporary present ->
  only_temporaries before temporary' present.
Proof.
  intros Hincl Hpresent p f Hp.
  destruct (Hpresent p f Hp) as [Hold | [Hin Hrem]]; [left; exact Hold|].
  right. split; [apply Hincl, Hin | exact Hrem].
Qed.

Lemma only_temporaries_none (present : gmap string FileMeta) :
  only_temporaries before [] present -> present ⊆ before.
Proof.
  intros Hpresent. apply map_subseteq_spec. intros p f Hp.
  destruct (Hpresent p f Hp) as [Hold | [[] _]]. exact Hold.
Qed.

(** A quiet [unlink] never throws, and takes its path off the list of
    temporary files: the file is gone, or it could not be removed and so is
    one of those that were there before. *)
Lemma unlink_quietly_clears (path : string) (temporary : list string) :
  hoare (fun w => only_temporaries before (path :: temporary) (files w))
    (RouteV2.unlink_quietly path)
    (fun _ w => only_temporaries before temporary (files w))
    (fun _ _ => False).
Proof.
  intros w Hw. unfold RouteV2.unlink_quietly, try_catch, unlink, ret.
  destruct (files w !! path) as [f|] eqn:Hpath.
  - destruct (f_unlink_error f) as [e|] eqn:Herr.
    + intros p g Hp. destruct (Hw p g Hp) as [Hold | [[<- | Hin] Hrem]].
      * left. exact Hold.
      * rewrite Hpath in Hp. inversion Hp; subst g.
        unfold removable in Hrem. congruence.
      * right. split; assumption.
    + intros p g Hp. rewrite files_set_files in Hp.
      apply lookup_delete_Some in Hp as [Hne Hp].
      destruct (Hw p g Hp) as [Hold | [[-> | Hin] Hrem]].
      * left. exact Hold.
      * congruence.
      * right. split; assumption.
  - intros p g Hp. destruct (Hw p g Hp) as [Hold | [[<- | Hin] Hrem]].
    + left. exact Hold.
    + congruence.
    + right. split; assumption.
Qed.

Lemma writeFile_written (tmp : string) (content : FileMeta) :
  removable content -> leaves_nothing content ->
  hoare (fun w => files w = before)
    (writeFile tmp content)
    (fun _ w => written before tmp w)
    (fun _ w => only_temporaries before [tmp] (files w)).
Proof.
  intros Hcontent Hclean w Hw. unfold writeFile.
  destruct (write_error w) as [e|].
  - intros p f Hp. left. rewrite <- Hw. exact Hp.
  - unfold written. rewrite files_set_files. split.
    + intros p f Hp. apply lookup_insert_Some in Hp as [[<- <-] | [Hne Hp]].
      * right. split; [left; reflexivity | exact Hcontent].
      * left. rewrite <- Hw. exact Hp.
    + intros f Hf. rewrite lookup_insert_eq in Hf. inversion Hf; subst f.
      split; assumption.
Qed.

(** Conversion either fails and leaves the disk as it was, or returns the
    path of the converted file, with the upload removed. *)
Lemma prepareAudioForWhisper_stages (tmp : string) :
  hoare (written before tmp)
    (RouteV2.prepareAudioForWhisper tmp)
    (fun p w => p = tmp +:+ ".wav" /\
                only_temporaries before [tmp +:+ ".wav"; tmp] (files w))
    (fun _ w => written before tmp w).
Proof.
  intros w Hwritten. pose proof Hwritten as [Hw Htmp].
  unfold RouteV2.prepareAudioForWhisper, ffmpeg, bind.
  destruct (files w !! tmp) as [f0|] eqn:H0; [|exact Hwritten].
  pose proof (Htmp f0 eq_refl) as [Hrem Hclean]. unfold leaves_nothing in Hclean.
  destruct (f_ffmpeg f0) as [|[partial|]]; [|destruct Hclean|exact Hwritten].
  assert (Hstaged : only_temporaries before [tmp +:+ ".wav"; tmp]
                      (<[tmp +:+ ".wav" := f0]> (files w))).
  { intros p f Hp. apply lookup_insert_Some in Hp as [[<- <-] | [Hne Hp]].
    - right. split; [left; reflexivity | exact Hrem].
    - destruct (Hw p f Hp) as [Hold | [Hin Hr]]; [left; exact Hold|].
      right. split; [right; exact Hin | exact Hr]. }
  unfold existsSync, unlink, ret. rewrite !files_set_files.
  destruct (String.eqb tmp (tmp +:+ ".wav")) eqn:Heq.
  - destruct (<[tmp +:+ ".wav" := f0]> (files w) !! tmp); cbn [negb andb];
      split; [reflexivity | exact Hstaged | reflexivity | exact Hstaged].
  - apply String.eqb_neq in Heq.
    assert (Hl : <[tmp +:+ ".wav" := f0]> (files w) !! tmp = Some f0).
    { rewrite lookup_insert_ne; [exact H0 | intros Hsame; apply Heq; symmetry; exact Hsame]. }
    rewrite Hl. cbn [negb andb]. rewrite files_set_files, Hl.
    unfold removable in Hrem. rewrite Hrem. rewrite !files_set_files.
    split; [reflexivity|].
    intros p f Hp. apply lookup_delete_Some in Hp as [_ Hp]. exact (Hstaged p f Hp).
Qed.

End TemporaryFiles.

Section SecondGenerationRoute.

Context (before : gmap string FileMeta) (tmp : string).

Local Abbreviation tidy :=
  (fun st : World * trace => only_temporaries before [tmp] (files (fst st))).
Local Abbreviation fresh :=
  (fun st : World * trace => written before tmp (fst st)).
Local Abbreviation staged :=
  (fun st : World * trace =>
     only_temporaries before [tmp +:+ ".wav"; tmp] (files (fst st))).

(** What keeps the disk keeps each of the three assertions, and on a throw
    at least the weakest of them. *)
Lemma kept_fresh {A} (c : IO (World * trace) A) :
  keeps (fun st : World * trace => files (fst st)) c ->
  hoare fresh c (fun _ => fresh) (fun _ => tidy).
Proof.
  intros Hc.
  apply (hoare_weaken _ _ _ _ _ _ _
           (hoare_keeps (fun st : World * trace => files (fst st))
              (fun fs => only_temporaries before [tmp] fs /\
                         forall f, fs !! tmp = Some f ->
                                   removable f /\ leaves_nothing f) c Hc)).
  - intros s Hs. exact Hs.
  - intros a s Hs. exact Hs.
  - intros v s [Hs _]. exact Hs.
Qed.

Lemma kept_tidy {A} (c : IO (World * trace) A) :
  keeps (fun st : World * trace => files (fst st)) c ->
  hoare tidy c (fun _ => tidy) (fun _ => tidy).
Proof.
  intros Hc.
  exact (hoare_keeps (fun st : World * trace => files (fst st))
           (fun fs => only_temporaries before [tmp] fs) c Hc).
Qed.

Lemma kept_staged {A} (c : IO (World * trace) A) :
  keeps (fun st : World * trace => files (fst st)) c ->
  hoare staged c (fun _ => staged) (fun _ => staged).
Proof.
  intros Hc.
  exact (hoare_keeps (fun st : World * trace => files (fst st))
           (fun fs => only_temporaries before [tmp +:+ ".wav"; tmp] fs) c Hc).
Qed.

Lemma unlink_tmp_tidy :
  hoare fresh (lift (RouteV2.unlink_quietly tmp)) (fun _ => tidy) (fun _ => tidy).
Proof.
  apply (hoare_weaken _ _ _ _ _ _ _
           (hoare_lift _ _ _ _ (unlink_quietly_clears before tmp []))).
  - intros s [Hs _]. exact Hs.
  - intros a s Hs. apply (only_temporaries_more before [] [tmp]); [intros p []|exact Hs].
  - intros v s [].
Qed.

(** The [try] block of the route ends, one way or the other, with nothing
    new on disk but possibly the upload itself. *)
Lemma attempt_tidy (userId : string) (audioFile : File) (sessionId : option string) :
  removable (file_content audioFile) ->
  leaves_nothing (file_content audioFile) ->
  hoare (fun st : World * trace => files (fst st) = before)
    (RouteV2.attempt userId tmp audioFile sessionId)
    (fun _ => tidy) (fun _ => tidy).
Proof.
  intros Hcontent Hclean. unfold RouteV2.attempt.
  apply (hoare_bind _ _ _ (fun _ => fresh)).
  { exact (hoare_lift _ _ _ _ (writeFile_written before tmp _ Hcontent Hclean)). }
  intros _.
  apply (hoare_bind _ _ _ (fun _ => fresh)).
  { apply kept_fresh, (keeps_lift files), validateAudio2_keeps_files. }
  intros validation. apply hoare_if; intros _.
  { apply (hoare_bind _ _ _ (fun _ => tidy)); [apply unlink_tmp_tidy|].
    intros _ s Hs. exact Hs. }
  apply (hoare_bind _ _ _ (fun _ => fresh)).
  { apply kept_fresh, (keeps_lift files), getOrCreateSession2_keeps_files. }
  intros activeSessionId.
  apply (hoare_bind _ _ _
           (fun prepared st =>
              match prepared with
              | inl _ => tidy st
              | inr p => p = tmp +:+ ".wav" /\ staged st
              end)).
  { apply (hoare_try_catch _ _ _ _ (fun _ => fresh)).
    - apply (hoare_bind _ _ _ (fun p st => p = tmp +:+ ".wav" /\ staged st)).
      + exact (hoare_lift _ _ _ _ (prepareAudioForWhisper_stages before tmp)).
      + intros p s Hs. exact Hs.
    - intros e.
      apply (hoare_bind _ _ _ (fun _ => tidy)); [apply unlink_tmp_tidy|].
      intros _ s Hs. exact Hs. }
  intros [refused | preparedPath].
  { intros s Hs. exact Hs. }
  apply (hoare_weaken (fun st => preparedPath = tmp +:+ ".wav" /\ staged st)
           (fun st => preparedPath = tmp +:+ ".wav" /\ staged st) _
           (fun _ => tidy) (fun _ => tidy) (fun _ => tidy) (fun _ => tidy));
    [|tauto|tauto|tauto].
  intros s [-> Hs]. revert s Hs.
  change (hoare staged
            (transcript <-
               try_finally
                 (RetryV2.retryWithBackoff
                    (SttV2.transcribeAudio (tmp +:+ ".wav")) (Some 2))
                 (lift (RouteV2.unlink_quietly (tmp +:+ ".wav"))) ;;
             if blank transcript
             then ret (RouteV2.validation_error "No speech detected in audio")
             else
               history <- lift (ConversationV2.getConversationHistory
                                  activeSessionId (Some 20)) ;;
               responseText <-
                 RetryV2.retryWithBackoff
                   (LlmV2.generateResponse transcript history) (Some 2) ;;
               audio <-
                 RetryV2.retryWithBackoff
                   (TtsV2.synthesizeSpeech responseText) (Some 2) ;;
               lift (ConversationV2.saveMessage activeSessionId user transcript) ;;;
               lift (ConversationV2.saveMessage activeSessionId assistant responseText) ;;;
               RouteV2.audio_response audio activeSessionId transcript)
            (fun _ => tidy) (fun _ => tidy)).
  apply (hoare_bind _ _ _ (fun _ => tidy)).
  { apply (hoare_try_finally _ _ _ (fun _ => staged) _ (fun _ => staged)).
    - apply kept_staged, (keeps_retry2 files), transcribeAudio2_keeps_files.
    - intros _. exact (hoare_lift _ _ _ _ (unlink_quietly_clears before _ [tmp])).
    - intros _. exact (hoare_lift _ _ _ _ (unlink_quietly_clears before _ [tmp])). }
  intros transcript. apply hoare_if; intros _; [intros s Hs; exact Hs|].
  apply (hoare_bind _ _ _ (fun _ => tidy)).
  { apply kept_tidy, (keeps_lift files), getConversationHistory2_keeps_files. }
  intros history.
  apply (hoare_bind _ _ _ (fun _ => tidy)).
  { apply kept_tidy, (keeps_retry2 files), generateResponse2_keeps_files. }
  intros responseText.
  apply (hoare_bind _ _ _ (fun _ => tidy)).
  { apply kept_tidy, (keeps_retry2 files), synthesizeSpeech2_keeps_files. }
  intros audio.
  apply (hoare_bind _ _ _ (fun _ => tidy)).
  { apply kept_tidy, (keeps_lift files), saveMessage2_keeps_files. }
  intros _.
  apply (hoare_bind _ _ _ (fun _ => tidy)).
  { apply kept_tidy, (keeps_lift files), saveMessage2_keeps_files. }
  intros _ s Hs. unfold RouteV2.audio_response.
  destruct (RouteV2.isValidHeaderValue _); [destruct (RouteV2.isValidHeaderValue _)|]; exact Hs.
Qed.

End SecondGenerationRoute.

(** X23. The clean-up guarantee, as the second generation keeps it, for an
    upload that the file system lets go of and that [ffmpeg] converts or
    fails on without leaving an incomplete output: whatever the caller, the
    providers and the store do, every file on disk after
    [handleConversation] was there before the request, and the function
    returns a response unless the form could not be read, which it throws
    on before anything else is done. *)
Theorem second_generation_removes_uploads (env : Env) (req : Request)
    (userId : string) (w : World) (tr : trace) :
  (forall form audioFile,
      formData req = Return form -> form_audio form = Some audioFile ->
      removable (file_content audioFile) /\ leaves_nothing (file_content audioFile)) ->
  exists r w' tr',
    RouteV2.handleConversation env req userId (w, tr) = (r, (w', tr')) /\
    files w' ⊆ files w /\
    match r with
    | Return _ => exists form, formData req = Return form
    | Throw v => formData req = Throw v /\ w' = w /\ tr' = tr
    end.
Proof.
  intros Hform. unfold RouteV2.handleConversation. unfold bind at 1.
  destruct (formData req) as [form|v] eqn:Hparsed.
  2: { exists (Throw v), w, tr. split; [reflexivity|]. split; [reflexivity|].
       repeat split. }
  unfold RouteV2.handle_form.
  destruct (form_audio form) as [audioFile|] eqn:Haudio.
  2: { eexists _, w, tr. split; [reflexivity|]. split; [reflexivity|].
       exists form. reflexivity. }
  destruct (f_size (file_content audioFile) =? 0).
  { eexists _, w, tr. split; [reflexivity|]. split; [reflexivity|].
    exists form. reflexivity. }
  unfold bind at 1, get.
  set (tmp := RouteV2.tmpPath_of env audioFile w).
  destruct (Hform form audioFile eq_refl Haudio) as [Hcontent Hclean].
  assert (Hroute :
    hoare (fun st : World * trace => files (fst st) = files w)
      (try_finally
         (try_catch
            (RouteV2.attempt userId tmp audioFile
               (SessionV1.truthy (form_sessionId form)))
            (fun error => ret (RouteV2.failure error)))
         (lift (RouteV2.unlink_quietly tmp)))
      (fun _ st => only_temporaries (files w) [] (files (fst st)))
      (fun _ _ => False)).
  { apply (hoare_try_finally _ _ _
             (fun _ st => only_temporaries (files w) [tmp] (files (fst st))) _
             (fun _ _ => False)).
    - apply (hoare_try_catch _ _ _ _
               (fun _ st => only_temporaries (files w) [tmp] (files (fst st)))).
      + apply attempt_tidy; assumption.
      + intros e s Hs. exact Hs.
    - intros _. exact (hoare_lift _ _ _ _ (unlink_quietly_clears (files w) tmp [])).
    - intros _ s []. }
  specialize (Hroute (w, tr) eq_refl). cbn [fst] in *.
  destruct (try_finally _ _ (w, tr)) as [[r|v] [w' tr']]; [|destruct Hroute].
  exists (Return r), w', tr'. split; [reflexivity|].
  split; [apply only_temporaries_none, Hroute|]. exists form. reflexivity.
Qed.

(** The upload that the first generation leaves behind, served by the second:
    the same rejection, and an empty disk. *)
Example second_generation_removes_rejected_upload :
  RouteV2.handleConversation env0
    (mkRequest None
       (Return (mkForm (Some (mkUpload "clip.wav" "audio/wav" long_clip)) None)))
    alice_id (world_before_upload, [])
  = (Return (JsonResponse 400 "VALIDATION_ERROR" "Audio duration too long (max 5 minutes)"),
     (world_before_upload, [])).
Proof.
  vm_compute. reflexivity.
Qed.

(** What the guarantee leaves out: a conversion that fails after it has
    begun to write.  The upload is removed, the caller is told 400, and the
    incomplete output stays where [ffmpeg] put it. *)
Example failed_conversion_leaves_its_output :
  exists w' tr',
    RouteV2.handleConversation env0 (upload torn_clip) alice_id (world_before_upload, [])
    = (Return (JsonResponse 400 "VALIDATION_ERROR" "Command failed: ffmpeg"), (w', tr')) /\
    files w' = {[ "/tmp/voice-0-clip.wav.wav" := corrupt_clip ]}.
Proof. eexists _, _. split; vm_compute; reflexivity. Qed.

(** * Further properties *)

(** ** The retry wrapper on operations that recover *)

Section RetryRecovers.

Context {W T : Type} (operation : IO W T) (v : T) (w' : W).

Lemma fails_then_returns_next (g : generation) (k : nat) (w : W) :
  fails_then_returns g operation (S k) w v w' ->
  fails_then_returns g operation k (snd (operation w)) v w'.
Proof.
  intros [Hfail Hret]. split.
  - intros i Hi. apply (Hfail (S i)). lia.
  - exact Hret.
Qed.

Lemma loop1_first_success (maxRetries : Z) (k : nat) :
  forall trips attempt lastError w tr,
    (k <= trips)%nat ->
    maxRetries + 1 = attempt + Z.of_nat (S trips) ->
    fails_then_returns Gen1 operation k w v w' ->
    RetryV1.loop operation maxRetries (S trips) attempt lastError (w, tr)
    = (Return v, (w', tr ++ schedule (delay_of Gen1) attempt (S k))).
Proof.
  induction k as [|k IH]; intros trips attempt lastError w tr Hk Hm Hop;
    rewrite loop1_S; unfold try_catch, invoke.
  - destruct Hop as [_ Hret]. cbn [world_after] in Hret. rewrite Hret. reflexivity.
  - destruct (proj1 Hop 0%nat) as (e & He & Hretry); [lia|].
    cbn [world_after] in He.
    pose proof (fails_then_returns_next Gen1 k w Hop) as Hnext.
    destruct (operation w) as [r w1]. cbn [fst snd] in *. subst r.
    unfold RetryV1.on_error. rewrite (retryable_not_client e Hretry).
    destruct trips as [|trips]; [lia|].
    replace (attempt <? maxRetries) with true by (symmetry; apply Z.ltb_lt; lia).
    unfold bind, sleep.
    rewrite (IH trips (attempt + 1)) by (first [lia | exact Hnext]).
    do 2 f_equal. rewrite <- !app_assoc. reflexivity.
Qed.

Lemma loop2_first_success (maxRetries : Z) (k : nat) :
  forall trips attempt lastError w tr,
    (k <= trips)%nat ->
    maxRetries + 1 = attempt + Z.of_nat (S trips) ->
    fails_then_returns Gen2 operation k w v w' ->
    RetryV2.loop operation maxRetries (S trips) attempt lastError (w, tr)
    = (Return v, (w', tr ++ schedule (delay_of Gen2) attempt (S k))).
Proof.
  induction k as [|k IH]; intros trips attempt lastError w tr Hk Hm Hop;
    rewrite loop2_S; unfold try_catch, invoke.
  - destruct Hop as [_ Hret]. cbn [world_after] in Hret. rewrite Hret. reflexivity.
  - destruct (proj1 Hop 0%nat) as (e & He & Hretry); [lia|].
    cbn [world_after] in He.
    pose proof (fails_then_returns_next Gen2 k w Hop) as Hnext.
    destruct (operation w) as [r w1]. cbn [fst snd] in *. subst r.
    unfold RetryV2.on_error. rewrite (retryable_not_below_500 e Hretry).
    destruct trips as [|trips]; [lia|].
    replace (attempt <? maxRetries) with true by (symmetry; apply Z.ltb_lt; lia).
    unfold bind, sleep.
    rewrite (IH trips (attempt + 1)) by (first [lia | exact Hnext]).
    do 2 f_equal. rewrite <- !app_assoc. reflexivity.
Qed.

End RetryRecovers.

(** X1. When an operation throws retryable errors on its first [k] runs and
    returns on the next, with [k] within the retry count, either generation
    of [retryWithBackoff] returns that value after [k + 1] invocations and
    [k] pauses, and invokes the operation no further. *)
Theorem retry_returns_first_success (g : generation) {W T : Type}
    (operation : IO W T) (maxRetries k : nat) (w w' : W) (tr : trace) (v : T) :
  (k <= maxRetries)%nat ->
  fails_then_returns g operation k w v w' ->
  retryWithBackoff_of g operation (Some (Z.of_nat maxRetries)) (w, tr)
  = (Return v, (w', tr ++ schedule (delay_of g) 0 (S k))).
Proof.
  intros Hk Hop.
  destruct g; cbn [retryWithBackoff_of];
    [unfold RetryV1.retryWithBackoff | unfold RetryV2.retryWithBackoff];
    cbv beta zeta iota delta [from_option id]; rewrite trip_count_of_nat.
  - apply loop1_first_success; [exact Hk | lia | exact Hop].
  - apply loop2_first_success; [exact Hk | lia | exact Hop].
Qed.

Lemma retry_returns_first_success_witness :
  retryWithBackoff_of Gen2 (flaky 2) (Some (Z.of_nat 2)) (0%nat, [])
  = (Return "ok",
     (3%nat, [] ++ [EvInvoke; EvSleep 1000; EvInvoke; EvSleep 2000; EvInvoke])).
Proof.
  apply (retry_returns_first_success Gen2 (flaky 2) 2 2 0%nat 3%nat [] "ok").
  - lia.
  - split.
    + intros i Hi. exists timeout_error.
      destruct i as [|[|i]];
        [ split; [reflexivity | split; reflexivity]
        | split; [reflexivity | split; reflexivity]
        | lia ].
    + reflexivity.
Defined.

Lemma retry_without_trips_witness :
  retryWithBackoff_of Gen1 (flaky 0) (Some (-1)) (0%nat, [])
  = (Throw Undefined, (0%nat, [])).
Proof.
  apply (retry_without_trips Gen1 (flaky 0) (-1) (0%nat, [])). lia.
Defined.

Lemma sleeps_app (tr1 tr2 : trace) : sleeps (tr1 ++ tr2) = sleeps tr1 ++ sleeps tr2.
Proof. unfold sleeps. apply omap_app. Qed.

Lemma sleeps_schedule_length (pause : Z -> Z) (k : nat) :
  forall attempt, length (sleeps (schedule pause attempt (S k))) = k.
Proof.
  induction k as [|k IH]; intros attempt; [reflexivity|].
  change (schedule pause attempt (S (S k)))
    with ([EvInvoke; EvSleep (pause attempt)] ++ schedule pause (attempt + 1) (S k)).
  rewrite sleeps_app, length_app, IH. reflexivity.
Qed.

(** X3. Whatever the operation does, either generation of [retryWithBackoff]
    run with a retry count [n] invokes it at least once and at most [n + 1]
    times, and sleeps exactly once between two consecutive invocations. *)
Theorem retry_invocations_bounded (g : generation) {W T : Type}
    (operation : IO W T) (n : nat) (w : W) (tr : trace) :
  exists calls,
    (1 <= calls <= n + 1)%nat /\
    invocations (snd (snd (retryWithBackoff_of g operation (Some (Z.of_nat n)) (w, tr))))
    = (invocations tr + calls)%nat /\
    length (sleeps (snd (snd (retryWithBackoff_of g operation (Some (Z.of_nat n)) (w, tr)))))
    = (length (sleeps tr) + (calls - 1))%nat.
Proof.
  destruct (retry_schedule g operation n w tr) as (k & Hk & Htr).
  exists k. split; [exact Hk|]. rewrite Htr. split.
  - rewrite invocations_app, invocations_schedule. reflexivity.
  - destruct k as [|k]; [lia|].
    rewrite sleeps_app, length_app, sleeps_schedule_length. lia.
Qed.

(** ** The provider clients of the first generation *)

(** X4. Whatever makes a client of the first generation fail, what it throws
    is a fresh [Error] made from a message: an [Error] instance without
    [status], so that the retry wrapper's test for client errors never fires
    on it and a 4xx answer of a provider is retried like a timeout. *)
Theorem first_generation_clients_drop_status :
  (forall path w v w',
      SttV1.transcribeAudio path w = (Throw v, w') ->
      exists msg, v = Exn (new_Error msg) /\ RetryV1.client_error (new_Error msg) = false) /\
  (forall userText history w v w',
      LlmV1.generateResponse userText history w = (Throw v, w') ->
      exists msg, v = Exn (new_Error msg) /\ RetryV1.client_error (new_Error msg) = false) /\
  (forall text w v w',
      TtsV1.synthesizeSpeech text w = (Throw v, w') ->
      exists msg, v = Exn (new_Error msg) /\ RetryV1.client_error (new_Error msg) = false).
Proof.
  split; [|split].
  - intros path w v w'. unfold SttV1.transcribeAudio, try_catch, raise, throw.
    destruct (whisper_create path w) as [[t|error] w1]; [discriminate|].
    intros [= <- <-]. eexists. split; reflexivity.
  - intros userText history w v w'.
    unfold LlmV1.generateResponse, try_catch, bind, raise, throw, ret.
    destruct (chat_create _ w) as [[[t|]|error] w1].
    + destruct (String.length t =? 0)%nat; [|discriminate].
      intros [= <- <-]. eexists. split; reflexivity.
    + intros [= <- <-]. eexists. split; reflexivity.
    + intros [= <- <-]. eexists. split; reflexivity.
  - intros text w v w'. unfold TtsV1.synthesizeSpeech, try_catch, raise, throw.
    destruct (empty_or_blank text).
    + intros [= <- <-]. eexists. split; reflexivity.
    + destruct (Z.of_nat (String.length text) >? TtsV1.limit).
      * intros [= <- <-]. eexists. split; reflexivity.
      * destruct (speech_create text w) as [[b|error] w1]; [discriminate|].
        intros [= <- <-]. eexists. split; reflexivity.
Qed.

(** A refused key under the wrapper: three transcription requests, two
    pauses, and an error that no longer says 401. *)
Example refused_key_is_retried :
  RetryV1.retryWithBackoff (SttV1.transcribeAudio "/tmp/a.wav") (Some 2)
    (world_with_bad_key, [])
  = (Throw (Exn (new_Error "STT timed out — please try speaking again")),
     (set_whisper []
        (log_call (CallWhisper "/tmp/a.wav")
           (log_call (CallWhisper "/tmp/a.wav")
              (log_call (CallWhisper "/tmp/a.wav") world_with_bad_key))),
      [EvInvoke; EvSleep 500; EvInvoke; EvSleep 500; EvInvoke])).
Proof. vm_compute. reflexivity. Qed.

Lemma slice_last_suffix {A} (n : nat) (l : list A) :
  exists older, l = older ++ slice_last n l.
Proof.
  exists (take (length l - n) l). unfold slice_last. symmetry. apply take_drop.
Qed.

Lemma slice_last_length {A} (n : nat) (l : list A) :
  (length (slice_last n l) <= n)%nat.
Proof. unfold slice_last. rewrite length_drop. lia. Qed.

Lemma slice_last_all {A} (n : nat) (l : list A) :
  (length l <= n)%nat -> slice_last n l = l.
Proof.
  intros Hlen. unfold slice_last.
  replace (length l - n)%nat with 0%nat by lia. reflexivity.
Qed.

Lemma rebuild_chat_messages (l : list ChatMessage) :
  map (fun m => mkChat (chat_role m) (chat_content m)) l = l.
Proof.
  induction l as [|[r c] l IH]; [reflexivity|]. cbn [map chat_role chat_content].
  rewrite IH. reflexivity.
Qed.

(** What a client with retries of its own sends: the same request, once
    more after each failure that it takes for transient, and once only when
    the first answer is a completion. *)
Lemma sdk_request_calls (maxRetries : nat) (prompt : list ChatMessage) (w : World) :
  exists k : nat,
    (1 <= k <= S maxRetries)%nat /\
    calls (snd (sdk_request maxRetries (chat_create prompt) w))
    = calls w ++ replicate k (CallChat prompt) /\
    (forall answer rest, chat w = Return answer :: rest -> k = 1%nat) /\
    (forall v rest, chat w = Throw v :: rest -> sdk_retryable v = false -> k = 1%nat).
Proof.
  revert w. induction maxRetries as [|n IH]; intros w.
  - exists 1%nat. split; [lia|]. split; [|split; reflexivity].
    cbn [sdk_request]. unfold chat_create. cbn [chat log_call].
    destruct (chat w) as [|answer rest]; reflexivity.
  - cbn [sdk_request]. unfold try_catch.
    destruct (chat_create prompt w) as [[answer|v] w1] eqn:Hfirst.
    + exists 1%nat. split; [lia|]. split; [|split; reflexivity].
      unfold chat_create in Hfirst. cbn [chat log_call] in Hfirst.
      destruct (chat w) as [|first rest]; inversion Hfirst; subst; reflexivity.
    + assert (Hsent : calls w1 = calls w ++ [CallChat prompt]).
      { unfold chat_create in Hfirst. cbn [chat log_call] in Hfirst.
        destruct (chat w) as [|first rest]; inversion Hfirst; subst; reflexivity. }
      destruct (sdk_retryable v) eqn:Hagain.
      * destruct (IH w1) as (k & Hk & Hcalls & _).
        exists (S k). split; [lia|]. split.
        { cbn [snd] in *. rewrite Hcalls, Hsent, <- app_assoc. reflexivity. }
        split.
        { intros answer rest Hchat. unfold chat_create in Hfirst.
          cbn [chat log_call] in Hfirst. rewrite Hchat in Hfirst. inversion Hfirst. }
        { intros v' rest Hchat Hfinal. unfold chat_create in Hfirst.
          cbn [chat log_call] in Hfirst. rewrite Hchat in Hfirst.
          inversion Hfirst; subst. congruence. }
      * exists 1%nat. split; [lia|]. split; [exact Hsent|]. split; reflexivity.
Qed.


(** One run of the second generation against a provider that fails once with
    status 500 and then answers: the prompt goes out twice. *)
Example second_generation_prompt_sent_twice :
  calls (snd (LlmV2.generateResponse "hello" []
                (set_chat [Throw (Exn (sdk_error 500)); Return (Some "hi")]
                   world_before_upload)))
  = [CallChat [LlmV2.system_prompt; mkChat user "hello"];
     CallChat [LlmV2.system_prompt; mkChat user "hello"]].
Proof.
  vm_compute. reflexivity.
Qed.

(** X6. [synthesizeSpeech] of the first generation reaches the synthesis
    provider only with a text that is not blank and has at most 4096
    characters, and then exactly once; a blank or longer text is refused
    with the world untouched. *)
Theorem synthesizeSpeech_gate (text : string) (w : World) :
  if empty_or_blank text || (Z.of_nat (String.length text) >? 4096)
  then exists msg, TtsV1.synthesizeSpeech text w = (Throw (Exn (new_Error msg)), w)
  else calls (snd (TtsV1.synthesizeSpeech text w)) = calls w ++ [CallSpeech text].
Proof.
  unfold TtsV1.synthesizeSpeech, try_catch, raise, throw.
  destruct (empty_or_blank text); cbn [orb].
  - eexists. reflexivity.
  - change TtsV1.limit with 4096.
    destruct (Z.of_nat (String.length text) >? 4096).
    + eexists. reflexivity.
    + unfold speech_create. cbn [speech log_call].
      destruct (speech w) as [|[b|error] rest]; reflexivity.
Qed.

(** X7. Silence ends a turn at once: when the transcription comes back empty
    or blank, [handleVoiceConversation] throws "No speech detected in audio"
    in the state the transcription left, so no history is loaded, no reply
    generated or synthesized, and no message saved. *)
Theorem silence_ends_the_turn (sessionId audioFilePath : string)
    (st st1 : World * trace) (transcript : string) :
  RetryV1.retryWithBackoff (SttV1.transcribeAudio audioFilePath) (Some 2) st
  = (Return transcript, st1) ->
  empty_or_blank transcript = true ->
  VoiceV1.handleVoiceConversation sessionId audioFilePath st
  = (Throw (Exn (new_Error "No speech detected in audio")), st1).
Proof.
  intros Hheard Hblank.
  unfold VoiceV1.handleVoiceConversation, try_catch, bind.
  rewrite Hheard, Hblank. reflexivity.
Qed.

Lemma silence_ends_the_turn_witness :
  VoiceV1.handleVoiceConversation session_id "/tmp/a.wav" (world_with_silence, [])
  = (Throw (Exn (new_Error "No speech detected in audio")),
     (set_whisper [] (log_call (CallWhisper "/tmp/a.wav") world_with_silence),
      [EvInvoke])).
Proof.
  apply (silence_ends_the_turn session_id "/tmp/a.wav" (world_with_silence, [])
           (set_whisper [] (log_call (CallWhisper "/tmp/a.wav") world_with_silence),
            [EvInvoke]) "   ").
  - vm_compute. reflexivity.
  - reflexivity.
Defined.

(** ** What the validators accept *)

(** X8. The second generation's [validateAudio] never changes the world; it
    accepts a path exactly when a file is there, [statSync] succeeds, the
    size is at most 25 MB and the probe prints a number of at most 300
    seconds, and then reports that duration and that size; and the one way
    it throws is by [statSync] throwing. *)
Theorem second_generation_accepts_exactly (filePath : string) (w : World) :
  match AudioV2.validateAudio filePath w with
  | (Return r, w') =>
      w' = w /\
      (valid r = true <->
       exists f q,
         files w !! filePath = Some f /\ f_stat_error f = None /\
         f_size f <= 25 * 1024 * 1024 /\
         f_probe f = ProbeStdout (Num q) /\ (q <= 300)%Q /\
         r = mkValidation true (Some (Num q)) (Some (f_size f)) None)
  | (Throw v, w') =>
      w' = w /\
      exists f e,
        files w !! filePath = Some f /\ f_stat_error f = Some e /\ v = Exn e
  end.
Proof.
  validate_steps.
  destruct (files w !! filePath) as [f|] eqn:Hf; validate_steps; rewrite ?Hf.
  2: { split; [reflexivity|]. split; [discriminate|].
       intros (f & q & Hsome & _). discriminate. }
  destruct (f_stat_error f) as [e|] eqn:Hstat; validate_steps.
  { split; [reflexivity|]. exists f, e. repeat split; try reflexivity; assumption. }
  destruct (f_size f >? AudioV2.maxSize) eqn:Hsize; validate_steps.
  { split; [reflexivity|]. split; [discriminate|].
    intros (f' & q & [= <-] & _ & Hle & _).
    apply Z.gtb_lt in Hsize. unfold AudioV2.maxSize in Hsize. lia. }
  rewrite Hf.
  assert (Hle : f_size f <= 25 * 1024 * 1024).
  { destruct (Z.gtb_spec (f_size f) AudioV2.maxSize) as [|Hle]; [discriminate|].
    exact Hle. }
  destruct (f_probe f) as [e|[|q]] eqn:Hprobe; validate_steps.
  - split; [reflexivity|]. split; [discriminate|].
    intros (f' & q & [= <-] & _ & _ & Hq & _). congruence.
  - split; [reflexivity|]. split; [discriminate|].
    intros (f' & q & [= <-] & _ & _ & Hq & _). congruence.
  - unfold AudioV2.rejected_duration.
    destruct (Qle_bool q (inject_Z 300)) eqn:Hq; cbn [negb].
    + split; [reflexivity|]. split; [|reflexivity]. intros _.
      exists f, q. repeat split; try assumption; try reflexivity.
      apply Qle_bool_iff, Hq.
    + split; [reflexivity|]. split; [discriminate|].
      intros (f' & q' & [= <-] & _ & _ & Hq' & Hle' & _).
      rewrite Hprobe in Hq'. injection Hq' as <-.
      apply Qle_bool_iff in Hle'. change (inject_Z 300) with (300 : Q) in Hq.
      congruence.
Qed.

(** X9. The first generation's [validateAudio] accepts a path exactly when a
    file is there, [statSync] succeeds and the size is within the configured
    limit, and the probe either fails (no duration is reported) or prints
    something that is not a number above the configured maximum; whatever
    the probe printed is the reported duration. *)
Theorem first_generation_accepts_exactly (env : Env) (filePath : string)
    (w : World) (r : AudioValidationResult) :
  fst (AudioV1.validateAudio env filePath w) = Return r /\ valid r = true <->
  exists f,
    files w !! filePath = Some f /\ f_stat_error f = None /\
    f_size f <= AudioV1.maxSize env /\
    match f_probe f with
    | ProbeFails _ => r = mkValidation true None (Some (f_size f)) None
    | ProbeStdout d =>
        longer_than d (AudioV1.maxDuration env) = false /\
        r = mkValidation true (Some d) (Some (f_size f)) None
    end.
Proof.
  validate_steps.
  destruct (files w !! filePath) as [f|] eqn:Hf; validate_steps; rewrite ?Hf.
  2: { split.
       - intros [[= <-] Hvalid]. discriminate.
       - intros (f & Hsome & _). discriminate. }
  destruct (f_stat_error f) as [e|] eqn:Hstat; validate_steps.
  { split.
    - intros [[= <-] Hvalid]. discriminate.
    - intros (f' & [= <-] & Hnone & _). congruence. }
  destruct (Z.gtb_spec (f_size f) (AudioV1.maxSize env)) as [Hgt|Hle]; validate_steps.
  { split.
    - intros [[= <-] Hvalid]. discriminate.
    - intros (f' & [= <-] & _ & Hle & _). lia. }
  rewrite Hf.
  destruct (f_probe f) as [e|d] eqn:Hprobe; validate_steps.
  - split.
    + intros [[= <-] _]. exists f. rewrite Hprobe. repeat split; assumption.
    + intros (f' & [= <-] & _ & _ & Hr). rewrite Hprobe in Hr. subst r.
      split; reflexivity.
  - destruct (longer_than d (AudioV1.maxDuration env)) eqn:Hlong.
    + split.
      * intros [[= <-] Hvalid]. discriminate.
      * intros (f' & [= <-] & _ & _ & Hr). rewrite Hprobe in Hr.
        destruct Hr as [Hr _]. congruence.
    + split.
      * intros [[= <-] _]. exists f. rewrite Hprobe. repeat split; assumption.
      * intros (f' & [= <-] & _ & _ & Hr). rewrite Hprobe in Hr.
        destruct Hr as [_ ->]. split; reflexivity.
Qed.

(** X10. With no limits configured, the first generation accepts whatever
    the second accepts, with the same result: the second validator is the
    stricter one. *)
Theorem second_generation_is_stricter (env : Env) (filePath : string)
    (w w' : World) (r : AudioValidationResult) :
  MAX_AUDIO_SIZE_MB env = None ->
  MAX_AUDIO_DURATION_SECONDS env = None ->
  AudioV2.validateAudio filePath w = (Return r, w') ->
  valid r = true ->
  AudioV1.validateAudio env filePath w = (Return r, w').
Proof.
  intros Hsize Hduration. validate_steps.
  unfold AudioV1.maxSize, AudioV1.maxDuration. rewrite Hsize, Hduration.
  change (or_number (parseInt (or_string None "25")) 25 * 1024 * 1024)
    with AudioV2.maxSize.
  change (parseInt (or_string None "300")) with (Some 300).
  destruct (files w !! filePath) as [f|] eqn:Hf; validate_steps; rewrite ?Hf.
  2: { intros [= <- <-]. discriminate. }
  destruct (f_stat_error f) as [e|]; validate_steps; [discriminate|].
  destruct (f_size f >? AudioV2.maxSize); validate_steps.
  { intros [= <- <-]. discriminate. }
  rewrite Hf.
  destruct (f_probe f) as [e|[|q]]; validate_steps;
    try (intros [= <- <-]; discriminate).
  unfold AudioV2.rejected_duration, longer_than.
  destruct (Qle_bool q (inject_Z 300)); cbn [negb].
  - intros [= <- <-] _. reflexivity.
  - intros [= <- <-]. discriminate.
Qed.

Lemma second_generation_is_stricter_witness :
  AudioV1.validateAudio env0 "/tmp/a.wav" world_with_silence
  = (Return (mkValidation true (Some (Num 3)) (Some 1000) None), world_with_silence).
Proof.
  apply (second_generation_is_stricter env0 "/tmp/a.wav" world_with_silence).
  - reflexivity.
  - reflexivity.
  - vm_compute. reflexivity.
  - reflexivity.
Defined.

(** ** Conversion for the transcription provider *)

Lemma length_append (a b : string) :
  String.length (a +:+ b) = (String.length a + String.length b)%nat.
Proof.
  induction a as [|c a IH]; [reflexivity|]. simpl. f_equal. exact IH.
Qed.

Lemma wav_path_differs (inputPath : string) :
  String.eqb inputPath (inputPath +:+ ".wav") = false.
Proof.
  apply String.eqb_neq. intros Heq.
  apply (f_equal String.length) in Heq. rewrite length_append in Heq.
  cbn [String.length] in Heq. lia.
Qed.

(** X11. For an input path that the shell reads as it is written (no
    double quote, dollar sign, backslash or backquote, which the command
    line of [ffmpeg] would let the shell interpret), the first generation's
    [prepareAudioForWhisper] never throws and touches no path but
    [inputPath] and [inputPath + ".wav"].  It returns one of the two.  It
    returns the converted path exactly when [ffmpeg] converted the file and
    the original could be removed: the conversion is then at that path and
    the original is gone.  Otherwise it returns the input path, with the
    original as it was; [inputPath + ".wav"] is then as it was when no
    conversion was written, and else holds the conversion whose original
    could not be removed, or what the failed conversion left, which nothing
    removes.  (The comparison of the two paths in the source can never find
    them equal.) *)
Theorem prepareAudioForWhisper_falls_back (inputPath : string) (w : World) :
  shell_safe inputPath = true ->
  exists out w',
    AudioV1.prepareAudioForWhisper inputPath w = (Return out, w') /\
    (forall p, p <> inputPath -> p <> inputPath +:+ ".wav" ->
               files w' !! p = files w !! p) /\
    (out = inputPath +:+ ".wav" /\
     files w' !! inputPath = None /\
     files w' !! out = files w !! inputPath /\
     (exists f, files w !! inputPath = Some f /\
                f_ffmpeg f = Converted /\ f_unlink_error f = None)
     \/
     out = inputPath /\ files w' !! inputPath = files w !! inputPath /\
     match files w !! inputPath with
     | None => files w' !! (inputPath +:+ ".wav") = files w !! (inputPath +:+ ".wav")
     | Some f =>
         match f_ffmpeg f with
         | Converted =>
             is_Some (f_unlink_error f) /\ files w' !! (inputPath +:+ ".wav") = Some f
         | Failed None =>
             files w' !! (inputPath +:+ ".wav") = files w !! (inputPath +:+ ".wav")
         | Failed (Some leftover) =>
             files w' !! (inputPath +:+ ".wav") = Some leftover
         end
     end).
Proof.
  intros _.
  assert (Hne : inputPath <> inputPath +:+ ".wav").
  { apply String.eqb_neq, wav_path_differs. }
  unfold AudioV1.prepareAudioForWhisper, try_catch, bind, ret, ffmpeg.
  destruct (files w !! inputPath) as [f|] eqn:Hf.
  2: { exists inputPath, w. split; [reflexivity|]. split; [reflexivity|].
       right. rewrite Hf. repeat split. }
  destruct (f_ffmpeg f) as [|[leftover|]] eqn:Hconv.
  2: { eexists inputPath, _. split; [reflexivity|]. rewrite files_set_files. split.
       - intros p _ Hp. apply lookup_insert_ne. congruence.
       - right. split; [reflexivity|].
         rewrite lookup_insert_ne by (intros Heq; apply Hne; congruence).
         split; [exact Hf|]. apply lookup_insert_eq. }
  2: { exists inputPath, w. split; [reflexivity|]. split; [reflexivity|].
       right. rewrite Hf. repeat split. }
  unfold existsSync, unlink. rewrite wav_path_differs. cbn [negb andb].
  rewrite !files_set_files, lookup_insert_ne by (intros Heq; apply Hne; congruence).
  rewrite Hf. cbn [andb].
  rewrite !files_set_files, lookup_insert_ne by (intros Heq; apply Hne; congruence).
  rewrite Hf.
  destruct (f_unlink_error f) as [e|] eqn:Hunlink.
  - (* the original cannot be removed: the [catch] branch answers *)
    eexists inputPath, _. split; [reflexivity|].
    rewrite files_set_files. split.
    + intros p _ Hp. apply lookup_insert_ne. congruence.
    + right. split; [reflexivity|].
      rewrite lookup_insert_ne by (intros Heq; apply Hne; congruence).
      split; [exact Hf|].
      split; [eexists; reflexivity|apply lookup_insert_eq].
  - eexists (inputPath +:+ ".wav"), _. split; [reflexivity|].
    rewrite !files_set_files. split.
    + intros p Hp Hp'. rewrite lookup_delete_ne, lookup_insert_ne by congruence.
      reflexivity.
    + left. split; [reflexivity|]. split; [apply lookup_delete_eq|].
      rewrite lookup_delete_ne, lookup_insert_eq by congruence.
      split; [reflexivity|]. exists f. repeat split; assumption.
Qed.

Lemma prepareAudioForWhisper_falls_back_witness :
  shell_safe "/tmp/a.wav" = true /\
  exists out w',
    AudioV1.prepareAudioForWhisper "/tmp/a.wav" world_with_silence = (Return out, w') /\
    files w' !! "/tmp/b.wav" = files world_with_silence !! "/tmp/b.wav".
Proof.
  split; [reflexivity|].
  destruct (prepareAudioForWhisper_falls_back "/tmp/a.wav" world_with_silence eq_refl)
    as (out & w' & Hrun & Hothers & _).
  exists out, w'. split; [exact Hrun|]. apply Hothers; discriminate.
Defined.

(** ** What the first generation's route removes *)

Lemma randomUUID_keeps_files : keeps files randomUUID.
Proof. unfold randomUUID. by_cases_on_the_world. Qed.

Lemma cast_field_keeps {X} (f : World -> X) (value path model : string) :
  keeps f (SessionV1.cast_field value path model).
Proof.
  unfold SessionV1.cast_field. destruct (parseObjectId value); keeps_steps.
Qed.

Lemma validateAudio1_keeps_files (env : Env) (filePath : string) :
  keeps files (AudioV1.validateAudio env filePath).
Proof. unfold AudioV1.validateAudio. keeps_files_steps. Qed.

Lemma getOrCreateSession1_keeps_files (userId : string) (sessionId : option string) :
  keeps files (SessionV1.getOrCreateSession userId sessionId).
Proof.
  unfold SessionV1.getOrCreateSession, SessionV1.getSession, SessionV1.createSession,
    SessionV1.Session_findOne, SessionV1.Session_create, SessionV1.Session_touch.
  keeps_files_steps; apply cast_field_keeps.
Qed.

Lemma authenticate_keeps_files (req : Request) :
  keeps files (AuthV1.authenticate req).
Proof.
  unfold AuthV1.authenticate, AuthV1.validateApiKey, AuthV1.User_findOne.
  keeps_files_steps.
Qed.

Lemma handleVoiceConversation_keeps_files (sessionId audioFilePath : string) :
  keeps (fun st : World * trace => files (fst st))
    (VoiceV1.handleVoiceConversation sessionId audioFilePath).
Proof.
  unfold VoiceV1.handleVoiceConversation. keeps_steps.
  - apply (keeps_retry files). unfold SttV1.transcribeAudio. keeps_files_steps.
  - apply (keeps_lift files).
    unfold ConversationV1.getConversationHistory, ConversationV1.Message_find.
    keeps_files_steps.
  - apply (keeps_retry files). unfold LlmV1.generateResponse. keeps_files_steps.
  - apply (keeps_retry files). unfold TtsV1.synthesizeSpeech. keeps_files_steps.
  - apply (keeps_lift files).
    unfold ConversationV1.saveMessage, ConversationV1.Message_create.
    keeps_files_steps. apply cast_field_keeps.
  - apply (keeps_lift files).
    unfold ConversationV1.saveMessage, ConversationV1.Message_create.
    keeps_files_steps. apply cast_field_keeps.
Qed.

Lemma hoare_modify {S} (f : S -> S) (Q : unit -> S -> Prop) (E : thrown -> S -> Prop) :
  hoare (fun s => Q tt (f s)) (modify f) Q E.
Proof. intros s Hs. exact Hs. Qed.

(** A computation on the world, run by the route, leaves the two variables
    as they are. *)
Lemma hoare_on_world {A} (l : RouteV1.Locals) (P : World -> Prop) (c : IO World A)
    (Q : A -> World -> Prop) (E : thrown -> World -> Prop) :
  hoare P c Q E ->
  hoare (fun s : RouteV1.St => P (fst (fst s)) /\ snd s = l)
    (RouteV1.on_world c)
    (fun a s => Q a (fst (fst s)) /\ snd s = l)
    (fun v s => E v (fst (fst s)) /\ snd s = l).
Proof.
  intros Hc [[w tr] l'] [Hs Hl]. unfold RouteV1.on_world, lift.
  specialize (Hc w Hs). cbn [fst snd] in *.
  destruct (c w) as [[a|v] w']; split; assumption.
Qed.

Lemma hoare_lift_turn {A} (l : RouteV1.Locals) (P : gmap string FileMeta -> Prop)
    (c : IO (World * trace) A) :
  keeps (fun st : World * trace => files (fst st)) c ->
  hoare (fun s : RouteV1.St => P (files (fst (fst s))) /\ snd s = l)
    (lift c)
    (fun _ s => P (files (fst (fst s))) /\ snd s = l)
    (fun _ s => P (files (fst (fst s))) /\ snd s = l).
Proof.
  intros Hc [[w tr] l'] [Hs Hl]. unfold lift.
  specialize (Hc (w, tr)). cbn [fst snd] in *.
  destruct (c (w, tr)) as [[a|v] [w' tr']]; cbn [fst snd] in *;
    rewrite Hc; split; assumption.
Qed.

Lemma nonempty_truthy (p : string) :
  p <> "" -> SessionV1.truthy (Some p) = Some p.
Proof. intros Hp. destruct p; [congruence | reflexivity]. Qed.

Lemma path_join_nonempty (a b : string) : RouteV1.path_join a b <> "".
Proof.
  unfold RouteV1.path_join. intros Heq.
  apply (f_equal String.length) in Heq. rewrite !length_append in Heq.
  cbn [String.length] in Heq. lia.
Qed.

Section FirstGenerationRoute.

Context (before : gmap string FileMeta).

(** [cleanupFile] never throws, and takes its path off the list of
    temporary files. *)
Lemma cleanupFile_clears (path : string) (temporary : list string) :
  path <> "" ->
  hoare (fun w => only_temporaries before (path :: temporary) (files w))
    (RouteV1.cleanupFile (Some path))
    (fun _ w => only_temporaries before temporary (files w))
    (fun _ _ => False).
Proof.
  intros Hpath w Hw. unfold RouteV1.cleanupFile. rewrite (nonempty_truthy path Hpath).
  unfold bind, existsSync.
  destruct (files w !! path) as [f|] eqn:Hf.
  - exact (unlink_quietly_clears before path temporary w Hw).
  - intros p g Hp. destruct (Hw p g Hp) as [Hold | [[<- | Hin] Hrem]].
    + left. exact Hold.
    + congruence.
    + right. split; assumption.
Qed.

(** The same for a path that is not on the list. *)
Lemma cleanupFile_tidy (path : string) (temporary : list string) :
  path <> "" ->
  hoare (fun w => only_temporaries before temporary (files w))
    (RouteV1.cleanupFile (Some path))
    (fun _ w => only_temporaries before temporary (files w))
    (fun _ _ => False).
Proof.
  intros Hpath.
  apply (hoare_weaken _ _ _ _ _ _ _ (cleanupFile_clears path temporary Hpath)).
  - intros w Hw.
    apply (only_temporaries_more before temporary (path :: temporary)); [|exact Hw].
    intros p Hp. right. exact Hp.
  - intros _ w Hw. exact Hw.
  - intros _ w [].
Qed.

(** Conversion in the first generation: whatever it returns is the one
    path where something new may be. *)
Lemma prepareAudioForWhisper1_stages (path : string) (content : FileMeta) :
  path <> "" ->
  removable content ->
  leaves_nothing content ->
  hoare (fun w => files w = <[path := content]> before)
    (AudioV1.prepareAudioForWhisper path)
    (fun out w => out <> "" /\ only_temporaries before [out] (files w))
    (fun _ _ => False).
Proof.
  intros Hpath Hcontent Hclean w Hw.
  assert (Hne : path <> path +:+ ".wav") by apply String.eqb_neq, wav_path_differs.
  assert (Hin : files w !! path = Some content) by (rewrite Hw; apply lookup_insert_eq).
  assert (Hfresh : only_temporaries before [path] (files w)).
  { intros p f Hp. rewrite Hw in Hp.
    apply lookup_insert_Some in Hp as [[<- <-] | [_ Hp]].
    - right. split; [left; reflexivity | exact Hcontent].
    - left. exact Hp. }
  unfold AudioV1.prepareAudioForWhisper, try_catch, bind, ret, ffmpeg.
  rewrite Hin. unfold leaves_nothing in Hclean.
  destruct (f_ffmpeg content) as [|[leftover|]]; [|destruct Hclean|].
  2: { split; [exact Hpath | exact Hfresh]. }
  unfold existsSync, unlink. rewrite wav_path_differs. cbn [negb andb].
  rewrite !files_set_files, lookup_insert_ne by (intros Heq; apply Hne; congruence).
  rewrite Hin. cbn [andb].
  rewrite !files_set_files, lookup_insert_ne by (intros Heq; apply Hne; congruence).
  rewrite Hin. unfold removable in Hcontent. rewrite Hcontent.
  split.
  { intros Heq. apply (f_equal String.length) in Heq.
    rewrite length_append in Heq. cbn [String.length] in Heq. lia. }
  intros p f Hp. rewrite !files_set_files in Hp.
  apply lookup_delete_Some in Hp as [Hp_path Hp].
  apply lookup_insert_Some in Hp as [[<- <-] | [_ Hp]].
  - right. split; [left; reflexivity | exact Hcontent].
  - rewrite Hw in Hp. rewrite lookup_insert_ne in Hp by congruence.
    left. exact Hp.
Qed.

(** The [catch] clause of the route removes what the two variables name. *)
Lemma catch_clause_cleans (env : Env) (error : thrown) :
  hoare (pending before)
    (l <- RouteV1.locals ;;
     (match SessionV1.truthy (RouteV1.preparedPath l) with
      | Some p => RouteV1.on_world (RouteV1.cleanupFile (Some p))
      | None => ret tt
      end) ;;;
     (match SessionV1.truthy (RouteV1.audioFilePath l) with
      | Some p =>
          if negb (bool_decide (Some p = RouteV1.preparedPath l))
          then RouteV1.on_world (RouteV1.cleanupFile (Some p)) else ret tt
      | None => ret tt
      end) ;;;
     (fun s => (ErrorsV1.handleApiError env error, s)))
    (fun _ s => only_temporaries before [] (files (fst (fst s))))
    (fun _ s => only_temporaries before [] (files (fst (fst s)))).
Proof.
  intros [[w tr] [audioFilePath preparedPath]] Hs.
  unfold pending in Hs. cbn [fst snd RouteV1.audioFilePath RouteV1.preparedPath] in Hs.
  unfold bind at 1. unfold RouteV1.locals.
  cbn [RouteV1.audioFilePath RouteV1.preparedPath].
  destruct audioFilePath as [p|], preparedPath as [out|]; [| |destruct Hs|].
  - (* both variables are set *)
    destruct Hs as (Hp & Hout & Hs).
    rewrite (nonempty_truthy out Hout), (nonempty_truthy p Hp).
    pose proof (cleanupFile_clears out [] Hout w Hs) as Hfirst.
    unfold bind at 1. unfold RouteV1.on_world at 1, lift.
    destruct (RouteV1.cleanupFile (Some out) w) as [[[]|v] w1]; [|destruct Hfirst].
    unfold bind at 1.
    destruct (negb (bool_decide (Some p = Some out))).
    + pose proof (cleanupFile_tidy p [] Hp w1 Hfirst) as Hsecond.
      unfold RouteV1.on_world, lift.
      destruct (RouteV1.cleanupFile (Some p) w1) as [[[]|v] w2]; [|destruct Hsecond].
      destruct (ErrorsV1.handleApiError env error); exact Hsecond.
    + unfold ret. destruct (ErrorsV1.handleApiError env error); exact Hfirst.
  - (* only the upload path is set *)
    destruct Hs as (Hp & Hs). rewrite (nonempty_truthy p Hp).
    cbn [SessionV1.truthy]. unfold bind at 1, ret. unfold bind at 1.
    replace (negb (bool_decide (Some p = None))) with true
      by (symmetry; apply negb_true_iff, bool_decide_eq_false; discriminate).
    pose proof (cleanupFile_clears p [] Hp w Hs) as Hfirst.
    unfold RouteV1.on_world, lift.
    destruct (RouteV1.cleanupFile (Some p) w) as [[[]|v] w1]; [|destruct Hfirst].
    destruct (ErrorsV1.handleApiError env error); exact Hfirst.
  - (* nothing was written *)
    cbn [SessionV1.truthy]. unfold bind, ret.
    destruct (ErrorsV1.handleApiError env error); exact Hs.
Qed.

End FirstGenerationRoute.

Lemma hoare_assume {S A} (fact : Prop) (P : S -> Prop) (c : IO S A)
    (Q : A -> S -> Prop) (E : thrown -> S -> Prop) :
  (fact -> hoare P c Q E) -> hoare (fun s => fact /\ P s) c Q E.
Proof. intros Hc s [Hfact Hs]. exact (Hc Hfact s Hs). Qed.

Section FirstGenerationUpload.

Context (before : gmap string FileMeta).

Local Abbreviation disk := (fun s : RouteV1.St => files (fst (fst s))).

(** A step of the route that leaves the disk alone keeps what is known of
    the disk and of the two variables; should it throw, the [catch] clause
    finds the state it can clean. *)
Lemma step_on_world {A} (l : RouteV1.Locals) (I : gmap string FileMeta -> Prop)
    (c : IO World A) :
  keeps files c ->
  (forall s, I (disk s) -> snd s = l -> pending before s) ->
  hoare (fun s => I (disk s) /\ snd s = l) (RouteV1.on_world c)
    (fun _ s => I (disk s) /\ snd s = l) (fun _ => pending before).
Proof.
  intros Hc Hpending.
  apply (hoare_weaken _ _ _ _ _ _ _
           (hoare_on_world l (fun w => I (files w)) c _ _ (hoare_keeps files I c Hc))).
  - intros s Hs. exact Hs.
  - intros _ s Hs. exact Hs.
  - intros _ s [Hs Hl]. exact (Hpending s Hs Hl).
Qed.

Lemma step_of_turn {A} (l : RouteV1.Locals) (I : gmap string FileMeta -> Prop)
    (c : IO (World * trace) A) :
  keeps (fun st : World * trace => files (fst st)) c ->
  (forall s, I (disk s) -> snd s = l -> pending before s) ->
  hoare (fun s => I (disk s) /\ snd s = l) (lift c)
    (fun _ s => I (disk s) /\ snd s = l) (fun _ => pending before).
Proof.
  intros Hc Hpending.
  apply (hoare_weaken _ _ _ _ _ _ _ (hoare_lift_turn l I c Hc)).
  - intros s Hs. exact Hs.
  - intros _ s Hs. exact Hs.
  - intros _ s [Hs Hl]. exact (Hpending s Hs Hl).
Qed.

Lemma nothing_new_pending (s : RouteV1.St) :
  disk s = before -> snd s = RouteV1.mkLocals None None -> pending before s.
Proof.
  intros Hs Hl. unfold pending. rewrite Hl. cbn [RouteV1.audioFilePath RouteV1.preparedPath].
  intros p f Hp. left. rewrite <- Hs. exact Hp.
Qed.

Lemma uploaded_pending (path : string) (content : FileMeta) (s : RouteV1.St) :
  path <> "" -> removable content ->
  disk s = <[path := content]> before ->
  snd s = RouteV1.mkLocals (Some path) None -> pending before s.
Proof.
  intros Hpath Hcontent Hs Hl. unfold pending. rewrite Hl.
  cbn [RouteV1.audioFilePath RouteV1.preparedPath]. split; [exact Hpath|].
  intros p f Hp. rewrite Hs in Hp.
  apply lookup_insert_Some in Hp as [[<- <-] | [_ Hp]].
  - right. split; [left; reflexivity | exact Hcontent].
  - left. exact Hp.
Qed.

(** Past the checks on the form, the route ends in one of three ways: it
    returns with nothing new on disk, it returns the validator's rejection
    with the upload still there, or it throws in a state that its [catch]
    clause cleans. *)
Lemma POST_upload_stages (env : Env) (userId : string) (audioFile : File)
    (sessionId : option string) :
  removable (file_content audioFile) ->
  leaves_nothing (file_content audioFile) ->
  hoare (fun s => disk s = before /\ snd s = RouteV1.mkLocals None None)
    (RouteV1.POST_upload env userId audioFile sessionId)
    (fun r s => only_temporaries before [] (disk s) \/
                left_behind before (file_content audioFile) r (disk s))
    (fun _ => pending before).
Proof.
  intros Hcontent Hclean. unfold RouteV1.POST_upload.
  apply (hoare_bind _ _ _
           (fun _ s => disk s = before /\ snd s = RouteV1.mkLocals None None)).
  { apply (step_on_world _ (fun fs => fs = before)); [apply randomUUID_keeps_files|].
    apply nothing_new_pending. }
  intros uuid.
  set (path := RouteV1.path_join (RouteV1.path_join (cwd env) "uploads")
                 (uuid +:+ "-" +:+ or_string (Some (file_name audioFile)) "audio")).
  assert (Hpath : path <> "") by apply path_join_nonempty.
  (* audioFilePath = path *)
  apply (hoare_bind _ _ _
           (fun _ s => disk s = before /\ snd s = RouteV1.mkLocals (Some path) None)).
  { intros [[w tr] l] [Hs Hl]. cbn [fst snd] in *. subst l. split; [exact Hs | reflexivity]. }
  intros _.
  (* writeFile *)
  apply (hoare_bind _ _ _
           (fun _ s => disk s = <[path := file_content audioFile]> before /\
                       snd s = RouteV1.mkLocals (Some path) None)).
  { assert (Hwrite :
      hoare (fun w => files w = before) (writeFile path (file_content audioFile))
        (fun _ w => files w = <[path := file_content audioFile]> before)
        (fun _ w => files w = before)).
    { intros w Hw. unfold writeFile. destruct (write_error w); [exact Hw|].
      rewrite files_set_files, Hw. reflexivity. }
    apply (hoare_weaken _ _ _ _ _ _ _
             (hoare_on_world (RouteV1.mkLocals (Some path) None) _ _ _ _ Hwrite)).
    - intros s Hs. exact Hs.
    - intros _ s Hs. exact Hs.
    - intros _ s [Hs Hl]. unfold pending. rewrite Hl.
      cbn [RouteV1.audioFilePath RouteV1.preparedPath]. split; [exact Hpath|].
      intros p f Hp. left. rewrite <- Hs. exact Hp. }
  intros _.
  (* validateAudio *)
  apply (hoare_bind _ _ _
           (fun _ s => disk s = <[path := file_content audioFile]> before /\
                       snd s = RouteV1.mkLocals (Some path) None)).
  { apply (step_on_world _ (fun fs => fs = <[path := file_content audioFile]> before));
      [apply validateAudio1_keeps_files|].
    intros s. apply uploaded_pending; assumption. }
  intros validation. apply hoare_if; intros _.
  { intros s [Hs _]. right. eexists path, _. split; [reflexivity | exact Hs]. }
  (* getOrCreateSession *)
  apply (hoare_bind _ _ _
           (fun _ s => disk s = <[path := file_content audioFile]> before /\
                       snd s = RouteV1.mkLocals (Some path) None)).
  { apply (step_on_world _ (fun fs => fs = <[path := file_content audioFile]> before));
      [apply getOrCreateSession1_keeps_files|].
    intros s. apply uploaded_pending; assumption. }
  intros activeSessionId.
  (* prepareAudioForWhisper *)
  apply (hoare_bind _ _ _
           (fun out s => out <> "" /\
                         (only_temporaries before [out] (disk s) /\
                          snd s = RouteV1.mkLocals (Some path) None))).
  { apply (hoare_weaken _ _ _ _ _ _ _
             (hoare_on_world (RouteV1.mkLocals (Some path) None) _ _ _ _
                (prepareAudioForWhisper1_stages before path _ Hpath Hcontent Hclean))).
    - intros s Hs. exact Hs.
    - intros out s [[Hout Hs] Hl]. split; [exact Hout|]. split; assumption.
    - intros _ s [[] _]. }
  intros prepared. apply hoare_assume. intros Hprepared.
  (* preparedPath = prepared *)
  apply (hoare_bind _ _ _
           (fun _ s => only_temporaries before [prepared] (disk s) /\
                       snd s = RouteV1.mkLocals (Some path) (Some prepared))).
  { intros [[w tr] l] [Hs Hl]. cbn [fst snd] in *. subst l. split; [exact Hs | reflexivity]. }
  intros _.
  (* handleVoiceConversation *)
  apply (hoare_bind _ _ _
           (fun _ s => only_temporaries before [prepared] (disk s) /\
                       snd s = RouteV1.mkLocals (Some path) (Some prepared))).
  { apply (step_of_turn _ (fun fs => only_temporaries before [prepared] fs));
      [apply handleVoiceConversation_keeps_files|].
    intros s Hs Hl. unfold pending. rewrite Hl.
    cbn [RouteV1.audioFilePath RouteV1.preparedPath]. repeat split; assumption. }
  intros result.
  (* the two calls of cleanupFile *)
  apply (hoare_bind _ _ _ (fun _ s => only_temporaries before [] (disk s))).
  { apply (hoare_weaken _ _ _ _ _ _ _
             (hoare_on_world (RouteV1.mkLocals (Some path) (Some prepared)) _ _ _ _
                (cleanupFile_clears before prepared [] Hprepared))).
    - intros s Hs. exact Hs.
    - intros _ s [Hs _]. exact Hs.
    - intros _ s [[] _]. }
  intros _.
  apply (hoare_bind _ _ _ (fun _ s => only_temporaries before [] (disk s))).
  { apply hoare_if; intros _.
    - intros [[w tr] l] Hs. unfold RouteV1.on_world, lift. cbn [fst snd] in *.
      pose proof (cleanupFile_tidy before path [] Hpath w Hs) as Hcleaned.
      destruct (RouteV1.cleanupFile (Some path) w) as [[[]|v] w1]; [|destruct Hcleaned].
      exact Hcleaned.
    - intros s Hs. exact Hs. }
  intros _ s Hs. left. exact Hs.
Qed.

End FirstGenerationUpload.



(** What the guarantee leaves out: a conversion that fails after it has
    begun to write.  The first generation goes on with the original, answers
    200 and removes the upload; the incomplete output stays where [ffmpeg]
    put it. *)
Example first_generation_failed_conversion_leaves_its_output :
  files (snd (RouteV1.serve env0 (upload torn_clip) world_before_upload))
  = {[ uploaded_path +:+ ".wav" := corrupt_clip ]}.
Proof.
  vm_compute. reflexivity.
Qed.

(** ** Who is let in *)

Lemma substring_all (s : string) : String.substring 0 (String.length s) s = s.
Proof. induction s as [|c s IH]; [reflexivity|]. simpl. rewrite IH. reflexivity. Qed.

Lemma prefix_substring (p s : string) :
  String.prefix p s = true ->
  s = p +:+ String.substring (String.length p) (String.length s - String.length p) s.
Proof.
  revert s. induction p as [|a p IH]; intros s Hprefix.
  - cbn [String.length]. rewrite Nat.sub_0_r, substring_all. reflexivity.
  - destruct s as [|b s]; [discriminate|]. simpl in Hprefix.
    destruct (Ascii.ascii_dec a b) as [<-|]; [|discriminate].
    simpl. rewrite (IH s Hprefix) at 1. reflexivity.
Qed.

Lemma world_but_for_faults (w : World) : w = set_db_faults (db_faults w) w.
Proof. destruct w. reflexivity. Qed.

(** X13. The first generation's [authenticate] never throws: it answers
    with a response or with a caller.  It lets a caller in only on a header
    that reads [Bearer <key>] where [<key>] is the stored key of a user, and
    the caller it returns is that user; and it leaves the world as it was
    but for the store answers it used up. *)
Theorem authenticate_admits_registered_keys (req : Request) (w : World) :
  exists r w',
    AuthV1.authenticate req w = (Return r, w') /\
    w' = set_db_faults (db_faults w') w /\
    forall caller, r = inr caller ->
      exists apiKey u,
        authorization req = Some ("Bearer " +:+ apiKey) /\
        In u (users w) /\ u_apiKey u = apiKey /\
        caller = mkAuthUser (u_id u) (u_email u).
Proof.
  unfold AuthV1.authenticate.
  destruct (authorization req) as [authHeader|].
  2: { eexists _, w. split; [reflexivity|]. split; [apply world_but_for_faults|].
       discriminate. }
  unfold startsWith.
  destruct (String.prefix "Bearer " authHeader) eqn:Hbearer; cbn [negb].
  2: { eexists _, w. split; [reflexivity|]. split; [apply world_but_for_faults|].
       discriminate. }
  apply prefix_substring in Hbearer. cbn [String.length] in Hbearer.
  set (apiKey := String.substring 7 (String.length authHeader - 7) authHeader) in *.
  unfold AuthV1.validateApiKey, AuthV1.User_findOne, try_catch, bind, connectDB,
    store_op, get, ret.
  destruct (db_down w) as [e|].
  { eexists _, w. split; [reflexivity|]. split; [apply world_but_for_faults|].
    discriminate. }
  destruct (db_faults w) as [|[e|] rest] eqn:Hfaults.
  - destruct (List.find (fun u => String.eqb (u_apiKey u) apiKey) (users w))
      as [u|] eqn:Hfind.
    + eexists _, w. split; [reflexivity|]. split; [apply world_but_for_faults|].
      intros caller [= <-]. exists apiKey, u.
      apply List.find_some in Hfind as [Hin Hkey]. apply String.eqb_eq in Hkey.
      repeat split; try assumption. f_equal. exact Hbearer.
    + eexists _, w. split; [reflexivity|]. split; [apply world_but_for_faults|].
      discriminate.
  - eexists _, _. split; [reflexivity|]. split; [reflexivity|]. discriminate.
  - cbn [users set_db_faults].
    destruct (List.find (fun u => String.eqb (u_apiKey u) apiKey) (users w))
      as [u|] eqn:Hfind.
    + eexists _, _. split; [reflexivity|]. split; [reflexivity|].
      intros caller [= <-]. exists apiKey, u.
      apply List.find_some in Hfind as [Hin Hkey]. apply String.eqb_eq in Hkey.
      repeat split; try assumption. f_equal. exact Hbearer.
    + eexists _, _. split; [reflexivity|]. split; [reflexivity|]. discriminate.
Qed.

(** ** What reaches the providers *)

Lemma validateAudio1_same_world (env : Env) (filePath : string) (w : World) :
  exists v, AudioV1.validateAudio env filePath w = (Return v, w).
Proof.
  validate_steps.
  destruct (files w !! filePath) as [f|] eqn:Hf; validate_steps; rewrite ?Hf;
    [|eexists; reflexivity].
  destruct (f_stat_error f) as [e|]; validate_steps; [eexists; reflexivity|].
  destruct (f_size f >? AudioV1.maxSize env); validate_steps; [eexists; reflexivity|].
  rewrite Hf. destruct (f_probe f) as [e|d]; validate_steps; [eexists; reflexivity|].
  destruct (longer_than d (AudioV1.maxDuration env)); eexists; reflexivity.
Qed.

Lemma authenticate_keeps_calls (req : Request) (w : World) :
  exists r w', AuthV1.authenticate req w = (Return r, w') /\ calls w' = calls w.
Proof.
  unfold AuthV1.authenticate.
  destruct (authorization req) as [authHeader|]; [|eexists _, w; split; reflexivity].
  destruct (negb (startsWith authHeader "Bearer ")); [eexists _, w; split; reflexivity|].
  unfold AuthV1.validateApiKey, AuthV1.User_findOne, try_catch, bind, connectDB,
    store_op, get, ret.
  destruct (db_down w) as [e|]; [eexists _, w; split; reflexivity|].
  destruct (db_faults w) as [|[e|] rest];
    [| eexists _, _; split; reflexivity |]; cbn [users set_db_faults];
    destruct (List.find _ (users w)); eexists _, _; split; reflexivity.
Qed.

Lemma cleanupFile_keeps_calls (filePath : option string) :
  keeps calls (RouteV1.cleanupFile filePath).
Proof.
  intros w. unfold RouteV1.cleanupFile.
  destruct (SessionV1.truthy filePath) as [p|]; [|reflexivity].
  unfold bind, existsSync, try_catch, unlink, ret.
  destruct (files w !! p) as [f|] eqn:Hf; [|reflexivity].
  rewrite Hf. destruct (f_unlink_error f); reflexivity.
Qed.

(** The [catch] clause of the route calls no provider. *)
Lemma catch_clause_keeps_calls (env : Env) (error : thrown) :
  keeps (fun s : RouteV1.St => calls (fst (fst s)))
    (l <- RouteV1.locals ;;
     (match SessionV1.truthy (RouteV1.preparedPath l) with
      | Some p => RouteV1.on_world (RouteV1.cleanupFile (Some p))
      | None => ret tt
      end) ;;;
     (match SessionV1.truthy (RouteV1.audioFilePath l) with
      | Some p =>
          if negb (bool_decide (Some p = RouteV1.preparedPath l))
          then RouteV1.on_world (RouteV1.cleanupFile (Some p)) else ret tt
      | None => ret tt
      end) ;;;
     (fun s => (ErrorsV1.handleApiError env error, s))).
Proof.
  assert (Hclean : forall p,
             keeps (fun s : RouteV1.St => calls (fst (fst s)))
               (RouteV1.on_world (RouteV1.cleanupFile p))).
  { intros p. unfold RouteV1.on_world.
    apply (keeps_lift (fun st : World * trace => calls (fst st))).
    apply (keeps_lift calls), cleanupFile_keeps_calls. }
  apply keeps_bind; [intros [s l]; reflexivity|]. intros l.
  apply keeps_bind.
  { destruct (SessionV1.truthy (RouteV1.preparedPath l)); [apply Hclean | apply keeps_ret]. }
  intros _. apply keeps_bind.
  { destruct (SessionV1.truthy (RouteV1.audioFilePath l)); [|apply keeps_ret].
    apply keeps_if; [apply Hclean | apply keeps_ret]. }
  intros _ s. reflexivity.
Qed.

(** X14. The first generation's route reaches a provider only for a caller
    that [authenticate] let in, with a form whose audio field has one of
    the allowed types and a size within the limit, and after the validator
    accepted the recording as written to disk. *)
Theorem providers_need_an_accepted_recording (env : Env) (req : Request)
    (w w' : World) (r : outcome Response) :
  RouteV1.serve env req w = (r, w') ->
  calls w' <> calls w ->
  exists caller w1 form audioFile path w2 validation,
    AuthV1.authenticate req w = (Return (inr caller), w1) /\
    formData req = Return form /\ form_audio form = Some audioFile /\
    In (file_type audioFile) RouteV1.ALLOWED_TYPES /\
    f_size (file_content audioFile) <= AudioV1.maxSize env /\
    files w2 !! path = Some (file_content audioFile) /\
    AudioV1.validateAudio env path w2 = (Return validation, w2) /\
    valid validation = true.
Proof.
  unfold RouteV1.serve, RouteV1.POST.
  destruct (authenticate_keeps_calls req w) as (authResult & w1 & Hauth & Hcalls).
  unfold try_catch. unfold bind at 1. unfold RouteV1.on_world at 1, lift.
  rewrite Hauth.
  destruct authResult as [denied | caller].
  { intros [= <- <-] Hcalled. congruence. }
  unfold bind at 1.
  destruct (formData req) as [form|v] eqn:Hform.
  2: { pose proof (catch_clause_keeps_calls env v (w1, [], RouteV1.mkLocals None None))
         as Hcatch.
       cbn [fst snd] in Hcatch. destruct (bind _ _ _) as [r0 [[w0 tr0] l0]].
       cbn [fst snd] in Hcatch. intros [= <- <-] Hcalled. congruence. }
  destruct (form_audio form) as [audioFile|] eqn:Haudio.
  2: { intros [= <- <-] Hcalled. congruence. }
  destruct (existsb (String.eqb (file_type audioFile)) RouteV1.ALLOWED_TYPES)
    eqn:Htype; cbn [negb].
  2: { intros [= <- <-] Hcalled. congruence. }
  destruct (Z.gtb_spec (f_size (file_content audioFile)) (AudioV1.maxSize env))
    as [Hlarge | Hsize].
  { intros [= <- <-] Hcalled. congruence. }
  apply existsb_exists in Htype as (t & Hin & Heq). apply String.eqb_eq in Heq.
  subst t.
  unfold RouteV1.POST_upload.
  unfold bind at 1. unfold RouteV1.on_world at 1, lift.
  destruct (randomUUID w1) as [ru wu] eqn:Huuid.
  assert (Hu : exists uuid, ru = Return uuid /\ calls wu = calls w1 /\
                            write_error wu = write_error w1).
  { unfold randomUUID in Huuid. destruct (uuids w1); inversion Huuid; subst;
      eexists; repeat split; reflexivity. }
  destruct Hu as (uuid & -> & Hcalls_u & Hwrite).
  set (path := RouteV1.path_join (RouteV1.path_join (cwd env) "uploads")
                 (uuid +:+ "-" +:+ or_string (Some (file_name audioFile)) "audio")).
  unfold bind at 1. unfold RouteV1.assign_audioFilePath at 1, modify.
  cbn [RouteV1.preparedPath].
  unfold bind at 1. unfold RouteV1.on_world at 1, lift. unfold writeFile at 1.
  destruct (write_error wu) as [e|].
  { pose proof (catch_clause_keeps_calls env (Exn e)
                  (wu, [], RouteV1.mkLocals (Some path) None)) as Hcatch.
    cbn [fst snd] in Hcatch. destruct (bind _ _ _) as [r0 [[w0 tr0] l0]].
    cbn [fst snd] in Hcatch. intros [= <- <-] Hcalled. congruence. }
  set (w2 := set_files (insert path (file_content audioFile)) wu).
  destruct (validateAudio1_same_world env path w2) as [validation Hvalidation].
  unfold bind at 1. unfold RouteV1.on_world at 1, lift. rewrite Hvalidation.
  destruct (valid validation) eqn:Hvalid; cbn [negb].
  2: { intros [= <- <-] Hcalled. unfold w2 in Hcalled.
       cbn [calls set_files] in Hcalled. congruence. }
  intros _ _.
  exists caller, w1, form, audioFile, path, w2, validation.
  repeat split; try assumption; try reflexivity.
  unfold w2. rewrite files_set_files. apply lookup_insert_eq.
Qed.

Lemma providers_need_an_accepted_recording_witness :
  exists caller w1 form audioFile path w2 validation,
    AuthV1.authenticate (upload clip) world_before_upload = (Return (inr caller), w1) /\
    formData (upload clip) = Return form /\ form_audio form = Some audioFile /\
    In (file_type audioFile) RouteV1.ALLOWED_TYPES /\
    f_size (file_content audioFile) <= AudioV1.maxSize env0 /\
    files w2 !! path = Some (file_content audioFile) /\
    AudioV1.validateAudio env0 path w2 = (Return validation, w2) /\
    valid validation = true.
Proof.
  apply (providers_need_an_accepted_recording env0 (upload clip) world_before_upload
           (snd (RouteV1.serve env0 (upload clip) world_before_upload))
           (fst (RouteV1.serve env0 (upload clip) world_before_upload))).
  - vm_compute. reflexivity.
  - vm_compute. discriminate.
Defined.

(** ** One turn of the second generation and the message store *)

Ltac keeps_by_cases :=
  let w := fresh "w" in
  intros w;
  repeat match goal with
    | |- context [match ?x with _ => _ end] =>
        let H := fresh "H" in destruct x eqn:H; rewrite ?H
    end;
  reflexivity.

Lemma fresh_id_keeps_messages : keeps messages fresh_id.
Proof. unfold fresh_id. keeps_by_cases. Qed.

Lemma now_keeps {X} (f : World -> X) : keeps f now.
Proof. intros w. reflexivity. Qed.

Lemma existsSync_keeps {X} (f : World -> X) (path : string) : keeps f (existsSync path).
Proof. intros w. reflexivity. Qed.

Lemma statSync_size_keeps {X} (f : World -> X) (path : string) :
  keeps f (statSync_size path).
Proof. unfold statSync_size. keeps_by_cases. Qed.

Lemma ffprobe_duration_keeps {X} (f : World -> X) (path : string) :
  keeps f (ffprobe_duration path).
Proof. unfold ffprobe_duration. keeps_by_cases. Qed.

Lemma writeFile_keeps_messages (path : string) (content : FileMeta) :
  keeps messages (writeFile path content).
Proof. unfold writeFile. keeps_by_cases. Qed.

Lemma unlink_keeps_messages (path : string) : keeps messages (unlink path).
Proof. unfold unlink. keeps_by_cases. Qed.

Lemma ffmpeg_keeps_messages (inputPath outputPath : string) :
  keeps messages (ffmpeg inputPath outputPath).
Proof. unfold ffmpeg. keeps_by_cases. Qed.

Lemma set_sessions_keeps_messages (g : gmap ObjectId SessionDoc -> gmap ObjectId SessionDoc) :
  keeps messages (modify (set_sessions g)).
Proof. intros w. reflexivity. Qed.

Ltac keeps_messages_steps :=
  repeat (keeps_steps;
          try first
            [ apply connectDB_keeps | apply cast_keeps | apply cast_field_keeps
            | apply store_op_keeps_messages | apply fresh_id_keeps_messages
            | apply now_keeps | apply existsSync_keeps
            | apply statSync_size_keeps | apply ffprobe_duration_keeps
            | apply writeFile_keeps_messages | apply unlink_keeps_messages
            | apply ffmpeg_keeps_messages
            | apply whisper_create_keeps_messages | apply chat_create_keeps_messages
            | apply speech_create_keeps_messages
            | apply set_sessions_keeps_messages
            | match goal with
              | |- keeps _ (match ?x with _ => _ end) => destruct x
              end ]).

Lemma validateAudio2_keeps_messages (filePath : string) :
  keeps messages (AudioV2.validateAudio filePath).
Proof. unfold AudioV2.validateAudio. keeps_messages_steps. Qed.

Lemma unlink_quietly_keeps_messages (path : string) :
  keeps messages (RouteV2.unlink_quietly path).
Proof. unfold RouteV2.unlink_quietly. keeps_messages_steps. Qed.

Lemma prepareAudioForWhisper2_keeps_messages (inputPath : string) :
  keeps messages (RouteV2.prepareAudioForWhisper inputPath).
Proof. unfold RouteV2.prepareAudioForWhisper. keeps_messages_steps. Qed.

Lemma getOrCreateSession2_keeps_messages (userId : string) (sessionId : option string) :
  keeps messages (ConversationV2.getOrCreateSession userId sessionId).
Proof.
  unfold ConversationV2.getOrCreateSession, ConversationV2.getSession,
    ConversationV2.createSession.
  keeps_messages_steps.
Qed.

Lemma getConversationHistory2_keeps_messages (sessionId : string) (limit : option Z) :
  keeps messages (ConversationV2.getConversationHistory sessionId limit).
Proof. unfold ConversationV2.getConversationHistory. keeps_messages_steps. Qed.

Lemma transcribeAudio2_keeps_messages (path : string) :
  keeps messages (SttV2.transcribeAudio path).
Proof. unfold SttV2.transcribeAudio. keeps_messages_steps. Qed.

Lemma generateResponse2_keeps_messages (userText : string) (history : list ChatMessage) :
  keeps messages (LlmV2.generateResponse userText history).
Proof.
  unfold LlmV2.generateResponse. keeps_messages_steps.
  apply keeps_sdk_request, chat_create_keeps_messages.
Qed.

Lemma synthesizeSpeech2_keeps_messages (text : string) :
  keeps messages (TtsV2.synthesizeSpeech text).
Proof.
  unfold TtsV2.synthesizeSpeech. keeps_messages_steps.
  apply keeps_sdk_request, speech_create_keeps_messages.
Qed.

(** One [saveMessage] of the second generation: it throws and writes
    nothing, or it returns and has appended the message. *)
Lemma saveMessage2_appends_or_throws (sessionId : string) (r : role)
    (content : string) (w : World) :
  match ConversationV2.saveMessage sessionId r content w with
  | (Return _, w') =>
      exists sid,
        parseObjectId sessionId = Some sid /\
        messages w' = messages w ++ [mkMessage sid r content (clock w)]
  | (Throw _, w') => messages w' = messages w
  end.
Proof.
  unfold ConversationV2.saveMessage, connectDB, store_op, now, bind, ret, raise,
    throw, modify.
  destruct (db_down w); [reflexivity|].
  destruct (parseObjectId sessionId) as [sid|]; [|reflexivity].
  destruct (db_faults w) as [|[e|] rest]; try reflexivity;
    exists sid; split; reflexivity.
Qed.

(** A session identifier is a header value as it stands. *)
Lemma hex_is_plain (c : ascii) :
  is_hex c = true ->
  RouteV2.is_http_space c = false /\
  RouteV2.isValidHeaderValue (String c EmptyString) = true.
Proof.
  destruct c as [[] [] [] [] [] [] [] []]; vm_compute; intros Hc;
    try discriminate Hc; split; reflexivity.
Qed.

Lemma hex_is_kept (s : string) :
  string_forall is_hex s = true ->
  RouteV2.drop_http_space_at_end s = s /\ RouteV2.isValidHeaderValue s = true.
Proof.
  induction s as [|c s IH]; [split; reflexivity|].
  cbn [string_forall]. intros Hs. apply andb_true_iff in Hs as [Hc Hs].
  destruct (IH Hs) as [Hkept Hvalid]. destruct (hex_is_plain c Hc) as [Hspace Hchar].
  split.
  - cbn [RouteV2.drop_http_space_at_end]. rewrite Hkept, Hspace.
    destruct s; reflexivity.
  - unfold RouteV2.isValidHeaderValue in *. cbn [string_forall] in *.
    rewrite Hvalid. rewrite andb_true_r in Hchar |- *. exact Hchar.
Qed.

Lemma ObjectId_is_a_header (s : string) (oid : ObjectId) :
  parseObjectId s = Some oid ->
  RouteV2.isValidHeaderValue (RouteV2.headerValueNormalize s) = true.
Proof.
  unfold parseObjectId. intros Hs.
  destruct (string_forall is_hex s) eqn:Hhex;
    [|rewrite andb_false_r in Hs; discriminate].
  unfold RouteV2.headerValueNormalize.
  assert (Hskip : RouteV2.skip_http_space s = s).
  { destruct s as [|c s]; [reflexivity|]. cbn [string_forall] in Hhex.
    apply andb_true_iff in Hhex as [Hc _].
    cbn [RouteV2.skip_http_space]. rewrite (proj1 (hex_is_plain c Hc)). reflexivity. }
  rewrite Hskip. destruct (hex_is_kept s Hhex) as [-> Hvalid]. exact Hvalid.
Qed.

Section SecondGenerationTurn.

Context (before : list MessageDoc).

Local Abbreviation untouched :=
  (fun st : World * trace => messages (fst st) = before).

(** What the store may hold when the [try] block throws. *)
Local Abbreviation interrupted :=
  (fun st : World * trace =>
     untouched st \/ user_alone before (messages (fst st)) \/
     unannounced_turn before (messages (fst st))).

Lemma kept_untouched {A} (c : IO (World * trace) A) :
  keeps (fun st : World * trace => messages (fst st)) c ->
  hoare untouched c (fun _ => untouched) (fun _ => interrupted).
Proof.
  intros Hc.
  apply (hoare_weaken _ _ _ _ _ _ _
           (hoare_keeps (fun st : World * trace => messages (fst st))
              (fun ms => ms = before) c Hc)).
  - intros s Hs. exact Hs.
  - intros a s Hs. exact Hs.
  - intros v s Hs. left. exact Hs.
Qed.

(** The [try] block of the second generation's route writes both messages
    of the turn and answers with the audio, or answers 400 and writes
    nothing, or throws: with nothing written, with the user message written,
    or with both written and a transcript that the response cannot carry. *)
Lemma attempt_persists (userId tmpPath : string) (audioFile : File)
    (sessionId : option string) :
  hoare untouched
    (RouteV2.attempt userId tmpPath audioFile sessionId)
    (fun r st =>
       match r with
       | AudioResponse _ _ _ transcript _ =>
           whole_turn before (messages (fst st)) transcript /\
           ~ refused_header transcript
       | JsonResponse status _ _ => status = 400 /\ untouched st
       end)
    (fun _ => interrupted).
Proof.
  unfold RouteV2.attempt.
  apply (hoare_bind _ _ _ (fun _ => untouched)).
  { apply kept_untouched, (keeps_lift messages), writeFile_keeps_messages. }
  intros _.
  apply (hoare_bind _ _ _ (fun _ => untouched)).
  { apply kept_untouched, (keeps_lift messages), validateAudio2_keeps_messages. }
  intros validation. apply hoare_if; intros _.
  { apply (hoare_bind _ _ _ (fun _ => untouched)).
    - apply kept_untouched, (keeps_lift messages), unlink_quietly_keeps_messages.
    - intros _ s Hs. split; [reflexivity | exact Hs]. }
  apply (hoare_bind _ _ _ (fun _ => untouched)).
  { apply kept_untouched, (keeps_lift messages), getOrCreateSession2_keeps_messages. }
  intros activeSessionId.
  apply (hoare_bind _ _ _
           (fun prepared st =>
              match prepared with
              | inl refused => refused = RouteV2.validation_error
                                           match refused with
                                           | JsonResponse _ _ m => m
                                           | AudioResponse _ _ _ _ _ => ""
                                           end
              | inr _ => True
              end /\ untouched st)).
  { apply (hoare_try_catch _ _ _ _ (fun _ => untouched)).
    - apply (hoare_bind _ _ _ (fun _ => untouched)).
      + apply (hoare_weaken _ _ _ _ _ _ _
                 (hoare_keeps (fun st : World * trace => messages (fst st))
                    (fun ms => ms = before) _
                    (keeps_lift messages _
                       (prepareAudioForWhisper2_keeps_messages tmpPath))));
          intros; assumption.
      + intros p s Hs. split; [exact I | exact Hs].
    - intros e.
      apply (hoare_bind _ _ _ (fun _ => untouched)).
      + apply kept_untouched, (keeps_lift messages), unlink_quietly_keeps_messages.
      + intros _ s Hs. split; [reflexivity | exact Hs]. }
  intros [refused | preparedPath].
  { intros s [-> Hs]. split; [reflexivity | exact Hs]. }
  apply hoare_assume. intros _.
  apply (hoare_bind _ _ _ (fun _ => untouched)).
  { apply (hoare_try_finally _ _ _ (fun _ => untouched) _
             (fun _ st => untouched st)).
    - apply (hoare_weaken _ _ _ _ _ _ _
               (hoare_keeps (fun st : World * trace => messages (fst st))
                  (fun ms => ms = before) _
                  (keeps_retry2 messages _
                     (transcribeAudio2_keeps_messages preparedPath) (Some 2))));
        intros; assumption.
    - intros _.
      assert (Hquiet :
        hoare untouched (lift (RouteV2.unlink_quietly preparedPath))
          (fun _ => untouched) (fun _ _ => False)).
      { intros [w tr] Hs. unfold lift, RouteV2.unlink_quietly, try_catch, unlink, ret.
        cbn [fst] in *.
        destruct (files w !! preparedPath) as [f|]; [|exact Hs].
        destruct (f_unlink_error f); exact Hs. }
      exact Hquiet.
    - intros _.
      apply (hoare_weaken (fun st => untouched st) untouched _
               (fun _ => interrupted)
               (fun _ => untouched) (fun _ _ => False) (fun _ _ => False)).
      + intros [w tr] Hs. unfold lift, RouteV2.unlink_quietly, try_catch, unlink, ret.
        cbn [fst] in *.
        destruct (files w !! preparedPath) as [f|]; [|exact Hs].
        destruct (f_unlink_error f); exact Hs.
      + intros s Hs. exact Hs.
      + intros _ s Hs. left. exact Hs.
      + intros _ s []. }
  intros transcript. apply hoare_if; intros _.
  { intros s Hs. split; [reflexivity | exact Hs]. }
  apply (hoare_bind _ _ _ (fun _ => untouched)).
  { apply kept_untouched, (keeps_lift messages), getConversationHistory2_keeps_messages. }
  intros history.
  apply (hoare_bind _ _ _ (fun _ => untouched)).
  { apply kept_untouched, (keeps_retry2 messages), generateResponse2_keeps_messages. }
  intros responseText.
  apply (hoare_bind _ _ _ (fun _ => untouched)).
  { apply kept_untouched, (keeps_retry2 messages), synthesizeSpeech2_keeps_messages. }
  intros audio.
  apply (hoare_bind _ _ _
           (fun _ st => exists sid t,
              parseObjectId activeSessionId = Some sid /\
              messages (fst st) = before ++ [mkMessage sid user transcript t])).
  { intros [w tr] Hs. unfold lift. cbn [fst] in *.
    pose proof (saveMessage2_appends_or_throws activeSessionId user transcript w) as Hsave.
    destruct (ConversationV2.saveMessage activeSessionId user transcript w)
      as [[[]|v] w1]; cbn [fst].
    - destruct Hsave as (sid & Hsid & Hm). exists sid, (clock w).
      split; [exact Hsid|]. rewrite Hm, Hs. reflexivity.
    - left. rewrite Hsave. exact Hs. }
  intros _.
  apply (hoare_bind _ _ _
           (fun _ st => is_Some (parseObjectId activeSessionId) /\
                        whole_turn before (messages (fst st)) transcript)).
  { intros [w tr] (sid & t & Hsid & Hs). unfold lift. cbn [fst] in *.
    pose proof (saveMessage2_appends_or_throws activeSessionId assistant responseText w)
      as Hsave.
    destruct (ConversationV2.saveMessage activeSessionId assistant responseText w)
      as [[[]|v] w1]; cbn [fst].
    - destruct Hsave as (sid' & Hsid' & Hm). split; [exists sid; exact Hsid|].
      exists sid, responseText, t, (clock w).
      rewrite Hm, Hs, <- app_assoc. replace sid' with sid by congruence. reflexivity.
    - right. left. exists sid, transcript, t. rewrite Hsave. exact Hs. }
  intros _ s [[sid Hsid] Hs]. unfold RouteV2.audio_response.
  rewrite (ObjectId_is_a_header activeSessionId sid Hsid).
  destruct (RouteV2.isValidHeaderValue (RouteV2.headerValueNormalize transcript))
    eqn:Hheader.
  - split; [exact Hs|]. unfold refused_header. congruence.
  - right. right. exists transcript. split; [exact Hs | exact Hheader].
Qed.

End SecondGenerationTurn.


(** The store fails at the second save: the caller is told 500, and the
    user message stays without its reply. *)
Example second_generation_user_message_without_reply :
  exists w' tr',
    RouteV2.handleConversation env0
      (mkRequest None
         (Return (mkForm (Some (mkUpload "a.wav" "audio/wav" clip)) (Some session_id))))
      alice_id
      (set_db_faults [None; None; None; None; Some storage_error]
         world_where_second_save_fails, [])
    = (Return (JsonResponse 500 "INTERNAL_SERVER_ERROR" (message storage_error)),
       (w', tr')) /\
    messages w' = [mkMessage session_id user "hello" 0].
Proof. eexists _, _. split; vm_compute; reflexivity. Qed.

(** A transcript of two lines: both messages are stored, and the caller is
    told 500, because the transcript cannot be sent as a header. *)
Example second_generation_turn_stored_and_refused :
  exists w' tr',
    RouteV2.handleConversation env0
      (mkRequest None
         (Return (mkForm (Some (mkUpload "a.wav" "audio/wav" clip)) (Some session_id))))
      alice_id
      (set_db_faults [] (set_whisper [Return two_lines] world_where_second_save_fails),
       [])
    = (Return (JsonResponse 500 "INTERNAL_SERVER_ERROR"
                 (message (RouteV2.invalid_header_value two_lines))),
       (w', tr')) /\
    messages w' = [mkMessage session_id user two_lines 0;
                   mkMessage session_id assistant "hi there" 0].
Proof. eexists _, _. split; vm_compute; reflexivity. Qed.

(** ** The name of the temporary file *)

Lemma string_forall_map (p : ascii -> bool) (g : ascii -> ascii) (s : string) :
  (forall c, p (g c) = true) -> string_forall p (string_map g s) = true.
Proof.
  intros Hg. induction s as [|c s IH]; [reflexivity|].
  cbn [string_map string_forall]. rewrite Hg, IH. reflexivity.
Qed.

Lemma string_forall_substring (p : ascii -> bool) (n : nat) (s : string) :
  string_forall p s = true -> string_forall p (String.substring 0 n s) = true.
Proof.
  revert n. induction s as [|c s IH]; intros [|n] Hs; try reflexivity.
  cbn [string_forall] in Hs. apply andb_true_iff in Hs as [Hc Hs].
  cbn [String.substring string_forall]. rewrite Hc, (IH n Hs). reflexivity.
Qed.

Lemma length_substring (n : nat) (s : string) :
  (String.length (String.substring 0 n s) <= n)%nat.
Proof.
  revert n. induction s as [|c s IH]; intros [|n]; cbn [String.substring String.length];
    try lia.
  specialize (IH n). lia.
Qed.

Lemma substring_short (n : nat) (s : string) :
  (String.length s <= n)%nat -> String.substring 0 n s = s.
Proof.
  revert n. induction s as [|c s IH]; intros [|n] Hlen; try reflexivity.
  - cbn [String.length] in Hlen. lia.
  - cbn [String.length] in Hlen. cbn [String.substring]. rewrite IH by lia. reflexivity.
Qed.

Lemma string_map_safe (s : string) :
  string_forall RouteV2.is_safe s = true ->
  string_map (fun c => if RouteV2.is_safe c then c else "_"%char) s = s.
Proof.
  induction s as [|c s IH]; [reflexivity|]. cbn [string_forall string_map].
  intros Hs. apply andb_true_iff in Hs as [Hc Hs]. rewrite Hc, (IH Hs). reflexivity.
Qed.

(** X16. The name under which the second generation's route stores an
    upload is made of letters, digits, [_], [.] and [-] only, whatever the
    client called the file, so it has no path separator; it has between 1
    and 50 characters; and a name that already is of that form is kept as
    it is, so that cleaning a name twice changes nothing more. *)
Theorem safeName_is_safe (name : string) :
  string_forall RouteV2.is_safe (RouteV2.safeName name) = true /\
  (1 <= String.length (RouteV2.safeName name) <= 50)%nat /\
  includes (RouteV2.safeName name) "/" = false /\
  RouteV2.safeName (RouteV2.safeName name) = RouteV2.safeName name.
Proof.
  assert (Hsafe : string_forall RouteV2.is_safe (RouteV2.safeName name) = true).
  { unfold RouteV2.safeName, or_string.
    destruct (String.length _ =? 0)%nat; [reflexivity|].
    apply string_forall_substring, string_forall_map.
    intros c. destruct (RouteV2.is_safe c) eqn:Hc; [exact Hc | reflexivity]. }
  assert (Hlen : (1 <= String.length (RouteV2.safeName name) <= 50)%nat).
  { unfold RouteV2.safeName, or_string.
    destruct (Nat.eqb_spec (String.length
                (String.substring 0 50
                   (string_map (fun c => if RouteV2.is_safe c then c else "_"%char) name)))
                0) as [Hzero | Hpos].
    - cbn [String.length]. lia.
    - pose proof (length_substring 50
                    (string_map (fun c => if RouteV2.is_safe c then c else "_"%char) name)).
      lia. }
  split; [exact Hsafe|]. split; [exact Hlen|]. split.
  - revert Hsafe. generalize (RouteV2.safeName name). intros s.
    induction s as [|c s IH]; [reflexivity|].
    cbn [string_forall includes]. intros Hs. apply andb_true_iff in Hs as [Hc Hs].
    rewrite (IH Hs), orb_false_r. cbn [String.prefix].
    destruct (Ascii.ascii_dec "/" c) as [<-|]; [discriminate Hc | reflexivity].
  - revert Hsafe Hlen. generalize (RouteV2.safeName name). intros s Hs Hlen.
    unfold RouteV2.safeName. rewrite (string_map_safe s Hs).
    rewrite substring_short by lia. unfold or_string.
    destruct (Nat.eqb_spec (String.length s) 0) as [Hzero | _]; [lia | reflexivity].
Qed.

(** ** Sessions and their owners *)

(** X17. [getSession], in either generation, never changes the collection
    of sessions, whether it returns or throws, and leaves the world as it
    was but for the store answer it used up.  What it returns is the session
    that the store holds under the given id with the caller as its
    [userId], and no session when there is none such: a session of somebody
    else is answered as no session at all.  The second generation throws
    only when the store cannot be reached or fails, and answers a malformed
    id with no session; the first generation throws on those failures and on
    an id, of the session or of the user, that is not an [ObjectId]. *)
Theorem getSession_returns_own_sessions (sessionId userId : string) (w : World) :
  (exists r w',
      ConversationV2.getSession sessionId userId w = (r, w') /\
      w' = set_db_faults (db_faults w') w /\ sessions w' = sessions w /\
      match r with
      | Return found =>
          db_down w = None /\
          found = owned_session w sessionId userId /\
          (is_Some (parseObjectId sessionId) -> next_fault w = None)
      | Throw v =>
          exists e, v = Exn e /\
            (db_down w = Some e \/
             db_down w = None /\ is_Some (parseObjectId sessionId) /\
             next_fault w = Some e)
      end) /\
  (exists r w',
      SessionV1.getSession sessionId userId w = (r, w') /\
      w' = set_db_faults (db_faults w') w /\ sessions w' = sessions w /\
      match r with
      | Return found =>
          db_down w = None /\ next_fault w = None /\
          is_Some (parseObjectId sessionId) /\
          exists uid, parseObjectId userId = Some uid /\
                      found = owned_session w sessionId uid
      | Throw v =>
          exists e, v = Exn e /\
            (db_down w = Some e \/
             db_down w = None /\
             (parseObjectId sessionId = None \/ parseObjectId userId = None \/
              next_fault w = Some e))
      end).
Proof.
  split; session_steps; unfold owned_session, next_fault.
  - destruct (db_down w) as [down|].
    { eexists _, w. split; [reflexivity|]. split; [apply world_but_for_faults|].
      split; [reflexivity|]. exists down. split; [reflexivity|]. left. reflexivity. }
    destruct (parseObjectId sessionId) as [oid|].
    2: { eexists _, w. split; [reflexivity|]. split; [apply world_but_for_faults|].
         split; [reflexivity|]. split; [reflexivity|]. split; [reflexivity|].
         intros [? [=]]. }
    destruct (db_faults w) as [|[e|] rest] eqn:Hfaults; cbn [sessions set_db_faults].
    2: { eexists _, _. split; [reflexivity|]. split; [destruct w; reflexivity|].
         split; [reflexivity|]. exists e. split; [reflexivity|]. right.
         split; [reflexivity|]. split; [eexists|]; reflexivity. }
    all: destruct (sessions w !! oid) as [s|];
      [destruct (String.eqb (s_userId s) userId)|].
    all: eexists _, _; (split; [reflexivity|]);
      (split; [first [apply world_but_for_faults | destruct w; reflexivity]|]);
      repeat split.
  - destruct (db_down w) as [down|].
    { eexists _, w. split; [reflexivity|]. split; [apply world_but_for_faults|].
      split; [reflexivity|]. exists down. split; [reflexivity|]. left. reflexivity. }
    destruct (parseObjectId sessionId) as [oid|].
    2: { eexists _, w. split; [reflexivity|]. split; [apply world_but_for_faults|].
         split; [reflexivity|]. eexists. split; [reflexivity|]. right.
         split; [reflexivity|]. left. reflexivity. }
    destruct (parseObjectId userId) as [uid|].
    2: { eexists _, w. split; [reflexivity|]. split; [apply world_but_for_faults|].
         split; [reflexivity|]. eexists. split; [reflexivity|]. right.
         split; [reflexivity|]. right. left. reflexivity. }
    destruct (db_faults w) as [|[e|] rest] eqn:Hfaults; cbn [sessions set_db_faults].
    2: { eexists _, _. split; [reflexivity|]. split; [destruct w; reflexivity|].
         split; [reflexivity|]. exists e. split; [reflexivity|]. right.
         split; [reflexivity|]. right. right. reflexivity. }
    all: destruct (sessions w !! oid) as [s|];
      [destruct (String.eqb (s_userId s) uid) eqn:Hown|].
    all: eexists _, _; (split; [reflexivity|]);
      (split; [first [apply world_but_for_faults | destruct w; reflexivity]|]);
      (split; [reflexivity|]); (split; [reflexivity|]); (split; [reflexivity|]);
      (split; [eexists; reflexivity|]); exists uid; split; [reflexivity|];
      rewrite ?Hown; reflexivity.
Qed.

(** Somebody else's session is answered as no session, in both
    generations. *)
Example foreign_session_is_no_session :
  ConversationV2.getSession session_id "mallory" world_with_session
  = (Return None, world_with_session) /\
  SessionV1.getSession session_id fresh_session_id world_with_session
  = (Return None, world_with_session).
Proof. split; vm_compute; reflexivity. Qed.

(** Runs a computation on the store as far as the facts at hand decide
    it. *)
Ltac look_up :=
  repeat first
    [ progress cbn [db_down db_faults set_sessions set_messages sessions messages
                    s_userId users clock]
    | match goal with
      | H : db_down _ = _ |- _ => rewrite H
      | H : db_faults _ = _ |- _ => rewrite H
      | H : parseObjectId _ = _ |- _ => rewrite H
      end
    | rewrite lookup_insert_eq ].

(** X18. A session that [createSession] has just made is found again by
    [getSession] under the id returned, as a session of the user who made
    it, for that user and for nobody else; in the first generation, where
    the user id is stored as an [ObjectId], for a user id that is one.  (The
    store answers, and hands out ids that are lower-case [ObjectId]s.
    Nothing is said of the two time stamps of the session.) *)
Theorem createSession_then_getSession (userId other : string) (w : World) :
  db_down w = None -> db_faults w = [] ->
  (forall id rest, fresh_ids w = id :: rest -> parseObjectId id = Some id) ->
  (exists id w1 s,
      ConversationV2.createSession userId w = (Return id, w1) /\
      ConversationV2.getSession id userId w1 = (Return (Some (id, s)), w1) /\
      s_userId s = userId /\
      (other <> userId -> ConversationV2.getSession id other w1 = (Return None, w1))) /\
  (forall uid,
      parseObjectId userId = Some uid ->
      exists id w1 s,
        SessionV1.createSession userId w = (Return id, w1) /\
        SessionV1.getSession id userId w1 = (Return (Some (id, s)), w1) /\
        s_userId s = uid /\
        (forall oid, parseObjectId other = Some oid -> oid <> uid ->
                     SessionV1.getSession id other w1 = (Return None, w1))).
Proof.
  intros Hup Hok Hfresh.
  assert (Hid : exists id w0,
             fresh_id w = (Return id, w0) /\ parseObjectId id = Some id /\
             db_down w0 = None /\ db_faults w0 = [] /\ clock w0 = clock w /\
             sessions w0 = sessions w).
  { unfold fresh_id. destruct (fresh_ids w) as [|id rest] eqn:Hids.
    - eexists _, w. repeat split; try assumption; reflexivity.
    - eexists id, _. split; [reflexivity|]. split; [exact (Hfresh id rest eq_refl)|].
      repeat split; assumption. }
  destruct Hid as (id & w0 & Hgot & Hparse & Hup0 & Hok0 & Hclock & Hsessions).
  split.
  - exists id, (set_sessions (insert id (mkSession userId (clock w) (clock w))) w0),
      (mkSession userId (clock w) (clock w)).
    split; [|split; [|split; [reflexivity|]]].
    + cbv beta iota zeta delta
        [ConversationV2.createSession connectDB store_op now bind ret modify].
      rewrite Hup, Hok, Hgot, ?Hclock. reflexivity.
    + session_steps. look_up. rewrite String.eqb_refl. reflexivity.
    + intros Hother. session_steps. look_up.
      destruct (String.eqb_spec userId other); [congruence | reflexivity].
  - intros uid Huid.
    exists id, (set_sessions (insert id (mkSession uid (clock w) (clock w))) w0),
      (mkSession uid (clock w) (clock w)).
    split; [|split; [|split; [reflexivity|]]].
    + cbv beta iota zeta delta
        [SessionV1.createSession SessionV1.Session_create SessionV1.cast_field
         connectDB store_op now bind try_catch ret raise throw modify].
      rewrite Hup, Huid, Hok, Hgot, ?Hclock. reflexivity.
    + session_steps. look_up. rewrite String.eqb_refl. reflexivity.
    + intros oid Hoid Hne. session_steps. look_up.
      destruct (String.eqb_spec uid oid); [congruence | reflexivity].
Qed.

Lemma createSession_then_getSession_witness :
  (exists id w1 s,
      ConversationV2.createSession alice_id world_with_session = (Return id, w1) /\
      ConversationV2.getSession id alice_id w1 = (Return (Some (id, s)), w1) /\
      s_userId s = alice_id /\
      ("mallory" <> alice_id ->
       ConversationV2.getSession id "mallory" w1 = (Return None, w1))) /\
  (forall uid,
      parseObjectId alice_id = Some uid ->
      exists id w1 s,
        SessionV1.createSession alice_id world_with_session = (Return id, w1) /\
        SessionV1.getSession id alice_id w1 = (Return (Some (id, s)), w1) /\
        s_userId s = uid /\
        (forall oid, parseObjectId "mallory" = Some oid -> oid <> uid ->
                     SessionV1.getSession id "mallory" w1 = (Return None, w1))).
Proof.
  apply (createSession_then_getSession alice_id "mallory" world_with_session).
  - reflexivity.
  - reflexivity.
  - intros id rest [= <- <-]. reflexivity.
Defined.

(** ** Saving a message and loading the history *)

Lemma insert_by_createdAt_last (m : MessageDoc) (l : list MessageDoc) :
  Forall (fun x => m_createdAt x <= m_createdAt m) l ->
  insert_by_createdAt m l = l ++ [m].
Proof.
  induction 1 as [|x l Hx Hl IH]; [reflexivity|]. cbn [insert_by_createdAt].
  replace (m_createdAt m <? m_createdAt x) with false
    by (symmetry; apply Z.ltb_ge; exact Hx).
  rewrite IH. reflexivity.
Qed.

Lemma insert_by_createdAt_Forall (P : MessageDoc -> Prop) (m : MessageDoc)
    (l : list MessageDoc) :
  P m -> Forall P l -> Forall P (insert_by_createdAt m l).
Proof.
  intros Hm. induction 1 as [|x l Hx Hl IH]; cbn [insert_by_createdAt].
  - constructor; [exact Hm | constructor].
  - destruct (m_createdAt m <? m_createdAt x); repeat constructor; assumption.
Qed.

Lemma insert_by_createdAt_length (m : MessageDoc) (l : list MessageDoc) :
  length (insert_by_createdAt m l) = S (length l).
Proof.
  induction l as [|x l IH]; [reflexivity|]. cbn [insert_by_createdAt].
  destruct (m_createdAt m <? m_createdAt x); cbn [length]; [|rewrite IH]; reflexivity.
Qed.

Lemma sort_by_createdAt_snoc (l : list MessageDoc) (m : MessageDoc) :
  sort_by_createdAt (l ++ [m]) = insert_by_createdAt m (sort_by_createdAt l).
Proof. unfold sort_by_createdAt. rewrite foldl_snoc. reflexivity. Qed.

Lemma sort_by_createdAt_Forall (P : MessageDoc -> Prop) (l : list MessageDoc) :
  Forall P l -> Forall P (sort_by_createdAt l).
Proof.
  induction l as [|m l IH] using rev_ind; intros Hl; [constructor|].
  apply Forall_app in Hl as [Hl Hm]. rewrite sort_by_createdAt_snoc.
  apply insert_by_createdAt_Forall; [|apply IH, Hl].
  inversion Hm; assumption.
Qed.

Lemma sort_by_createdAt_length (l : list MessageDoc) :
  length (sort_by_createdAt l) = length l.
Proof.
  induction l as [|m l IH] using rev_ind; [reflexivity|].
  rewrite sort_by_createdAt_snoc, insert_by_createdAt_length, length_app, IH.
  cbn [length]. lia.
Qed.

(** The history of a session after one more message was stored in it, with
    a clock that is not behind the stored messages. *)
Lemma history_after_insert (sid : ObjectId) (r : role) (content : string)
    (limit : Z) (w : World) :
  Forall (fun m => m_createdAt m <= clock w) (messages w) ->
  0 < limit ->
  cursor_limit limit
    (sort_by_createdAt
       (find_messages sid
          (set_messages (fun l => l ++ [mkMessage sid r content (clock w)]) w)))
  = if (length (find_messages sid w) <? Z.to_nat limit)%nat
    then cursor_limit limit (sort_by_createdAt (find_messages sid w))
           ++ [mkMessage sid r content (clock w)]
    else cursor_limit limit (sort_by_createdAt (find_messages sid w)).
Proof.
  intros Hclock Hlimit.
  assert (Hfound :
    find_messages sid (set_messages (fun l => l ++ [mkMessage sid r content (clock w)]) w)
    = find_messages sid w ++ [mkMessage sid r content (clock w)]).
  { unfold find_messages. cbn [messages set_messages]. rewrite List.filter_app.
    cbn [List.filter m_sessionId]. rewrite String.eqb_refl. reflexivity. }
  rewrite Hfound, sort_by_createdAt_snoc, insert_by_createdAt_last.
  2: { apply sort_by_createdAt_Forall. unfold find_messages.
       apply List.Forall_forall. intros m Hm. apply List.filter_In in Hm as [Hm _].
       rewrite List.Forall_forall in Hclock. exact (Hclock m Hm). }
  unfold cursor_limit.
  replace (limit =? 0) with false by (symmetry; apply Z.eqb_neq; lia).
  rewrite Z.abs_eq by lia.
  pose proof (sort_by_createdAt_length (find_messages sid w)) as Hlen.
  destruct (Nat.ltb_spec (length (find_messages sid w)) (Z.to_nat limit)) as [Hfew | Hmany].
  - rewrite !firstn_all2; [reflexivity | lia |].
    rewrite length_app. cbn [length]. lia.
  - apply take_app_le. lia.
Qed.

(** X19. Saving a message and then loading the history, in either
    generation, with the store answering and a clock that is not behind the
    stored messages: the message saved is the last entry of the history as
    long as the session held fewer than [limit] messages, and from then on
    the history that is loaded no longer changes, whatever is saved. *)
Theorem saved_message_in_history (sessionId : string) (sid : ObjectId)
    (r : role) (content : string) (limit : Z) (w : World) :
  parseObjectId sessionId = Some sid ->
  db_down w = None -> db_faults w = [] ->
  Forall (fun m => m_createdAt m <= clock w) (messages w) ->
  0 < limit -> content <> "" ->
  exists history w',
    ConversationV2.getConversationHistory sessionId (Some limit) w = (Return history, w) /\
    ConversationV1.getConversationHistory sessionId (Some limit) w = (Return history, w) /\
    ConversationV2.saveMessage sessionId r content w = (Return tt, w') /\
    ConversationV1.saveMessage sessionId r content w = (Return tt, w') /\
    let after :=
      if (length (find_messages sid w) <? Z.to_nat limit)%nat
      then history ++ [mkChat r content] else history in
    ConversationV2.getConversationHistory sessionId (Some limit) w' = (Return after, w') /\
    ConversationV1.getConversationHistory sessionId (Some limit) w' = (Return after, w').
Proof.
  intros Hsid Hup Hok Hclock Hlimit Hcontent.
  exists (map to_ChatMessage
            (cursor_limit limit (sort_by_createdAt (find_messages sid w)))),
    (set_messages (fun l => l ++ [mkMessage sid r content (clock w)]) w).
  assert (Hlen : (String.length content =? 0)%nat = false).
  { destruct content; [congruence | reflexivity]. }
  assert (Hafter :
    map to_ChatMessage
      (cursor_limit limit
         (sort_by_createdAt
            (find_messages sid
               (set_messages (fun l => l ++ [mkMessage sid r content (clock w)]) w))))
    = if (length (find_messages sid w) <? Z.to_nat limit)%nat
      then map to_ChatMessage
             (cursor_limit limit (sort_by_createdAt (find_messages sid w)))
           ++ [mkChat r content]
      else map to_ChatMessage
             (cursor_limit limit (sort_by_createdAt (find_messages sid w)))).
  { rewrite (history_after_insert sid r content limit w Hclock Hlimit).
    destruct (length (find_messages sid w) <? Z.to_nat limit)%nat; [|reflexivity].
    rewrite map_app. reflexivity. }
  repeat split.
  - unfold ConversationV2.getConversationHistory, connectDB, store_op, bind, get, ret.
    rewrite Hup, Hsid, Hok. reflexivity.
  - unfold ConversationV1.getConversationHistory, ConversationV1.Message_find,
      SessionV1.cast, connectDB, store_op, bind, try_catch, get, ret.
    rewrite Hup, Hsid, Hok. reflexivity.
  - unfold ConversationV2.saveMessage, connectDB, store_op, now, bind, ret, modify.
    rewrite Hup, Hsid, Hok. reflexivity.
  - unfold ConversationV1.saveMessage, ConversationV1.Message_create,
      SessionV1.cast_field, connectDB, store_op, now, bind, try_catch, ret, modify.
    rewrite Hup, Hsid, Hlen, Hok. reflexivity.
  - cbv zeta. rewrite <- Hafter.
    unfold ConversationV2.getConversationHistory, connectDB, store_op, bind, get, ret.
    look_up. reflexivity.
  - cbv zeta. rewrite <- Hafter.
    unfold ConversationV1.getConversationHistory, ConversationV1.Message_find,
      SessionV1.cast, connectDB, store_op, bind, try_catch, get, ret.
    look_up. reflexivity.
Qed.

Lemma saved_message_in_history_witness :
  exists history w',
    ConversationV2.getConversationHistory session_id (Some 2) world_at_tick_three
    = (Return history, world_at_tick_three) /\
    ConversationV1.getConversationHistory session_id (Some 2) world_at_tick_three
    = (Return history, world_at_tick_three) /\
    ConversationV2.saveMessage session_id assistant "fourth" world_at_tick_three
    = (Return tt, w') /\
    ConversationV1.saveMessage session_id assistant "fourth" world_at_tick_three
    = (Return tt, w') /\
    let after :=
      if (length (find_messages session_id world_at_tick_three) <? Z.to_nat 2)%nat
      then history ++ [mkChat assistant "fourth"] else history in
    ConversationV2.getConversationHistory session_id (Some 2) w' = (Return after, w') /\
    ConversationV1.getConversationHistory session_id (Some 2) w' = (Return after, w').
Proof.
  apply (saved_message_in_history session_id session_id assistant "fourth" 2
           world_at_tick_three).
  - reflexivity.
  - reflexivity.
  - reflexivity.
  - repeat constructor; cbn [m_createdAt clock world_at_tick_three]; lia.
  - lia.
  - discriminate.
Defined.

(** ** Instances of the general statements above *)

Lemma history_is_oldest_prefix_witness :
  ConversationV1.getConversationHistory session_id (Some 2) world_with_three_messages
  = (Return (map to_ChatMessage
               (cursor_limit 2
                  (sort_by_createdAt (find_messages session_id world_with_three_messages)))),
     world_with_three_messages) /\
  ConversationV2.getConversationHistory session_id (Some 2) world_with_three_messages
  = (Return (map to_ChatMessage
               (cursor_limit 2
                  (sort_by_createdAt (find_messages session_id world_with_three_messages)))),
     world_with_three_messages) /\
  ascending
    (cursor_limit 2
       (sort_by_createdAt (find_messages session_id world_with_three_messages))) /\
  (0 < 2 ->
   (length (cursor_limit 2
              (sort_by_createdAt (find_messages session_id world_with_three_messages)))
    <= Z.to_nat 2)%nat) /\
  (find_messages session_id world_with_three_messages = [] ->
   cursor_limit 2
     (sort_by_createdAt (find_messages session_id world_with_three_messages)) = []).
Proof.
  apply (history_is_oldest_prefix session_id session_id 2 world_with_three_messages);
    reflexivity.
Defined.

Lemma getOrCreateSession_resolves_witness :
  exists newId w',
    fresh_id world_with_session = (Return newId, w') /\
    ConversationV2.getOrCreateSession alice_id (Some "stale-session") world_with_session
    = (Return newId,
       set_sessions
         (insert newId (mkSession alice_id (clock world_with_session)
                          (clock world_with_session))) w').
Proof.
  apply (getOrCreateSession_resolves alice_id (Some "stale-session") world_with_session);
    reflexivity.
Defined.

Lemma getOrCreateSession_resolves_well_formed_witness :
  SessionV1.getOrCreateSession alice_id (Some session_id) world_with_session
  = (Return session_id,
     set_sessions
       (alter (fun s => mkSession (s_userId s) (s_createdAt s) (clock world_with_session))
          session_id)
       world_with_session).
Proof.
  apply (getOrCreateSession_resolves_well_formed alice_id alice_id (Some session_id)
           world_with_session).
  - reflexivity.
  - reflexivity.
  - reflexivity.
  - intros sid [= <-]. eexists. reflexivity.
Defined.

Lemma second_generation_removes_uploads_witness :
  exists r w' tr',
    RouteV2.handleConversation env0 (upload clip) alice_id (world_before_upload, [])
    = (r, (w', tr')) /\
    files w' ⊆ files world_before_upload /\
    match r with
    | Return _ => exists form, formData (upload clip) = Return form
    | Throw v => formData (upload clip) = Throw v /\ w' = world_before_upload /\ tr' = []
    end.
Proof.
  apply (second_generation_removes_uploads env0 (upload clip) alice_id
           world_before_upload []).
  intros form audioFile [= <-] [= <-]. split; reflexivity.
Defined.

Lemma rejected_upload_survives_witness :
  exists path w2,
    files w2 !! path = Some long_clip /\
    forall r,
      AudioV1.validateAudio env0 path w2 = (Return r, w2) ->
      valid r = false ->
      RouteV1.POST_upload env0 alice_id (mkUpload "clip.wav" "audio/wav" long_clip) None
        ((world_before_upload, []), RouteV1.mkLocals None None)
      = (Return (RouteV1.validation_error (default "" (error r))),
         ((w2, []), RouteV1.mkLocals (Some path) None)).
Proof.
  apply (rejected_upload_survives env0 alice_id (mkUpload "clip.wav" "audio/wav" long_clip)
           None world_before_upload [] (RouteV1.mkLocals None None)).
  reflexivity.
Defined.

(** ** Failures that the second generation's wrapper takes for transient *)

(** X25. The second generation's wrapper stops early on an error whose
    [response.status] is below 500, and neither the transcription client
    nor the synthesizer ever throws one: the client turns every HTTP answer
    other than 200 into a plain [Error], and the synthesizer's refusal of a
    text over 4096 characters is a plain [Error] too.  So a 4xx of the
    transcription provider is retried, and the refusal is repeated three
    times, one and two seconds apart, with no call to the provider. *)
Theorem second_generation_takes_failures_for_transient :
  (forall path w v w',
      SttV2.transcribeAudio path w = (Throw v, w') -> RetryV2.below_500 v = false) /\
  (forall text w tr,
      4096 < Z.of_nat (String.length text) ->
      RetryV2.retryWithBackoff (TtsV2.synthesizeSpeech text) (Some 2) (w, tr)
      = (Throw (Exn (new_Error "Text exceeds 4096 character limit")),
         (w, tr ++ [EvInvoke; EvSleep 1000; EvInvoke; EvSleep 2000; EvInvoke]))).
Proof.
  split.
  - intros path w v w'. unfold SttV2.transcribeAudio, try_catch, raise, throw.
    destruct (whisper_create path w) as [[t|[|e]] w1]; [discriminate| |].
    + intros [= <- <-]. reflexivity.
    + destruct (response_status e) as [code|] eqn:Hcode.
      * intros [= <- <-]. reflexivity.
      * intros [= <- <-]. cbn [RetryV2.below_500]. rewrite Hcode. reflexivity.
  - intros text w tr Hlong.
    assert (Hrun : forall w0,
               TtsV2.synthesizeSpeech text w0
               = (Throw (Exn (new_Error "Text exceeds 4096 character limit")), w0)).
    { intros w0. unfold TtsV2.synthesizeSpeech.
      replace (Z.of_nat (String.length text) >? 4096) with true
        by (symmetry; apply Z.gtb_gt; lia).
      reflexivity. }
    assert (Hthrows : always_throws (retryable Gen2) (TtsV2.synthesizeSpeech text)).
    { intros w0. eexists _, w0. split; [apply Hrun|]. split; reflexivity. }
    pose proof (retry_exhausts (TtsV2.synthesizeSpeech text) Gen2 2 w tr Hthrows)
      as Hretry.
    rewrite (world_after_fixed _ 2 w) in Hretry by (intros w0; rewrite Hrun; reflexivity).
    rewrite Hrun in Hretry. exact Hretry.
Qed.

(** Three refusals of the key, three requests. *)
Example refused_key_is_retried_in_second_generation :
  RetryV2.retryWithBackoff (SttV2.transcribeAudio "/tmp/a.wav") (Some 2)
    (world_with_refusing_whisper, [])
  = (Throw (Exn (new_Error "Request failed")),
     (set_whisper []
        (log_call (CallWhisper "/tmp/a.wav")
           (log_call (CallWhisper "/tmp/a.wav")
              (log_call (CallWhisper "/tmp/a.wav") world_with_refusing_whisper))),
      [EvInvoke; EvSleep 1000; EvInvoke; EvSleep 2000; EvInvoke])).
Proof. vm_compute. reflexivity. Qed.

(** ** What the caller is told of a provider's failure *)

Lemma handleApiError_without_status (env : Env) (msg : string) :
  unclassified (ErrorsV1.handleApiError env (Exn (new_Error msg))).
Proof.
  unfold unclassified, ErrorsV1.handleApiError.
  cbn [status new_Error RetryV1.to_Error is_Error message].
  rewrite !bool_decide_eq_false_2 by discriminate.
  destruct (includes msg "Connection error" || includes msg "timeout"
            || includes msg "ECONNREFUSED" || includes msg "ETIMEDOUT").
  { eexists _, _, _. split; [reflexivity|]. left. split; reflexivity. }
  destruct (includes msg "Invalid" || includes msg "required" || includes msg "exceeds").
  { eexists _, _, _. split; [reflexivity|]. right. left. split; reflexivity. }
  eexists _, _, _. split; [reflexivity|]. right. right. split; reflexivity.
Qed.

(** X26. What a provider's status becomes in the first generation: the
    clients rethrow every failure as a fresh [Error], so for whatever one of
    them throws, [handleApiError] answers 502, 400 or 500 by the words of
    the message, and never [RATE_LIMIT_EXCEEDED] or [INVALID_OPENAI_KEY]:
    its two tests on [status] cannot succeed on a failure of a provider. *)
Theorem provider_status_is_lost (env : Env) :
  (forall path w v w',
      SttV1.transcribeAudio path w = (Throw v, w') ->
      unclassified (ErrorsV1.handleApiError env v)) /\
  (forall userText history w v w',
      LlmV1.generateResponse userText history w = (Throw v, w') ->
      unclassified (ErrorsV1.handleApiError env v)) /\
  (forall text w v w',
      TtsV1.synthesizeSpeech text w = (Throw v, w') ->
      unclassified (ErrorsV1.handleApiError env v)).
Proof.
  split; [|split].
  - intros path w v w'. unfold SttV1.transcribeAudio, try_catch, raise, throw.
    destruct (whisper_create path w) as [[t|error] w1]; [discriminate|].
    intros [= <- <-]. apply handleApiError_without_status.
  - intros userText history w v w'.
    unfold LlmV1.generateResponse, try_catch, bind, raise, throw, ret.
    destruct (chat_create _ w) as [[[t|]|error] w1].
    + destruct (String.length t =? 0)%nat; [|discriminate].
      intros [= <- <-]. apply handleApiError_without_status.
    + intros [= <- <-]. apply handleApiError_without_status.
    + intros [= <- <-]. apply handleApiError_without_status.
  - intros text w v w'. unfold TtsV1.synthesizeSpeech, try_catch, raise, throw.
    destruct (empty_or_blank text).
    + intros [= <- <-]. apply handleApiError_without_status.
    + destruct (Z.of_nat (String.length text) >? TtsV1.limit).
      * intros [= <- <-]. apply handleApiError_without_status.
      * destruct (speech_create text w) as [[b|error] w1]; [discriminate|].
        intros [= <- <-]. apply handleApiError_without_status.
Qed.

(** ** The middleware and the routes of the second generation *)

Section Middleware.

Context (sha256_hex : string -> string).

Lemma validateApiKey2_cases (apiKey : string) (w : World) :
  exists r w1,
    AuthV2.validateApiKey sha256_hex apiKey w = (r, w1) /\
    w1 = set_db_faults (db_faults w1) w /\
    forall caller, r = Return (Some caller) -> key_of sha256_hex w apiKey caller.
Proof.
  unfold AuthV2.validateApiKey, AuthV2.hashApiKey, bind, connectDB, store_op, get, ret.
  destruct (db_down w) as [e|].
  { eexists _, w. split; [reflexivity|]. split; [apply world_but_for_faults|].
    discriminate. }
  destruct (db_faults w) as [|[e|] rest]; cbn [users set_db_faults].
  2: { eexists _, _. split; [reflexivity|]. split; [reflexivity|]. discriminate. }
  all: destruct (List.find (fun u => String.eqb (u_apiKey u) (sha256_hex apiKey)) (users w))
         as [u|] eqn:Hfind.
  all: eexists _, _; (split; [reflexivity|]);
         (split; [first [reflexivity | apply world_but_for_faults]|]).
  all: try discriminate.
  all: intros caller [= <-]; apply List.find_some in Hfind as [Hin Hkey];
         apply String.eqb_eq in Hkey; exists u; repeat split; assumption.
Qed.

(** [withAuth] either answers on its own, having touched nothing but the
    store's script of answers, or runs the handler for the user whose key
    the header carries. *)
Lemma withAuth_cases (req : Request) (handler : AuthUser -> IO (World * trace) Reply)
    (w : World) (tr : trace) :
  (exists r w1,
      RoutesV2.withAuth sha256_hex req handler (w, tr) = (Return r, (w1, tr)) /\
      w1 = set_db_faults (db_faults w1) w /\ turned_away r) \/
  (exists apiKey caller w1,
      authorization req = Some ("Bearer " +:+ apiKey) /\
      AuthV2.validateApiKey sha256_hex apiKey w = (Return (Some caller), w1) /\
      key_of sha256_hex w apiKey caller /\
      w1 = set_db_faults (db_faults w1) w /\
      RoutesV2.withAuth sha256_hex req handler (w, tr)
      = try_catch (handler caller)
          (fun err =>
             if RoutesV2.isConnectionError err then ret RoutesV2.service_unavailable
             else ret (Plain (JsonResponse 500 "INTERNAL_SERVER_ERROR"
                                (message_or "Authentication failed" err))))
          (w1, tr)).
Proof.
  unfold RoutesV2.withAuth.
  destruct (authorization req) as [authHeader|].
  2: { left. eexists _, w. split; [reflexivity|]. split; [apply world_but_for_faults|].
       eexists _, _, _. split; [reflexivity|]. left. reflexivity. }
  unfold startsWith.
  destruct (String.prefix "Bearer " authHeader) eqn:Hbearer; cbn [negb].
  2: { left. eexists _, w. split; [reflexivity|]. split; [apply world_but_for_faults|].
       eexists _, _, _. split; [reflexivity|]. left. reflexivity. }
  apply prefix_substring in Hbearer. cbn [String.length] in Hbearer.
  set (apiKey := String.substring 7 (String.length authHeader - 7) authHeader) in *.
  destruct (validateApiKey2_cases apiKey w) as (r & w1 & Hvalidate & Hw1 & Hkey).
  destruct r as [[caller|]|v].
  - right. exists apiKey, caller, w1.
    split; [f_equal; exact Hbearer|]. split; [exact Hvalidate|].
    split; [apply Hkey; reflexivity|]. split; [exact Hw1|].
    unfold try_catch, bind, lift. rewrite Hvalidate. reflexivity.
  - left. unfold try_catch, bind, lift. rewrite Hvalidate.
    eexists _, w1. split; [reflexivity|]. split; [exact Hw1|].
    eexists _, _, _. split; [reflexivity|]. left. reflexivity.
  - left. unfold try_catch, bind, lift. rewrite Hvalidate.
    destruct (RoutesV2.isConnectionError v).
    + eexists _, w1. split; [reflexivity|]. split; [exact Hw1|].
      eexists _, _, _. split; [reflexivity|]. right. right. reflexivity.
    + eexists _, w1. split; [reflexivity|]. split; [exact Hw1|].
      eexists _, _, _. split; [reflexivity|]. right. left. reflexivity.
Qed.

End Middleware.

Lemma bearer_key (authHeader apiKey : string) :
  authHeader = "Bearer " +:+ apiKey ->
  String.prefix "Bearer " authHeader = true /\
  String.substring 7 (String.length authHeader - 7) authHeader = apiKey.
Proof.
  intros ->. split.
  - simpl. destruct apiKey; reflexivity.
  - simpl. rewrite Nat.sub_0_r. apply substring_all.
Qed.

(** X27. [withAuth] never throws, whatever the handler does: it always
    answers, and what it answers is decided as follows.  A request whose
    header does not read [Bearer <key>] is answered 401 [UNAUTHORIZED] with
    the world untouched.  For a header [Bearer <key>]: when the store cannot
    be reached, or fails the look-up, the answer is 503 or 500; when the
    store answers and no user has the hash of [<key>], it is 401
    [INVALID_API_KEY]; in these cases the handler is not run and nothing has
    changed but the store answer used up.  When the store answers and a
    user has the hash of [<key>], the handler runs once, for the first such
    user, from the world after the look-up: its answer and its final state
    are those of [withAuth], and what it throws becomes a 503 or a 500. *)
Theorem withAuth_guards_the_handler (sha256_hex : string -> string) (req : Request)
    (handler : AuthUser -> IO (World * trace) Reply) (w : World) (tr : trace) :
  exists r st',
    RoutesV2.withAuth sha256_hex req handler (w, tr) = (Return r, st') /\
    ((forall apiKey, authorization req <> Some ("Bearer " +:+ apiKey)) ->
     r = RoutesV2.unauthorized /\ st' = (w, tr)) /\
    (forall apiKey,
        authorization req = Some ("Bearer " +:+ apiKey) ->
        match db_down w with
        | Some e => r = refusal (Exn e) /\ st' = (w, tr)
        | None =>
            match next_fault w with
            | Some e => r = refusal (Exn e) /\ st' = (snd (store_op w), tr)
            | None =>
                match List.find (fun u => String.eqb (u_apiKey u) (sha256_hex apiKey))
                        (users w) with
                | None => r = RoutesV2.invalid_api_key /\ st' = (snd (store_op w), tr)
                | Some u =>
                    match handler (mkAuthUser (u_id u) (u_email u))
                            (snd (store_op w), tr) with
                    | (Return answer, st1) => r = answer /\ st' = st1
                    | (Throw v, st1) => r = refusal v /\ st' = st1
                    end
                end
            end
        end).
Proof.
  unfold RoutesV2.withAuth.
  destruct (authorization req) as [authHeader|].
  2: { exists RoutesV2.unauthorized, (w, tr). split; [reflexivity|].
       split; [intros _; split; reflexivity | discriminate]. }
  unfold startsWith.
  destruct (String.prefix "Bearer " authHeader) eqn:Hbearer; cbn [negb].
  2: { exists RoutesV2.unauthorized, (w, tr). split; [reflexivity|].
       split; [intros _; split; reflexivity|].
       intros apiKey [= Hheader]. apply bearer_key in Hheader as [Hprefix _].
       congruence. }
  apply prefix_substring in Hbearer. cbn [String.length] in Hbearer.
  set (key := String.substring 7 (String.length authHeader - 7) authHeader) in *.
  assert (Hkey : forall apiKey, Some authHeader = Some ("Bearer " +:+ apiKey) ->
                                apiKey = key).
  { intros apiKey [= Hheader]. apply bearer_key in Hheader as [_ Hsub].
    symmetry. exact Hsub. }
  assert (Hnot : (forall apiKey, Some authHeader <> Some ("Bearer " +:+ apiKey)) ->
                 False).
  { intros Hnone. apply (Hnone key). f_equal. exact Hbearer. }
  unfold AuthV2.validateApiKey, AuthV2.hashApiKey.
  unfold try_catch, bind, lift, connectDB, store_op, get, ret, next_fault, refusal.
  destruct (db_down w) as [down|].
  { destruct (RoutesV2.isConnectionError (Exn down));
      (eexists _, _; split; [reflexivity|];
       split; [intros Hnone; destruct (Hnot Hnone)|];
       intros apiKey _; split; reflexivity). }
  destruct (db_faults w) as [|[e|] rest]; cbn [users set_db_faults snd].
  2: { destruct (RoutesV2.isConnectionError (Exn e));
         (eexists _, _; split; [reflexivity|];
          split; [intros Hnone; destruct (Hnot Hnone)|];
          intros apiKey _; split; reflexivity). }
  all: destruct (List.find (fun u => String.eqb (u_apiKey u) (sha256_hex key)) (users w))
         as [u|] eqn:Hfind.
  2, 4: (eexists _, _; split; [reflexivity|];
         split; [intros Hnone; destruct (Hnot Hnone)|];
         intros apiKey Hheader; rewrite (Hkey apiKey Hheader), Hfind;
         split; reflexivity).
  all: destruct (handler (mkAuthUser (u_id u) (u_email u)) _)
         as [[answer|v] st1] eqn:Hhandler.
  all: try destruct (RoutesV2.isConnectionError v) eqn:Hconnection.
  all: eexists _, _; (split; [reflexivity|]);
         (split; [intros Hnone; destruct (Hnot Hnone)|]);
         intros apiKey Hheader; rewrite (Hkey apiKey Hheader), Hfind, Hhandler;
         rewrite ?Hconnection; split; reflexivity.
Qed.

(** A registered key whose look-up the store fails: the caller is told 503,
    and the handler is not run. *)
Example registered_key_and_a_failing_store :
  RoutesV2.withAuth (fun key => key) (upload clip)
    (fun _ => ret (Plain (JsonResponse 200 "OK" "handled")))
    (set_db_faults [Some storage_error] world_before_upload, [])
  = (Return RoutesV2.service_unavailable, (world_before_upload, [])).
Proof. vm_compute. reflexivity. Qed.

Lemma getConversationHistory2_length (sessionId : string) (limit : Z)
    (w w' : World) (history : list ChatMessage) :
  ConversationV2.getConversationHistory sessionId (Some limit) w = (Return history, w') ->
  0 < limit -> (length history <= Z.to_nat limit)%nat.
Proof.
  unfold ConversationV2.getConversationHistory, connectDB, store_op, bind, get, ret.
  cbv beta zeta iota delta [from_option id].
  destruct (db_down w); [discriminate|].
  destruct (parseObjectId sessionId) as [oid|].
  2: { intros [= <- <-] _. cbn [length]. lia. }
  destruct (db_faults w) as [|[e|] rest]; try discriminate;
    intros [= <- <-] Hlimit; rewrite length_map; apply cursor_limit_length, Hlimit.
Qed.

Lemma getSession2_found (sessionId userId : string) (w w' : World)
    (oid : ObjectId) (s : SessionDoc) :
  ConversationV2.getSession sessionId userId w = (Return (Some (oid, s)), w') ->
  parseObjectId sessionId = Some oid /\ sessions w !! oid = Some s /\
  s_userId s = userId.
Proof.
  session_steps.
  destruct (db_down w); [discriminate|].
  destruct (parseObjectId sessionId) as [oid'|]; [|discriminate].
  destruct (db_faults w) as [|[e|] rest]; try discriminate;
    cbn [sessions set_db_faults];
    (destruct (sessions w !! oid') as [s'|] eqn:Hs; [|discriminate]);
    (destruct (String.eqb_spec (s_userId s') userId); [|discriminate]);
    intros [= <- <- <-]; repeat split; assumption.
Qed.

Lemma sessions_but_for_faults (w w1 : World) :
  w1 = set_db_faults (db_faults w1) w -> sessions w1 = sessions w.
Proof. intros ->. reflexivity. Qed.

(** X28. The limit of the messages route of the second generation is never
    0 and never above 100; a missing, empty or unreadable parameter gives
    20; a listing that the route returns under a positive limit has at most
    100 messages.  A negative parameter is below the cap and so is passed
    to the driver as it is. *)
Theorem messages_route_limit (sha256_hex : string -> string) (req : Request)
    (sessionId : string) (limitParam : option string) (st st' : World * trace)
    (listed : list ChatMessage) :
  RoutesV2.GET_messages sha256_hex req sessionId limitParam st
  = (Return (Messages listed), st') ->
  RoutesV2.limit_of limitParam <> 0 /\
  RoutesV2.limit_of limitParam <= 100 /\
  (RoutesV2.parseInt10 (default "20" limitParam) = None ->
   RoutesV2.limit_of limitParam = 20) /\
  (forall n, RoutesV2.parseInt10 (default "20" limitParam) = Some n -> n < 0 ->
             RoutesV2.limit_of limitParam = n) /\
  (0 < RoutesV2.limit_of limitParam -> (length listed <= 100)%nat).
Proof.
  intros Hrun.
  assert (Hcap : RoutesV2.limit_of limitParam <= 100).
  { unfold RoutesV2.limit_of. lia. }
  split.
  { unfold RoutesV2.limit_of, or_number.
    destruct (RoutesV2.parseInt10 _) as [v|]; [|lia].
    destruct (Z.eqb_spec v 0); lia. }
  split; [exact Hcap|]. split.
  { intros Hnan. unfold RoutesV2.limit_of. rewrite Hnan. reflexivity. }
  split.
  { intros n Hparsed Hn. unfold RoutesV2.limit_of, or_number. rewrite Hparsed.
    destruct (Z.eqb_spec n 0); lia. }
  intros Hpositive. destruct st as [w tr]. unfold RoutesV2.GET_messages in Hrun.
  destruct (withAuth_cases sha256_hex req
              (fun caller =>
                 session <- lift (ConversationV2.getSession sessionId (auth_id caller)) ;;
                 match session with
                 | None => ret RoutesV2.session_not_found
                 | Some _ =>
                     found <- lift (ConversationV2.getConversationHistory sessionId
                                      (Some (RoutesV2.limit_of limitParam))) ;;
                     ret (Messages (map (fun m => mkChat (chat_role m) (chat_content m))
                                      found))
                 end) w tr)
    as [(r & w1 & Hauth & _ & (s0 & c0 & m0 & -> & _))
       | (apiKey & caller & w1 & _ & _ & _ & _ & Hauth)];
    rewrite Hauth in Hrun; [discriminate|].
  unfold try_catch, bind, lift in Hrun.
  destruct (ConversationV2.getSession sessionId (auth_id caller) w1)
    as [[[session|]|v] w2].
  - destruct (ConversationV2.getConversationHistory sessionId
                (Some (RoutesV2.limit_of limitParam)) w2) as [[found|v] w3] eqn:Hfound.
    + injection Hrun as <- _. rewrite length_map.
      pose proof (getConversationHistory2_length _ _ _ _ _ Hfound Hpositive). lia.
    + destruct (RoutesV2.isConnectionError v); discriminate.
  - discriminate.
  - destruct (RoutesV2.isConnectionError v); discriminate.
Qed.

Lemma messages_route_limit_witness :
  RoutesV2.limit_of (Some "2") <> 0 /\
  RoutesV2.limit_of (Some "2") <= 100 /\
  (RoutesV2.parseInt10 (default "20" (Some "2")) = None ->
   RoutesV2.limit_of (Some "2") = 20) /\
  (forall n, RoutesV2.parseInt10 (default "20" (Some "2")) = Some n -> n < 0 ->
             RoutesV2.limit_of (Some "2") = n) /\
  (0 < RoutesV2.limit_of (Some "2") ->
   (length [mkChat user "first"; mkChat assistant "second"] <= 100)%nat).
Proof.
  apply (messages_route_limit toy_hash (request_with_key "sk_01") session_id (Some "2")
           (world_with_hashed_user, []) (world_with_hashed_user, [])).
  vm_compute. reflexivity.
Defined.

(** A parameter that counts down from zero is not capped. *)
Example negative_limit_is_not_capped :
  RoutesV2.limit_of (Some "-500") = -500 /\
  RoutesV2.limit_of (Some "500") = 100 /\
  RoutesV2.limit_of (Some "0") = 20 /\
  RoutesV2.limit_of (Some "many") = 20 /\
  RoutesV2.limit_of None = 20.
Proof. repeat split; reflexivity. Qed.

(** X29. The two session routes of the second generation serve a session
    only to its owner: a body with the session, or with its messages, is
    returned only to a request whose key is the key of a stored user, for a
    session that the store holds under the id of the path with that user as
    its [userId]. *)
Theorem routes_serve_own_sessions (sha256_hex : string -> string) (req : Request)
    (sessionId : string) (limitParam : option string) (w : World) (tr : trace) :
  (forall id userId createdAt lastActivityAt st',
      RoutesV2.GET_session sha256_hex req sessionId (w, tr)
      = (Return (SessionFound id userId createdAt lastActivityAt), st') ->
      exists apiKey caller,
        authorization req = Some ("Bearer " +:+ apiKey) /\
        key_of sha256_hex w apiKey caller /\ userId = auth_id caller /\
        parseObjectId sessionId = Some id /\
        sessions w !! id = Some (mkSession userId createdAt lastActivityAt)) /\
  (forall listed st',
      RoutesV2.GET_messages sha256_hex req sessionId limitParam (w, tr)
      = (Return (Messages listed), st') ->
      exists apiKey caller oid s,
        authorization req = Some ("Bearer " +:+ apiKey) /\
        key_of sha256_hex w apiKey caller /\
        parseObjectId sessionId = Some oid /\
        sessions w !! oid = Some s /\ s_userId s = auth_id caller).
Proof.
  split.
  - intros id userId createdAt lastActivityAt st' Hrun.
    unfold RoutesV2.GET_session in Hrun.
    destruct (withAuth_cases sha256_hex req
                (fun caller =>
                   session <- lift (ConversationV2.getSession sessionId (auth_id caller)) ;;
                   match session with
                   | None => ret RoutesV2.session_not_found
                   | Some (oid, s) =>
                       ret (SessionFound oid (s_userId s) (s_createdAt s)
                              (s_lastActivityAt s))
                   end) w tr)
      as [(r & w1 & Hauth & _ & (s0 & c0 & m0 & -> & _))
         | (apiKey & caller & w1 & Hheader & _ & Hkey & Hw1 & Hauth)];
      rewrite Hauth in Hrun; [discriminate|].
    unfold try_catch, bind, lift in Hrun.
    destruct (ConversationV2.getSession sessionId (auth_id caller) w1)
      as [[[[oid s]|]|v] w2] eqn:Hsession.
    + injection Hrun as <- <- <- <- _.
      apply getSession2_found in Hsession as (Hoid & Hs & Howner).
      rewrite (sessions_but_for_faults w w1 Hw1) in Hs.
      exists apiKey, caller. repeat split; try assumption.
      destruct s; exact Hs.
    + discriminate.
    + destruct (RoutesV2.isConnectionError v); discriminate.
  - intros listed st' Hrun. unfold RoutesV2.GET_messages in Hrun.
    destruct (withAuth_cases sha256_hex req
                (fun caller =>
                   session <- lift (ConversationV2.getSession sessionId (auth_id caller)) ;;
                   match session with
                   | None => ret RoutesV2.session_not_found
                   | Some _ =>
                       found <- lift (ConversationV2.getConversationHistory sessionId
                                        (Some (RoutesV2.limit_of limitParam))) ;;
                       ret (Messages (map (fun m => mkChat (chat_role m) (chat_content m))
                                        found))
                   end) w tr)
      as [(r & w1 & Hauth & _ & (s0 & c0 & m0 & -> & _))
         | (apiKey & caller & w1 & Hheader & _ & Hkey & Hw1 & Hauth)];
      rewrite Hauth in Hrun; [discriminate|].
    unfold try_catch, bind, lift in Hrun.
    destruct (ConversationV2.getSession sessionId (auth_id caller) w1)
      as [[[[oid s]|]|v] w2] eqn:Hsession.
    + apply getSession2_found in Hsession as (Hoid & Hs & Howner).
      rewrite (sessions_but_for_faults w w1 Hw1) in Hs.
      exists apiKey, caller, oid, s. repeat split; assumption.
    + discriminate.
    + destruct (RoutesV2.isConnectionError v); discriminate.
Qed.

(** ** Registering and logging in, second generation *)

Lemma find_app_none {A} (f : A -> bool) (l l' : list A) :
  (forall x, In x l -> f x = false) ->
  List.find f (l ++ l') = List.find f l'.
Proof.
  induction l as [|x l IH]; intros Hl; [reflexivity|].
  cbn [app List.find]. rewrite (Hl x) by (left; reflexivity).
  apply IH. intros y Hy. apply Hl. right. exact Hy.
Qed.

Lemma existsb_none {A} (f : A -> bool) (l : list A) :
  (forall x, In x l -> f x = false) -> existsb f l = false.
Proof.
  intros Hl. destruct (existsb f l) eqn:Hsome; [|reflexivity].
  apply existsb_exists in Hsome as (x & Hx & Hfx). rewrite (Hl x Hx) in Hfx.
  discriminate.
Qed.

Lemma E11000_is_duplicate (email : string) :
  includes (message (AuthV2.E11000 email)) "duplicate" = true.
Proof. reflexivity. Qed.

(** X30. Registering and logging in with the second generation, the store
    answering: for an email and a key that are both new, the register route
    answers with the new user's id and the key [sk_<random bytes>]; what it
    stores is the hash of the key, not the key; the login route then takes
    that key and answers with the same id and email; and registering the
    same email again is refused with 400, whatever key is drawn, and stores
    nothing. *)
Theorem registered_key_logs_in (sha256_hex : string -> string)
    (random_hex email : string) (w : World) :
  db_down w = None -> db_faults w = [] -> email <> "" ->
  (forall u, In u (users w) ->
             u_email u <> email /\ u_apiKey u <> sha256_hex ("sk_" +:+ random_hex)) ->
  exists userId w',
    RoutesV2.POST_register sha256_hex random_hex (Return (Some email)) w
    = (Return (Registered userId ("sk_" +:+ random_hex)), w') /\
    users w' = users w ++ [mkUser userId email (sha256_hex ("sk_" +:+ random_hex))] /\
    RoutesV2.POST_login sha256_hex (Return (Some ("sk_" +:+ random_hex))) w'
    = (Return (LoggedIn ("sk_" +:+ random_hex) userId email), w') /\
    forall other_hex,
      RoutesV2.POST_register sha256_hex other_hex (Return (Some email)) w'
      = (Return (Plain (JsonResponse 400 "VALIDATION_ERROR" "Email already registered")),
         w').
Proof.
  intros Hup Hok Hemail Hnew.
  assert (Hid : exists id w0,
             fresh_id w = (Return id, w0) /\ users w0 = users w /\
             db_down w0 = None /\ db_faults w0 = []).
  { unfold fresh_id. destruct (fresh_ids w) as [|id rest];
      eexists _, _; (split; [reflexivity|]); repeat split; assumption. }
  destruct Hid as (id & w0 & Hfresh & Husers & Hup0 & Hok0).
  set (apiKey := "sk_" +:+ random_hex).
  set (w' := set_users (fun l => l ++ [mkUser id email (sha256_hex apiKey)]) w0).
  assert (Htruthy : SessionV1.truthy (Some email) = Some email)
    by (apply nonempty_truthy, Hemail).
  assert (Hfree : existsb (fun u => String.eqb (u_email u) email) (users w) = false).
  { apply existsb_none. intros u Hu. apply String.eqb_neq, (Hnew u Hu). }
  assert (Hup' : db_down w' = None) by exact Hup0.
  assert (Hok' : db_faults w' = []) by exact Hok0.
  assert (Husers' : users w' = users w ++ [mkUser id email (sha256_hex apiKey)]).
  { unfold w'. cbn [users set_users]. rewrite Husers. reflexivity. }
  exists id, w'. split; [|split; [|split]].
  - unfold RoutesV2.POST_register, AuthV2.createUser, AuthV2.generateApiKey,
      AuthV2.hashApiKey, try_catch, bind, connectDB, store_op, get, ret, modify.
    rewrite Htruthy, Hup, Hok, Hfree, Hfresh. reflexivity.
  - exact Husers'.
  - unfold RoutesV2.POST_login, AuthV2.validateApiKey, AuthV2.hashApiKey,
      try_catch, bind, connectDB, store_op, get, ret.
    assert (Hkey : SessionV1.truthy (Some apiKey) = Some apiKey) by reflexivity.
    rewrite Hkey. cbv beta iota. rewrite Hup'. cbv beta iota. rewrite Hok'.
    cbv beta iota. rewrite Husers', find_app_none.
    2: { intros u Hu. apply String.eqb_neq, (Hnew u Hu). }
    cbn [List.find u_apiKey]. rewrite String.eqb_refl. reflexivity.
  - intros other_hex.
    unfold RoutesV2.POST_register, AuthV2.createUser, AuthV2.generateApiKey,
      AuthV2.hashApiKey, try_catch, bind, connectDB, store_op, get, ret, raise, throw.
    rewrite Htruthy. cbv beta iota. rewrite Hup'. cbv beta iota. rewrite Hok'.
    cbv beta iota. rewrite Husers', existsb_app. cbn [existsb u_email].
    rewrite String.eqb_refl, orb_true_r.
    cbn [message_or AuthV2.E11000 new_Error is_Error].
    rewrite (E11000_is_duplicate email). reflexivity.
Qed.

Lemma registered_key_logs_in_witness :
  exists userId w',
    RoutesV2.POST_register toy_hash "02" (Return (Some "bob@example.com"))
      world_with_hashed_user
    = (Return (Registered userId ("sk_" +:+ "02")), w') /\
    users w'
    = users world_with_hashed_user
      ++ [mkUser userId "bob@example.com" (toy_hash ("sk_" +:+ "02"))] /\
    RoutesV2.POST_login toy_hash (Return (Some ("sk_" +:+ "02"))) w'
    = (Return (LoggedIn ("sk_" +:+ "02") userId "bob@example.com"), w') /\
    forall other_hex,
      RoutesV2.POST_register toy_hash other_hex (Return (Some "bob@example.com")) w'
      = (Return (Plain (JsonResponse 400 "VALIDATION_ERROR" "Email already registered")),
         w').
Proof.
  apply (registered_key_logs_in toy_hash "02" "bob@example.com" world_with_hashed_user).
  - reflexivity.
  - reflexivity.
  - discriminate.
  - intros u [<- | []]. split; discriminate.
Defined.

(** ** The routes at work *)

(** A session is made for the user whose key the request carries. *)
Example session_for_the_caller :
  RoutesV2.POST_sessions toy_hash (request_with_key "sk_01") (world_with_hashed_user, [])
  = (Return (SessionCreated fresh_session_id 3),
     (set_sessions (insert fresh_session_id (mkSession alice_id 3 3))
        (set_fresh_ids [] world_with_hashed_user), [])).
Proof. vm_compute. reflexivity. Qed.

(** A key that is not stored opens nothing. *)
Example unknown_key_is_refused :
  RoutesV2.POST_conversation toy_hash env0 (request_with_key "sk_99")
    (world_with_hashed_user, [])
  = (Return RoutesV2.invalid_api_key, (world_with_hashed_user, [])).
Proof. vm_compute. reflexivity. Qed.

(** A form that cannot be read is the caller's 500, and a store that is
    down is a 503. *)
Example unreadable_form :
  RoutesV2.POST_conversation toy_hash env0
    (mkRequest (Some "Bearer sk_01") (Throw (Exn (new_Error "Failed to parse body as FormData."))))
    (world_with_hashed_user, [])
  = (Return (Plain (JsonResponse 500 "INTERNAL_SERVER_ERROR"
                      "Failed to parse body as FormData.")),
     (world_with_hashed_user, [])).
Proof. vm_compute. reflexivity. Qed.

Example store_is_down :
  fst (RoutesV2.GET_session toy_hash (request_with_key "sk_01") session_id
         (set_db_faults [Some storage_error] world_with_hashed_user, []))
  = Return RoutesV2.service_unavailable.
Proof. vm_compute. reflexivity. Qed.

(** The owner reads the session; the listing keeps to the limit. *)
Example owner_reads_the_session :
  fst (RoutesV2.GET_session toy_hash (request_with_key "sk_01") session_id
         (world_with_hashed_user, []))
  = Return (SessionFound session_id alice_id 0 3) /\
  fst (RoutesV2.GET_messages toy_hash (request_with_key "sk_01") session_id (Some "2")
         (world_with_hashed_user, []))
  = Return (Messages [mkChat user "first"; mkChat assistant "second"]).
Proof. split; vm_compute; reflexivity. Qed.
